(** * Sonic World: collision, motion, acoustic parameters and audio reconciliation

    A shallow embedding of the simulation core of
    [src/components/SonicWorld.tsx].

    Numbers.  Every JavaScript [number] of the component is modelled as a real
    number ([R]): [Math.hypot] is the Euclidean norm, [Math.sin] and
    [Math.cos] are the real functions, comparisons are the real order.
    IEEE-754 rounding, infinities and NaN are not modelled.  The only place
    where the component can divide by zero is the Doppler quotient; the
    theorem about it does not depend on the value of the quotient.
    Where rounding could change an answer, a statement names the expression
    the code evaluates (the last sample [a + (b - a) * 1] rather than the
    endpoint [b]), uses a closed bound, or allows a tolerance of 1e-9, so
    that it also reads true on the values the component computes.

    Effects.  React state is passed explicitly; the audio graph is a finite
    map from emitter ids to the parameters last written to each synthesis
    unit, together with a log of the device operations issued. *)

From Stdlib Require Import Reals Lra Lia ZArith.
From stdpp Require Import base decidable option list strings pretty gmap.

Open Scope R_scope.

(** ** Numbers *)

Module Num.

#[global] Instance Rle_decision : RelDecision Rle := Rle_dec.
#[global] Instance Rlt_decision : RelDecision Rlt := Rlt_dec.
#[global] Instance Rge_decision : RelDecision Rge := Rge_dec.
#[global] Instance Rgt_decision : RelDecision Rgt := Rgt_dec.

(** [Math.min(max, Math.max(min, value))] *)
Definition clamp (value min max : R) : R := Rmin max (Rmax min value).

(** [Math.hypot(x, z)] *)
Definition hypot (x z : R) : R := sqrt (x * x + z * z).

(** Truncation toward zero, as used by the remainder operator. *)
Definition trunc (r : R) : Z :=
  if bool_decide (0 <= r) then Int_part r else (- Int_part (- r))%Z.

(** [a % b] on numbers: the remainder has the sign of the dividend. *)
Definition rem (a b : R) : R := a - b * IZR (trunc (a / b)).

Definition wrapDegrees (value : R) : R :=
  let normalized := rem value 360 in
  if bool_decide (normalized < 0) then normalized + 360 else normalized.

Definition toRadians (deg : R) : R := (deg * PI) / 180.

(** [Math.floor] and [Math.round] (halves round up). *)
Definition floor (r : R) : Z := Int_part r.
Definition round (r : R) : Z := Int_part (r + 0.5).

(** [Math.random() * (max - min) + min], for the draw [u] of [Math.random()]. *)
Definition randomBetween (u min max : R) : R := u * (max - min) + min.

End Num.
Export Num.

(** ** Data model *)

Inductive OscillatorType := Sine | Triangle | Square | Sawtooth | Custom.

Record ListenerPose := mkListenerPose {
  pose_x : R;
  pose_z : R;
  pose_headingDeg : R
}.

Record CollisionZone := mkCollisionZone {
  zone_id : string;
  zone_label : string;
  zone_x : R;
  zone_z : R;
  zone_radius : R
}.

Record Wall := mkWall {
  wall_id : string;
  wall_x : R;
  wall_z : R;
  wall_width : R;
  wall_height : R
}.

Record SoundEmitter := mkSoundEmitter {
  em_id : string;
  em_name : string;
  em_x : R;
  em_z : R;
  em_y : R;
  em_frequency : R;
  em_gain : R;
  em_waveform : OscillatorType;
  em_color : string;
  em_moving : bool;
  em_vx : R;
  em_vz : R
}.

Definition WORLD_RADIUS_M : R := 16.
Definition PLAYER_RADIUS_M : R := 0.45.
Definition EMITTER_RADIUS_M : R := 0.35.
Definition CANVAS_SIZE : R := 840.
Definition MOVE_SPEED_MPS : R := 2.75.
Definition TURN_SPEED_DEG_PER_SEC : R := 95.
Definition SOUND_SPEED_MPS : R := 343.

Definition WAVEFORMS : list OscillatorType := [Sine; Triangle; Square; Sawtooth].

Definition INITIAL_LISTENER : ListenerPose := mkListenerPose 0 0 0.

Definition INITIAL_ZONES : list CollisionZone :=
  [ mkCollisionZone "zone-1" "Concrete Pillar" (-4.8) (-1.5) 1.6;
    mkCollisionZone "zone-2" "Kiosk" 5 4.5 1.9;
    mkCollisionZone "zone-3" "Bench Cluster" 3.4 (-6.8) 1.35 ].

Definition INITIAL_WALLS : list Wall :=
  [ mkWall "wall-1" (-7.2) 2.4 4.6 0.8;
    mkWall "wall-2" 1.8 (-2.8) 0.8 5.6;
    mkWall "wall-3" 6.7 (-0.5) 0.8 4.2 ].

Definition INITIAL_EMITTERS : list SoundEmitter :=
  [ mkSoundEmitter "emitter-1" "Drone A" (-6) 5 0 470 0.16 Triangle "#0f8c7c" true 0.9 (-0.55);
    mkSoundEmitter "emitter-2" "Beacon B" 4.8 (-5.2) 0.3 690 0.14 Sine "#df7c20" false 0 0;
    mkSoundEmitter "emitter-3" "Drone C" 7.2 3.4 (-0.25) 920 0.12 Square "#4670e7" true (-0.75) 0.45 ].

(** ** Collision geometry *)

Module Collision.

(** The rectangle test shared by [collidesAt] (with [radius] margin) and
    [lineIntersectsWall] (margin 0):
    [x >= left && x <= right && z >= top && z <= bottom]. *)
Definition insideRect (x z left right top bottom : R) : bool :=
  bool_decide (x >= left) && bool_decide (x <= right)
  && bool_decide (z >= top) && bool_decide (z <= bottom).

Definition zoneBlocks (x z radius : R) (zone : CollisionZone) : bool :=
  bool_decide (hypot (x - zone_x zone) (z - zone_z zone) <= zone_radius zone + radius).

Definition wallBlocks (x z radius : R) (wall : Wall) : bool :=
  let left := wall_x wall - wall_width wall / 2 - radius in
  let right := wall_x wall + wall_width wall / 2 + radius in
  let top := wall_z wall - wall_height wall / 2 - radius in
  let bottom := wall_z wall + wall_height wall / 2 + radius in
  insideRect x z left right top bottom.

(** [for (const o of os) if (hit o) return true;] falling through to
    [rest] after the loop. *)
Fixpoint firstHit {A : Type} (hit : A -> bool) (os : list A) (rest : bool) : bool :=
  match os with
  | [] => rest
  | o :: os' => if hit o then true else firstHit hit os' rest
  end.

Definition collidesAt (collisionZones : list CollisionZone) (walls : list Wall)
    (x z radius : R) : bool :=
  if bool_decide (hypot x z + radius > WORLD_RADIUS_M) then true
  else firstHit (zoneBlocks x z radius) collisionZones
         (firstHit (wallBlocks x z radius) walls false).

Definition circleLineIntersection (ax az bx bz cx cz radius : R) : bool :=
  let abx := bx - ax in
  let abz := bz - az in
  let acx := cx - ax in
  let acz := cz - az in
  let abLenSq := abx * abx + abz * abz in
  if bool_decide (abLenSq < 1e-6) then
    bool_decide (hypot (cx - ax) (cz - az) <= radius)
  else
    let projection := clamp ((acx * abx + acz * abz) / abLenSq) 0 1 in
    let closestX := ax + abx * projection in
    let closestZ := az + abz * projection in
    bool_decide (hypot (cx - closestX) (cz - closestZ) <= radius).

Definition steps : nat := 18.

(** The sampling loop of [lineIntersectsWall]: [i] is the loop counter and
    [todo] the number of iterations left, so the loop [i = 0 .. steps]
    is [sampleLoop .. 0 (S steps)]. *)
Fixpoint sampleLoop (ax az bx bz left right top bottom : R) (i todo : nat) : bool :=
  match todo with
  | O => false
  | S todo' =>
      let t := INR i / INR steps in
      let x := ax + (bx - ax) * t in
      let z := az + (bz - az) * t in
      if insideRect x z left right top bottom then true
      else sampleLoop ax az bx bz left right top bottom (S i) todo'
  end.

Definition lineIntersectsWall (ax az bx bz : R) (wall : Wall) : bool :=
  let left := wall_x wall - wall_width wall / 2 in
  let right := wall_x wall + wall_width wall / 2 in
  let top := wall_z wall - wall_height wall / 2 in
  let bottom := wall_z wall + wall_height wall / 2 in
  sampleLoop ax az bx bz left right top bottom 0 (S steps).

End Collision.
Export Collision.

(** ** Motion integration: the body of [tick] *)

Module Motion.

(** Movement intent sampled from the held keys. *)
Record Intent := mkIntent {
  forward : Z;
  strafe : Z;
  turn : Z
}.

Definition has (keys : gset string) (k : string) : bool := bool_decide (k ∈ keys).

Definition axis (plus minus : bool) : Z :=
  ((if plus then 1 else 0) - (if minus then 1 else 0))%Z.

Definition readIntent (keys : gset string) : Intent :=
  {| forward := axis (has keys "w") (has keys "s");
     strafe := axis (has keys "d") (has keys "a");
     turn := axis (has keys "e" || has keys "arrowright")
                  (has keys "q" || has keys "arrowleft") |}.

Definition isIdle (i : Intent) : bool :=
  negb (bool_decide (forward i ≠ 0%Z) || bool_decide (strafe i ≠ 0%Z)
        || bool_decide (turn i ≠ 0%Z)).

Definition tickDelta (now previous : R) : R := Rmin ((now - previous) / 1000) 0.04.

Definition nextHeading (i : Intent) (delta : R) (current : ListenerPose) : R :=
  wrapDegrees (pose_headingDeg current + IZR (turn i) * TURN_SPEED_DEG_PER_SEC * delta).

Definition desiredX (i : Intent) (delta : R) (current : ListenerPose) : R :=
  let rad := toRadians (nextHeading i delta current) in
  let fx := sin rad in
  let rx := cos rad in
  let step := MOVE_SPEED_MPS * delta in
  pose_x current + (IZR (forward i) * fx + IZR (strafe i) * rx) * step.

Definition desiredZ (i : Intent) (delta : R) (current : ListenerPose) : R :=
  let rad := toRadians (nextHeading i delta current) in
  let fz := - cos rad in
  let rz := sin rad in
  let step := MOVE_SPEED_MPS * delta in
  pose_z current + (IZR (forward i) * fz + IZR (strafe i) * rz) * step.

(** The updater passed to [setListener]; [collides] is the [collidesAt]
    closure over the current zones and walls. *)
Definition moveListener (collides : R -> R -> R -> bool) (i : Intent) (delta : R)
    (current : ListenerPose) : ListenerPose :=
  let heading := nextHeading i delta current in
  let nextX := desiredX i delta current in
  let nextZ := desiredZ i delta current in
  if collides nextX nextZ PLAYER_RADIUS_M then
    if negb (collides nextX (pose_z current) PLAYER_RADIUS_M) then
      mkListenerPose nextX (pose_z current) heading
    else if negb (collides (pose_x current) nextZ PLAYER_RADIUS_M) then
      mkListenerPose (pose_x current) nextZ heading
    else
      mkListenerPose (pose_x current) (pose_z current) heading
  else mkListenerPose nextX nextZ heading.

(** [{ ...emitter, x: nx, z: nz, vx, vz }] *)
Definition withMotion (emitter : SoundEmitter) (nx nz vx vz : R) : SoundEmitter :=
  {| em_id := em_id emitter; em_name := em_name emitter;
     em_x := nx; em_z := nz; em_y := em_y emitter;
     em_frequency := em_frequency emitter; em_gain := em_gain emitter;
     em_waveform := em_waveform emitter; em_color := em_color emitter;
     em_moving := em_moving emitter; em_vx := vx; em_vz := vz |}.

(** The callback mapped over the emitters. *)
Definition moveEmitter (collides : R -> R -> R -> bool) (delta : R)
    (emitter : SoundEmitter) : SoundEmitter :=
  if negb (em_moving emitter) then emitter
  else
    let vx := em_vx emitter in
    let vz := em_vz emitter in
    let nx := em_x emitter + vx * delta in
    let nz := em_z emitter + vz * delta in
    if collides nx nz EMITTER_RADIUS_M then
      let collidesX := collides nx (em_z emitter) EMITTER_RADIUS_M in
      let collidesZ := collides (em_x emitter) nz EMITTER_RADIUS_M in
      let vx1 := if collidesX then - vx else vx in
      let nx1 := if collidesX then em_x emitter + vx1 * delta else nx in
      let vz1 := if collidesZ then - vz else vz in
      let nz1 := if collidesZ then em_z emitter + vz1 * delta else nz in
      if collides nx1 nz1 EMITTER_RADIUS_M then
        let vx2 := - vx1 in
        let vz2 := - vz1 in
        withMotion emitter (em_x emitter + vx2 * delta) (em_z emitter + vz2 * delta) vx2 vz2
      else withMotion emitter nx1 nz1 vx1 vz1
    else withMotion emitter nx nz vx vz.

(** The React state read and written by the animation-frame callback. *)
Record Sim := mkSim {
  listener : ListenerPose;
  emitters : list SoundEmitter;
  collisionZones : list CollisionZone;
  walls : list Wall;
  walkMode : bool;
  movingEnabled : bool;
  keyState : gset string;
  previous : R
}.

Definition tickListener (s : Sim) (delta : R) : ListenerPose :=
  if walkMode s then
    let i := readIntent (keyState s) in
    if isIdle i then listener s
    else moveListener (collidesAt (collisionZones s) (walls s)) i delta (listener s)
  else listener s.

Definition tickEmitters (s : Sim) (delta : R) : list SoundEmitter :=
  if movingEnabled s then
    map (moveEmitter (collidesAt (collisionZones s) (walls s)) delta) (emitters s)
  else emitters s.

Definition tick (now : R) (s : Sim) : Sim :=
  let delta := tickDelta now (previous s) in
  {| listener := tickListener s delta;
     emitters := tickEmitters s delta;
     collisionZones := collisionZones s;
     walls := walls s;
     walkMode := walkMode s;
     movingEnabled := movingEnabled s;
     keyState := keyState s;
     previous := now |}.

End Motion.
Export Motion.


(** ** Acoustic parameters and audio-graph reconciliation *)

Module Audio.

(** The parameters last written to the four device nodes of one emitter. *)
Record EmitterAudioNode := mkEmitterAudioNode {
  oscillator_type : OscillatorType;
  oscillator_frequency : R;
  gain_gain : R;
  filter_frequency : R;
  filter_Q : R;
  panner_position : R * R * R
}.

Inductive AudioContext := Context.

Record GainStage := mkGainStage { stage_gain : R }.

(** Operations issued on the audio device. *)
Inductive DeviceOp :=
| OpCreate (id : string)
| OpDispose (id : string)
| OpRetarget (id : string).

Definition isRetarget (op : DeviceOp) : bool :=
  match op with OpRetarget _ => true | _ => false end.

(** The refs owned by the component. *)
Record AudioRefs := mkAudioRefs {
  audioContextRef : option AudioContext;
  masterGainRef : option GainStage;
  emitterNodesRef : gmap string EmitterAudioNode;
  deviceLog : list DeviceOp
}.

Inductive Outcome :=
| Returned (refs : AudioRefs)
| Thrown (message : string) (refs : AudioRefs).

Definition getAudioContext (refs : AudioRefs) : AudioRefs :=
  match audioContextRef refs with
  | Some _ => refs
  | None =>
      {| audioContextRef := Some Context;
         masterGainRef := Some (mkGainStage 0.82);
         emitterNodesRef := emitterNodesRef refs;
         deviceLog := deviceLog refs |}
  end.

(** [None] stands for the exception "Audio routing is not initialized." *)
Definition createEmitterNode (master : option GainStage) (emitter : SoundEmitter)
    : option EmitterAudioNode :=
  match master with
  | None => None
  | Some _ =>
      Some {| oscillator_type := em_waveform emitter;
              oscillator_frequency := em_frequency emitter;
              gain_gain := em_gain emitter;
              filter_frequency := 6200;
              filter_Q := 0.6;
              panner_position := (em_x emitter, em_y emitter, em_z emitter) |}
  end.

(** The Doppler step. *)
Definition towardListener (listener : ListenerPose) (emitter : SoundEmitter) : R :=
  let dx := pose_x listener - em_x emitter in
  let dz := pose_z listener - em_z emitter in
  let distance := Rmax 0.001 (hypot dx dz) in
  (em_vx emitter * dx + em_vz emitter * dz) / distance.

Definition observedFreq (listener : ListenerPose) (emitter : SoundEmitter) : R :=
  clamp
    (em_frequency emitter * (SOUND_SPEED_MPS / (SOUND_SPEED_MPS - towardListener listener emitter)))
    (em_frequency emitter * 0.6)
    (em_frequency emitter * 1.8).

(** The occlusion step.  Each segment test that is evaluated is recorded, so
    that the order of the tests and the early exits can be stated. *)
Inductive Probe :=
| ProbeZone (id : string)
| ProbeWall (id : string).

(** [for (const o of os) if (hit o) { occluded = true; break; }] *)
Fixpoint scan {A : Type} (hit : A -> bool) (tag : A -> Probe) (os : list A)
    : bool * list Probe :=
  match os with
  | [] => (false, [])
  | o :: os' =>
      if hit o then (true, [tag o])
      else let '(occluded, probes) := scan hit tag os' in (occluded, tag o :: probes)
  end.

Definition zoneHit (listener : ListenerPose) (emitter : SoundEmitter) (zone : CollisionZone) : bool :=
  circleLineIntersection (pose_x listener) (pose_z listener) (em_x emitter) (em_z emitter)
    (zone_x zone) (zone_z zone) (zone_radius zone).

Definition wallHit (listener : ListenerPose) (emitter : SoundEmitter) (wall : Wall) : bool :=
  lineIntersectsWall (pose_x listener) (pose_z listener) (em_x emitter) (em_z emitter) wall.

Definition occlusionScan (listener : ListenerPose) (emitter : SoundEmitter)
    (collisionZones : list CollisionZone) (walls : list Wall) : bool * list Probe :=
  let '(occluded, probes) :=
    scan (zoneHit listener emitter) (fun zone => ProbeZone (zone_id zone)) collisionZones in
  if negb occluded then
    let '(occluded', probes') :=
      scan (wallHit listener emitter) (fun wall => ProbeWall (wall_id wall)) walls in
    (occluded', probes ++ probes')
  else (occluded, probes).

Definition occlusion (listener : ListenerPose) (emitter : SoundEmitter)
    (collisionZones : list CollisionZone) (walls : list Wall) : bool :=
  fst (occlusionScan listener emitter collisionZones walls).

(** The writes to an existing unit. *)
Definition retarget (listener : ListenerPose) (collisionZones : list CollisionZone)
    (walls : list Wall) (emitter : SoundEmitter) (existing : EmitterAudioNode)
    : EmitterAudioNode :=
  let observed := observedFreq listener emitter in
  let occluded := occlusion listener emitter collisionZones walls in
  {| oscillator_type := em_waveform emitter;
     oscillator_frequency := observed;
     gain_gain := if occluded then em_gain emitter * 0.72 else em_gain emitter;
     filter_frequency := if occluded then 1500 else 7600;
     filter_Q := filter_Q existing;
     panner_position := (em_x emitter, em_y emitter, em_z emitter) |}.

Definition withNodes (refs : AudioRefs) (nodes : gmap string EmitterAudioNode)
    (op : DeviceOp) : AudioRefs :=
  {| audioContextRef := audioContextRef refs;
     masterGainRef := masterGainRef refs;
     emitterNodesRef := nodes;
     deviceLog := deviceLog refs ++ [op] |}.

(** First loop: dispose the units whose id is not live.  [entries] are the
    entries of the map when the loop starts; an entry is deleted only while
    it is the current one. *)
Fixpoint disposeStale (liveIds : gset string) (entries : list (string * EmitterAudioNode))
    (refs : AudioRefs) : AudioRefs :=
  match entries with
  | [] => refs
  | (id, node) :: rest =>
      if bool_decide (id ∈ liveIds) then disposeStale liveIds rest refs
      else disposeStale liveIds rest
             (withNodes refs (delete id (emitterNodesRef refs)) (OpDispose id))
  end.

(** Second loop: create the missing units, retarget the existing ones. *)
Fixpoint syncEmitters (listener : ListenerPose) (collisionZones : list CollisionZone)
    (walls : list Wall) (emitters : list SoundEmitter) (refs : AudioRefs) : Outcome :=
  match emitters with
  | [] => Returned refs
  | emitter :: rest =>
      match emitterNodesRef refs !! em_id emitter with
      | None =>
          match createEmitterNode (masterGainRef refs) emitter with
          | None => Thrown "Audio routing is not initialized." refs
          | Some node =>
              syncEmitters listener collisionZones walls rest
                (withNodes refs (<[em_id emitter := node]> (emitterNodesRef refs))
                   (OpCreate (em_id emitter)))
          end
      | Some existing =>
          syncEmitters listener collisionZones walls rest
            (withNodes refs
               (<[em_id emitter := retarget listener collisionZones walls emitter existing]>
                  (emitterNodesRef refs))
               (OpRetarget (em_id emitter)))
      end
  end.

Definition reconnectAudioEmitters (audioRunning : bool) (listener : ListenerPose)
    (emitters : list SoundEmitter) (collisionZones : list CollisionZone) (walls : list Wall)
    (refs : AudioRefs) : Outcome :=
  match audioContextRef refs with
  | None => Returned refs
  | Some context =>
      if negb audioRunning then Returned refs
      else
        let liveIds : gset string := list_to_set (map em_id emitters) in
        let refs' := disposeStale liveIds (map_to_list (emitterNodesRef refs)) refs in
        syncEmitters listener collisionZones walls emitters refs'
  end.

End Audio.
Export Audio.


(** ** Entity commands and pointer handlers *)

Module Commands.

Definition canvasToPoint (x y canvasSize : R) : R * R :=
  let radiusPx := canvasSize * 0.43 in
  let center := canvasSize / 2 in
  (clamp (((x - center) / radiusPx) * WORLD_RADIUS_M) (- WORLD_RADIUS_M) WORLD_RADIUS_M,
   clamp (((y - center) / radiusPx) * WORLD_RADIUS_M) (- WORLD_RADIUS_M) WORLD_RADIUS_M).

(** [randomColor()], for the draw [u]. *)
Definition randomColor (u : R) : string :=
  let hue := round (randomBetween u 12 210) in
  "hsl(" +:+ pretty hue +:+ " 76% 52%)".

(** [addEmitter(x, z)].  [counter] is [emitterCounterRef.current]; [rnd k] is
    the value of the [k]-th call of [Math.random()] made by the operation.
    The result is the new emitter list and the incremented counter.
    [Number(v.toFixed(2))] is rounding to two decimals, [round (v * 100) / 100];
    an index outside [WAVEFORMS] cannot arise for draws in [0, 1). *)
Definition addEmitter (rnd : nat -> R) (counter : nat) (x z : R)
    (prev : list SoundEmitter) : list SoundEmitter * nat :=
  let id := "emitter-" +:+ pretty counter in
  let newEmitter :=
    {| em_id := id;
       em_name := "Emitter " +:+ pretty counter;
       em_x := x;
       em_z := z;
       em_y := randomBetween (rnd 0%nat) (-0.4) 0.4;
       em_frequency := IZR (round (randomBetween (rnd 1%nat) 360 1200));
       em_gain := IZR (round (randomBetween (rnd 2%nat) 0.08 0.22 * 100)) / 100;
       em_waveform := default Sine (WAVEFORMS !! Z.to_nat (floor (rnd 3%nat * INR (length WAVEFORMS))));
       em_color := randomColor (rnd 4%nat);
       em_moving := bool_decide (rnd 5%nat > 0.5);
       em_vx := randomBetween (rnd 6%nat) (-1) 1;
       em_vz := randomBetween (rnd 7%nat) (-1) 1 |} in
  (prev ++ [newEmitter], S counter).

(** [Partial<SoundEmitter>], [Partial<CollisionZone>], [Partial<Wall>]:
    a field is [None] when the patch does not mention it. *)
Record EmitterPatch := mkEmitterPatch {
  pe_id : option string;
  pe_name : option string;
  pe_x : option R;
  pe_z : option R;
  pe_y : option R;
  pe_frequency : option R;
  pe_gain : option R;
  pe_waveform : option OscillatorType;
  pe_color : option string;
  pe_moving : option bool;
  pe_vx : option R;
  pe_vz : option R
}.

Record ZonePatch := mkZonePatch {
  pz_id : option string;
  pz_label : option string;
  pz_x : option R;
  pz_z : option R;
  pz_radius : option R
}.

Record WallPatch := mkWallPatch {
  pw_id : option string;
  pw_x : option R;
  pw_z : option R;
  pw_width : option R;
  pw_height : option R
}.

Definition noEmitterPatch : EmitterPatch :=
  mkEmitterPatch None None None None None None None None None None None None.
Definition noZonePatch : ZonePatch := mkZonePatch None None None None None.
Definition noWallPatch : WallPatch := mkWallPatch None None None None None.

(** [{ ...emitter, ...patch }] *)
Definition spreadEmitter (emitter : SoundEmitter) (patch : EmitterPatch) : SoundEmitter :=
  {| em_id := default (em_id emitter) (pe_id patch);
     em_name := default (em_name emitter) (pe_name patch);
     em_x := default (em_x emitter) (pe_x patch);
     em_z := default (em_z emitter) (pe_z patch);
     em_y := default (em_y emitter) (pe_y patch);
     em_frequency := default (em_frequency emitter) (pe_frequency patch);
     em_gain := default (em_gain emitter) (pe_gain patch);
     em_waveform := default (em_waveform emitter) (pe_waveform patch);
     em_color := default (em_color emitter) (pe_color patch);
     em_moving := default (em_moving emitter) (pe_moving patch);
     em_vx := default (em_vx emitter) (pe_vx patch);
     em_vz := default (em_vz emitter) (pe_vz patch) |}.

Definition spreadZone (zone : CollisionZone) (patch : ZonePatch) : CollisionZone :=
  {| zone_id := default (zone_id zone) (pz_id patch);
     zone_label := default (zone_label zone) (pz_label patch);
     zone_x := default (zone_x zone) (pz_x patch);
     zone_z := default (zone_z zone) (pz_z patch);
     zone_radius := default (zone_radius zone) (pz_radius patch) |}.

Definition spreadWall (wall : Wall) (patch : WallPatch) : Wall :=
  {| wall_id := default (wall_id wall) (pw_id patch);
     wall_x := default (wall_x wall) (pw_x patch);
     wall_z := default (wall_z wall) (pw_z patch);
     wall_width := default (wall_width wall) (pw_width patch);
     wall_height := default (wall_height wall) (pw_height patch) |}.

Definition updateEmitter (id : string) (patch : EmitterPatch) (prev : list SoundEmitter)
    : list SoundEmitter :=
  map (fun emitter => if bool_decide (em_id emitter = id) then spreadEmitter emitter patch
                      else emitter) prev.

Definition updateZone (id : string) (patch : ZonePatch) (prev : list CollisionZone)
    : list CollisionZone :=
  map (fun zone => if bool_decide (zone_id zone = id) then spreadZone zone patch else zone) prev.

Definition updateWall (id : string) (patch : WallPatch) (prev : list Wall) : list Wall :=
  map (fun wall => if bool_decide (wall_id wall = id) then spreadWall wall patch else wall) prev.

Definition removeEmitter (id : string) (prev : list SoundEmitter) : list SoundEmitter :=
  filter (fun emitter => em_id emitter ≠ id) prev.

(** The ranges declared by the editor sliders ([min], [max]) and, for
    positions, by the per-axis clamp of the drag handlers. *)
Definition ZONE_RADIUS_RANGE : R * R := (0.5, 3.5).
Definition WALL_WIDTH_RANGE : R * R := (0.5, 8).
Definition WALL_HEIGHT_RANGE : R * R := (0.5, 8).
Definition FREQUENCY_RANGE : R * R := (180, 1600).
Definition GAIN_RANGE : R * R := (0.02, 0.3).
Definition ELEVATION_RANGE : R * R := (-2, 2).
Definition POSITION_RANGE : R * R := (- WORLD_RADIUS_M, WORLD_RADIUS_M).

Definition within (range : R * R) (v : R) : Prop := fst range <= v <= snd range.

(** The slider handlers: [onChange] passes [Number(event.target.value)]. *)
Definition onZoneRadiusChange (id : string) (value : R) : list CollisionZone -> list CollisionZone :=
  updateZone id (mkZonePatch None None None None (Some value)).
Definition onWallWidthChange (id : string) (value : R) : list Wall -> list Wall :=
  updateWall id (mkWallPatch None None None (Some value) None).
Definition onWallHeightChange (id : string) (value : R) : list Wall -> list Wall :=
  updateWall id (mkWallPatch None None None None (Some value)).
Definition onFrequencyChange (id : string) (value : R) : list SoundEmitter -> list SoundEmitter :=
  updateEmitter id (mkEmitterPatch None None None None None (Some value) None None None None None None).
Definition onGainChange (id : string) (value : R) : list SoundEmitter -> list SoundEmitter :=
  updateEmitter id (mkEmitterPatch None None None None None None (Some value) None None None None None).
Definition onElevationChange (id : string) (value : R) : list SoundEmitter -> list SoundEmitter :=
  updateEmitter id (mkEmitterPatch None None None None (Some value) None None None None None None None).

Inductive DragTarget :=
| DragEmitter (id : string)
| DragZone (id : string) (offsetX offsetZ : R)
| DragWall (id : string) (offsetX offsetZ : R).

(** The part of the component state touched by the pointer handlers. *)
Record Scene := mkScene {
  sc_emitters : list SoundEmitter;
  sc_zones : list CollisionZone;
  sc_walls : list Wall;
  sc_emitterCounter : nat
}.

(** [onCanvasPointerMove], for the pointer at canvas coordinates
    [(localX, localY)]. *)
Definition onCanvasPointerMove (dragTarget : option DragTarget) (localX localY : R)
    (s : Scene) : Scene :=
  match dragTarget with
  | None => s
  | Some target =>
      let point := canvasToPoint localX localY CANVAS_SIZE in
      match target with
      | DragEmitter id =>
          {| sc_emitters :=
               updateEmitter id
                 (mkEmitterPatch None None (Some (fst point)) (Some (snd point))
                    None None None None None None None None) (sc_emitters s);
             sc_zones := sc_zones s; sc_walls := sc_walls s;
             sc_emitterCounter := sc_emitterCounter s |}
      | DragZone id offsetX offsetZ =>
          {| sc_emitters := sc_emitters s;
             sc_zones :=
               updateZone id
                 (mkZonePatch None None
                    (Some (clamp (fst point - offsetX) (- WORLD_RADIUS_M) WORLD_RADIUS_M))
                    (Some (clamp (snd point - offsetZ) (- WORLD_RADIUS_M) WORLD_RADIUS_M))
                    None) (sc_zones s);
             sc_walls := sc_walls s;
             sc_emitterCounter := sc_emitterCounter s |}
      | DragWall id offsetX offsetZ =>
          {| sc_emitters := sc_emitters s;
             sc_zones := sc_zones s;
             sc_walls :=
               updateWall id
                 (mkWallPatch None
                    (Some (clamp (fst point - offsetX) (- WORLD_RADIUS_M) WORLD_RADIUS_M))
                    (Some (clamp (snd point - offsetZ) (- WORLD_RADIUS_M) WORLD_RADIUS_M))
                    None None) (sc_walls s);
             sc_emitterCounter := sc_emitterCounter s |}
      end
  end.

(** [onCanvasDoubleClick], for the pointer at canvas coordinates
    [(localX, localY)]. *)
Definition onCanvasDoubleClick (rnd : nat -> R) (localX localY : R) (s : Scene) : Scene :=
  let point := canvasToPoint localX localY CANVAS_SIZE in
  if negb (collidesAt (sc_zones s) (sc_walls s) (fst point) (snd point) EMITTER_RADIUS_M) then
    let '(emitters', counter') :=
      addEmitter rnd (sc_emitterCounter s) (fst point) (snd point) (sc_emitters s) in
    {| sc_emitters := emitters'; sc_zones := sc_zones s; sc_walls := sc_walls s;
       sc_emitterCounter := counter' |}
  else s.

(** The [onClick] handler of the "Add Emitter" button: the two offsets are
    drawn before [addEmitter] makes its own draws. *)
Definition onAddEmitterClick (rnd : nat -> R) (listener : ListenerPose) (s : Scene) : Scene :=
  let x := pose_x listener + randomBetween (rnd 0%nat) (-2) 2 in
  let z := pose_z listener + randomBetween (rnd 1%nat) (-2) 2 in
  let '(emitters', counter') :=
    addEmitter (fun k => rnd (2 + k)%nat) (sc_emitterCounter s) x z (sc_emitters s) in
  {| sc_emitters := emitters'; sc_zones := sc_zones s; sc_walls := sc_walls s;
     sc_emitterCounter := counter' |}.

(** The canvas coordinates at which [pointToCanvas] draws a world point. *)
Definition pointToCanvas (x z canvasSize : R) : R * R :=
  let radiusPx := canvasSize * 0.43 in
  let center := canvasSize / 2 in
  (center + (x / WORLD_RADIUS_M) * radiusPx, center + (z / WORLD_RADIUS_M) * radiusPx).

End Commands.
Export Commands.


(** ** Specification predicates

    The geometric notions used by the statements below, written from their
    usual definitions rather than from the code. *)

Module Geometry.

(** The point lies outside the zone's disc grown by [r]. *)
Definition outsideZone (x z r : R) (zone : CollisionZone) : Prop :=
  hypot (x - zone_x zone) (z - zone_z zone) > zone_radius zone + r.

(** The point lies in the wall's rectangle grown by [r] on all four sides. *)
Definition inWall (x z r : R) (wall : Wall) : Prop :=
  wall_x wall - wall_width wall / 2 - r <= x <= wall_x wall + wall_width wall / 2 + r
  /\ wall_z wall - wall_height wall / 2 - r <= z <= wall_z wall + wall_height wall / 2 + r.






End Geometry.
Export Geometry.

(** ** Concrete configurations used as examples *)

Module Scenarios.

(** Scenario A: the seed world, the listener at the origin with heading 0,
    only the forward key held. *)
Definition scenarioA : Sim :=
  mkSim INITIAL_LISTENER INITIAL_EMITTERS INITIAL_ZONES INITIAL_WALLS true true {["w"]} 0.

Definition forwardOnly : Intent := mkIntent 1 0 0.

(** A moving emitter in a narrow gap between two walls. *)
Definition gapWalls : list Wall :=
  [ mkWall "wall-1" 0.87 0 1 4; mkWall "wall-2" (-0.87) 0 1 4 ].

Definition gapEmitter : SoundEmitter :=
  mkSoundEmitter "emitter-1" "Drone A" 0 0 0 470 0.16 Triangle "#0f8c7c" true 0.9 (-0.55).

(** A moving emitter next to a single wall. *)
Definition sideWalls : list Wall := [ mkWall "wall-1" 0.87 0 1 4 ].



Definition listenerAt (x z : R) : ListenerPose := mkListenerPose x z 0.

Definition emitterAt (x z : R) : SoundEmitter :=
  mkSoundEmitter "emitter-1" "Drone A" x z 0 470 0.16 Triangle "#0f8c7c" false 0 0.

(** An emitter closing on the listener at exactly the propagation speed. *)
Definition sonicEmitter : SoundEmitter :=
  mkSoundEmitter "emitter-1" "Drone A" (-1) 0 0 470 0.16 Triangle "#0f8c7c" true 343 0.

(** The audio refs before and after the first [getAudioContext()]. *)
Definition idleRefs : AudioRefs := mkAudioRefs None None ∅ [].
Definition startedRefs : AudioRefs := getAudioContext idleRefs.

(** The seed scene, and two sequences of random draws. *)
Definition seedScene : Scene := mkScene INITIAL_EMITTERS INITIAL_ZONES INITIAL_WALLS 4.
Definition halfDraws : nat -> R := fun _ => 0.5.
Definition buttonDraws : nat -> R := fun k => match k with O => 0.75 | _ => 0.5 end.

(** Started audio refs that hold one unit, for the first seed emitter. *)
Definition oneUnitRefs : AudioRefs :=
  mkAudioRefs (Some Context) (Some (mkGainStage 0.82))
    {[ "emitter-1" := mkEmitterAudioNode Triangle 470 0.16 6200 0.6 (-6, 0, 5) ]} [].

(** Audio refs with a context but no master gain stage. *)
Definition unwiredRefs : AudioRefs := mkAudioRefs (Some Context) None ∅ [].

End Scenarios.
Export Scenarios.

(** ** Obstacle commands, selection, pointer and audio controls *)

Module Handlers.

(** [addZone()] and [addWall()], with [rnd k] the [k]-th draw of
    [Math.random()] and [counter] the value of the id counter ref. *)
Definition addZone (rnd : nat -> R) (counter : nat) (prev : list CollisionZone)
    : list CollisionZone * nat :=
  let id := "zone-" +:+ pretty counter in
  let zone :=
    {| zone_id := id;
       zone_label := "Obstacle " +:+ pretty counter;
       zone_x := randomBetween (rnd 0%nat) (-8) 8;
       zone_z := randomBetween (rnd 1%nat) (-8) 8;
       zone_radius := randomBetween (rnd 2%nat) 1 2.2 |} in
  (prev ++ [zone], S counter).

Definition addWall (rnd : nat -> R) (counter : nat) (prev : list Wall) : list Wall * nat :=
  let id := "wall-" +:+ pretty counter in
  let wall :=
    {| wall_id := id;
       wall_x := randomBetween (rnd 0%nat) (-8) 8;
       wall_z := randomBetween (rnd 1%nat) (-8) 8;
       wall_width := randomBetween (rnd 2%nat) 1.2 4.8;
       wall_height := randomBetween (rnd 3%nat) 0.8 3.8 |} in
  (prev ++ [wall], S counter).

Inductive SelectedObstacle :=
| SelectedZone (id : string)
| SelectedWall (id : string).

(** [removeSelectedObstacle()]: the new zones, walls and selection. *)
Definition removeSelectedObstacle (selectedObstacle : option SelectedObstacle)
    (collisionZones : list CollisionZone) (walls : list Wall)
    : list CollisionZone * list Wall * option SelectedObstacle :=
  match selectedObstacle with
  | None => (collisionZones, walls, None)
  | Some (SelectedZone id) =>
      (filter (fun zone => zone_id zone ≠ id) collisionZones, walls, None)
  | Some (SelectedWall id) =>
      (collisionZones, filter (fun wall => wall_id wall ≠ id) walls, None)
  end.

(** A string is truthy when it is not empty. *)
Definition truthy (id : option string) : bool :=
  match id with
  | None => false
  | Some s => negb (bool_decide (s = ""))
  end.

(** [emitters.some((emitter) => emitter.id === id)] *)
Definition someEmitter (id : string) (emitters : list SoundEmitter) : bool :=
  existsb (fun emitter => bool_decide (em_id emitter = id)) emitters.

(** The effect that repairs [selectedEmitterId] after the emitters or the
    selection change: the selection it leaves. *)
Definition repairSelection (emitters : list SoundEmitter) (selectedEmitterId : option string)
    : option string :=
  match emitters with
  | [] => None
  | first :: _ =>
      if negb (truthy selectedEmitterId)
         || negb (match selectedEmitterId with
                  | Some id => someEmitter id emitters
                  | None => false
                  end)
      then Some (em_id first)
      else selectedEmitterId
  end.

(** [emitters.find((emitter) => emitter.id === selectedEmitterId) ?? null] *)
Definition selectedEmitter (emitters : list SoundEmitter) (selectedEmitterId : option string)
    : option SoundEmitter :=
  match selectedEmitterId with
  | None => None
  | Some id => find (fun emitter => bool_decide (em_id emitter = id)) emitters
  end.

(** The selection part of [removeEmitter(id)]. *)
Definition deselectRemoved (id : string) (current : option string) : option string :=
  match current with
  | Some c => if bool_decide (c = id) then None else current
  | None => None
  end.

(** What the pointer handlers read and write besides the scene. *)
Record PointerState := mkPointerState {
  dragTargetRef : option DragTarget;
  selectedEmitterId : option string;
  selectedObstacle : option SelectedObstacle
}.

(** The first loop of [onCanvasPointerDown]: the emitter drawn nearest to
    the pointer among those drawn less than 22 pixels away.
    [nearestEmitterDistance] is [None] for [Number.POSITIVE_INFINITY]. *)
Fixpoint nearestEmitterLoop (pointerX pointerY : R) (emitters : list SoundEmitter)
    (nearestEmitterId : option string) (nearestEmitterDistance : option R)
    : option string * option R :=
  match emitters with
  | [] => (nearestEmitterId, nearestEmitterDistance)
  | emitter :: rest =>
      let point := pointToCanvas (em_x emitter) (em_z emitter) CANVAS_SIZE in
      let distance := hypot (pointerX - fst point) (pointerY - snd point) in
      if bool_decide (distance < 22)
         && match nearestEmitterDistance with
            | None => true
            | Some nearest => bool_decide (distance < nearest)
            end
      then nearestEmitterLoop pointerX pointerY rest (Some (em_id emitter)) (Some distance)
      else nearestEmitterLoop pointerX pointerY rest nearestEmitterId nearestEmitterDistance
  end.

(** The second and third loops: the first zone, else the first wall, that
    contains the pointer's world position. *)
Fixpoint grabZone (wx wz : R) (zones : list CollisionZone) : option CollisionZone :=
  match zones with
  | [] => None
  | zone :: rest =>
      if bool_decide (hypot (wx - zone_x zone) (wz - zone_z zone) <= zone_radius zone)
      then Some zone else grabZone wx wz rest
  end.

Fixpoint grabWall (wx wz : R) (walls : list Wall) : option Wall :=
  match walls with
  | [] => None
  | wall :: rest =>
      let left := wall_x wall - wall_width wall / 2 in
      let right := wall_x wall + wall_width wall / 2 in
      let top := wall_z wall - wall_height wall / 2 in
      let bottom := wall_z wall + wall_height wall / 2 in
      if insideRect wx wz left right top bottom then Some wall else grabWall wx wz rest
  end.

(** [onCanvasPointerDown], for the pointer at canvas coordinates
    [(pointerX, pointerY)]. *)
Definition onCanvasPointerDown (pointerX pointerY : R) (s : Scene) (p : PointerState)
    : PointerState :=
  let pointerWorld := canvasToPoint pointerX pointerY CANVAS_SIZE in
  let nearestEmitterId :=
    fst (nearestEmitterLoop pointerX pointerY (sc_emitters s) None None) in
  if truthy nearestEmitterId then
    {| dragTargetRef := option_map DragEmitter nearestEmitterId;
       selectedEmitterId := nearestEmitterId;
       selectedObstacle := selectedObstacle p |}
  else
    match grabZone (fst pointerWorld) (snd pointerWorld) (sc_zones s) with
    | Some zone =>
        {| dragTargetRef :=
             Some (DragZone (zone_id zone) (fst pointerWorld - zone_x zone)
                     (snd pointerWorld - zone_z zone));
           selectedEmitterId := selectedEmitterId p;
           selectedObstacle := Some (SelectedZone (zone_id zone)) |}
    | None =>
        match grabWall (fst pointerWorld) (snd pointerWorld) (sc_walls s) with
        | Some wall =>
            {| dragTargetRef :=
                 Some (DragWall (wall_id wall) (fst pointerWorld - wall_x wall)
                         (snd pointerWorld - wall_z wall));
               selectedEmitterId := selectedEmitterId p;
               selectedObstacle := Some (SelectedWall (wall_id wall)) |}
        | None => p
        end
    end.

(** [onCanvasPointerUp] *)
Definition onCanvasPointerUp (p : PointerState) : PointerState :=
  {| dragTargetRef := None;
     selectedEmitterId := selectedEmitterId p;
     selectedObstacle := selectedObstacle p |}.

(** The capabilities of the device's listener node, and the pose last
    written to it. *)
Record ListenerNode := mkListenerNode {
  hasPositionParams : bool;
  hasOrientationParams : bool;
  hasSetPosition : bool;
  hasSetOrientation : bool;
  node_position : R * R * R;
  node_forward : R * R * R;
  node_up : R * R * R
}.

(** [setListenerAudioPose(context, pose)] *)
Definition setListenerAudioPose (listenerNode : ListenerNode) (pose : ListenerPose)
    : ListenerNode :=
  let heading := toRadians (pose_headingDeg pose) in
  let fx := sin heading in
  let fz := - cos heading in
  let position :=
    if hasPositionParams listenerNode || hasSetPosition listenerNode
    then (pose_x pose, 0, pose_z pose) else node_position listenerNode in
  let oriented := hasOrientationParams listenerNode || hasSetOrientation listenerNode in
  {| hasPositionParams := hasPositionParams listenerNode;
     hasOrientationParams := hasOrientationParams listenerNode;
     hasSetPosition := hasSetPosition listenerNode;
     hasSetOrientation := hasSetOrientation listenerNode;
     node_position := position;
     node_forward := if oriented then (fx, 0, fz) else node_forward listenerNode;
     node_up := if oriented then (0, 1, 0) else node_up listenerNode |}.

(** The audio controls. *)
Record AudioControl := mkAudioControl {
  ac_refs : AudioRefs;
  ac_audioRunning : bool;
  ac_status : string;
  ac_listenerNode : ListenerNode
}.

(** How [context.resume()] settles. *)
Inductive Resume :=
| Resumed
| RejectedWith (message : string)
| RejectedOther.

(** [getAudioContext()] in a browser where the audio constructor may be
    missing: [inl] is the thrown message. *)
Definition getAudioContextIn (audioCtor : bool) (refs : AudioRefs) : string + AudioRefs :=
  match audioContextRef refs with
  | Some _ => inr refs
  | None =>
      if audioCtor then inr (getAudioContext refs)
      else inl "Web Audio API is unavailable in this browser."
  end.

(** [startAudio()] *)
Definition startAudio (audioCtor : bool) (resume : Resume) (listener : ListenerPose)
    (c : AudioControl) : AudioControl :=
  match getAudioContextIn audioCtor (ac_refs c) with
  | inl message =>
      {| ac_refs := ac_refs c; ac_audioRunning := ac_audioRunning c;
         ac_status := message; ac_listenerNode := ac_listenerNode c |}
  | inr refs =>
      match resume with
      | Resumed =>
          {| ac_refs := refs; ac_audioRunning := true;
             ac_status := "Audio active. Use earbuds and keep volume low.";
             ac_listenerNode := setListenerAudioPose (ac_listenerNode c) listener |}
      | RejectedWith message =>
          {| ac_refs := refs; ac_audioRunning := ac_audioRunning c;
             ac_status := message; ac_listenerNode := ac_listenerNode c |}
      | RejectedOther =>
          {| ac_refs := refs; ac_audioRunning := ac_audioRunning c;
             ac_status := "Unable to start audio."; ac_listenerNode := ac_listenerNode c |}
      end
  end.

(** [stopAudio()], when [context.suspend()] resolves. *)
Definition stopAudio (c : AudioControl) : AudioControl :=
  match audioContextRef (ac_refs c) with
  | None =>
      {| ac_refs := ac_refs c; ac_audioRunning := false;
         ac_status := ac_status c; ac_listenerNode := ac_listenerNode c |}
  | Some _ =>
      {| ac_refs := ac_refs c; ac_audioRunning := false;
         ac_status := "Audio paused."; ac_listenerNode := ac_listenerNode c |}
  end.

(** The effect run when the audio is running or the world changed. *)
Definition reconcileEffect (listener : ListenerPose) (emitters : list SoundEmitter)
    (collisionZones : list CollisionZone) (walls : list Wall) (c : AudioControl) : Outcome :=
  if negb (ac_audioRunning c) then Returned (ac_refs c)
  else reconnectAudioEmitters (ac_audioRunning c) listener emitters collisionZones walls
         (ac_refs c).

(** The cleanup run when the component unmounts: every unit is disposed, the
    map is cleared, and the context, if any, is asked to close.  The boolean
    tells whether [close()] was called. *)
Definition unmount (refs : AudioRefs) : AudioRefs * bool :=
  ({| audioContextRef := audioContextRef refs;
      masterGainRef := masterGainRef refs;
      emitterNodesRef := ∅;
      deviceLog := deviceLog refs
                   ++ map (fun entry => OpDispose (fst entry))
                        (map_to_list (emitterNodesRef refs)) |},
   bool_decide (is_Some (audioContextRef refs))).

End Handlers.
Export Handlers.

(** ** Concrete control states used as examples *)

Module Fixtures.

(** A listener node with the modern parameter interface, and the audio
    controls before the first start. *)
Definition modernNode : ListenerNode :=
  mkListenerNode true true false false (0, 0, 0) (0, 0, -1) (0, 1, 0).
Definition idleControl : AudioControl :=
  mkAudioControl idleRefs false "Press Start Audio. Move with W/A/S/D and Q/E." modernNode.

(** The seed obstacles with every emitter removed, and the pointer state
    between two gestures. *)
Definition emptyStage : Scene := mkScene [] INITIAL_ZONES INITIAL_WALLS 4.
Definition idlePointer : PointerState := mkPointerState None None None.

End Fixtures.
Export Fixtures.

(** ** Further specification predicates *)

Module Invariants.

(** Every id of [ids] is [prefix] followed by the decimal form of a number
    below [counter]. *)
Definition numbered (prefix : string) (counter : nat) (ids : list string) : Prop :=
  forall id, In id ids -> exists k, (k < counter)%nat /\ id = prefix +:+ pretty k.

(** The distance, in canvas pixels, from the pointer to the place where an
    emitter is drawn. *)
Definition drawnDistance (pointerX pointerY : R) (emitter : SoundEmitter) : R :=
  hypot (pointerX - fst (pointToCanvas (em_x emitter) (em_z emitter) CANVAS_SIZE))
        (pointerY - snd (pointToCanvas (em_x emitter) (em_z emitter) CANVAS_SIZE)).

(** Every draw of the random source lies in [0, 1). *)
Definition unitDraws (rnd : nat -> R) : Prop := forall k, 0 <= rnd k < 1.

End Invariants.
Export Invariants.

(** ** Facts about the numeric helpers *)

Module NumFacts.

Lemma clamp_between (v lo hi : R) : lo <= hi -> lo <= clamp v lo hi <= hi.
Proof.
  intros Hle. unfold clamp.
  split.
  - apply Rmin_glb; [exact Hle | apply Rmax_l].
  - apply Rmin_l.
Qed.

Lemma clamp_id (v lo hi : R) : lo <= v <= hi -> clamp v lo hi = v.
Proof.
  intros [Hlo Hhi]. unfold clamp.
  rewrite (Rmax_right lo v Hlo). apply Rmin_right. exact Hhi.
Qed.

Lemma clamp_below (v lo hi : R) : lo <= hi -> v <= lo -> clamp v lo hi = lo.
Proof.
  intros Hle Hv. unfold clamp.
  rewrite (Rmax_left lo v Hv). apply Rmin_right. exact Hle.
Qed.

Lemma clamp_above (v lo hi : R) : lo <= hi -> hi <= v -> clamp v lo hi = hi.
Proof.
  intros Hle Hv. unfold clamp.
  rewrite (Rmax_right lo v) by lra. apply Rmin_left. exact Hv.
Qed.

Lemma hypot_nonneg (x z : R) : 0 <= hypot x z.
Proof. unfold hypot. apply sqrt_pos. Qed.

Lemma sum_squares_nonneg (x z : R) : 0 <= x * x + z * z.
Proof. nra. Qed.

Lemma hypot_sqr (x z : R) : hypot x z * hypot x z = x * x + z * z.
Proof. unfold hypot. apply sqrt_sqrt. apply sum_squares_nonneg. Qed.

Lemma hypot_le_iff (x z r : R) : 0 <= r -> hypot x z <= r <-> x * x + z * z <= r * r.
Proof.
  intros Hr. pose proof (hypot_nonneg x z) as Hh. pose proof (hypot_sqr x z) as Hs.
  split; intros H; nra.
Qed.

Lemma hypot_lt_iff (x z r : R) : 0 <= r -> hypot x z < r <-> x * x + z * z < r * r.
Proof.
  intros Hr. pose proof (hypot_nonneg x z) as Hh. pose proof (hypot_sqr x z) as Hs.
  split; intros H; nra.
Qed.

Lemma hypot_gt_iff (x z r : R) : 0 <= r -> hypot x z > r <-> x * x + z * z > r * r.
Proof.
  intros Hr. pose proof (hypot_lt_iff x z r Hr) as Hlt.
  pose proof (hypot_le_iff x z r Hr) as Hle.
  split; intros H.
  - destruct (Rle_dec (x * x + z * z) (r * r)) as [Hc | Hc]; [| lra].
    apply Hle in Hc. lra.
  - destruct (Rle_dec (hypot x z) r) as [Hc | Hc]; [| lra].
    apply Hle in Hc. lra.
Qed.

Lemma hypot_mono (x z x' z' : R) :
  x * x + z * z <= x' * x' + z' * z' -> hypot x z <= hypot x' z'.
Proof.
  intros H. unfold hypot. apply sqrt_le_1_alt. exact H.
Qed.

Lemma hypot_flip_l (x z : R) : hypot (- x) z = hypot x z.
Proof. unfold hypot. f_equal. ring. Qed.

Lemma hypot_flip_r (x z : R) : hypot x (- z) = hypot x z.
Proof. unfold hypot. f_equal. ring. Qed.

Lemma hypot_axis (x : R) : 0 <= x -> hypot x 0 = x.
Proof.
  intros Hx. unfold hypot. replace (x * x + 0 * 0) with (x * x) by ring.
  apply sqrt_square. exact Hx.
Qed.

Lemma trunc_0 : trunc 0 = 0%Z.
Proof.
  unfold trunc. rewrite bool_decide_eq_true_2 by lra.
  symmetry. apply Int_part_spec. simpl. lra.
Qed.

Lemma wrapDegrees_0 : wrapDegrees 0 = 0.
Proof.
  unfold wrapDegrees, rem. replace (0 / 360) with 0 by lra. rewrite trunc_0.
  rewrite bool_decide_eq_false_2; simpl; lra.
Qed.

End NumFacts.


(** ** Collision predicate *)

Module CollisionFacts.
Import NumFacts.

Lemma insideRect_true (x z left right top bottom : R) :
  insideRect x z left right top bottom = true <->
  (left <= x <= right /\ top <= z <= bottom).
Proof.
  unfold insideRect.
  rewrite !andb_true_iff, !bool_decide_eq_true.
  split; intros H; repeat split; lra.
Qed.

Lemma insideRect_false (x z left right top bottom : R) :
  insideRect x z left right top bottom = false <->
  ~ (left <= x <= right /\ top <= z <= bottom).
Proof.
  rewrite <- insideRect_true. destruct (insideRect x z left right top bottom); split; intros H.
  - discriminate.
  - exfalso. apply H. reflexivity.
  - intros Habs. discriminate.
  - reflexivity.
Qed.

Lemma firstHit_false {A : Type} (hit : A -> bool) (os : list A) (rest : bool) :
  firstHit hit os rest = false <-> Forall (fun o => hit o = false) os /\ rest = false.
Proof.
  induction os as [| o os IH]; simpl.
  - split; [intros H; split; [constructor | exact H] | intros [_ H]; exact H].
  - destruct (hit o) eqn:Ho.
    + split; [discriminate |]. intros [Hall _]. inversion Hall; congruence.
    + rewrite IH. split; intros [Hall Hrest]; split; auto.
      inversion Hall; assumption.
Qed.

Lemma firstHit_true {A : Type} (hit : A -> bool) (os : list A) (rest : bool) :
  firstHit hit os rest = true <-> Exists (fun o => hit o = true) os \/ rest = true.
Proof.
  induction os as [| o os IH]; simpl.
  - split; [intros H; right; exact H | intros [H | H]; [inversion H | exact H]].
  - destruct (hit o) eqn:Ho.
    + split; [intros _; left; constructor; exact Ho | reflexivity].
    + rewrite IH. split.
      * intros [H | H]; [left; apply Exists_cons_tl; exact H | right; exact H].
      * intros [H | H]; [| right; exact H].
        inversion H; subst; [congruence | left; assumption].
Qed.

Lemma zoneBlocks_false (x z r : R) (zone : CollisionZone) :
  zoneBlocks x z r zone = false <-> outsideZone x z r zone.
Proof.
  unfold zoneBlocks, outsideZone. rewrite bool_decide_eq_false. split; intros H; lra.
Qed.

Lemma wallBlocks_true (x z r : R) (wall : Wall) :
  wallBlocks x z r wall = true <-> inWall x z r wall.
Proof. unfold wallBlocks, inWall. cbv zeta. apply insideRect_true. Qed.

Lemma wallBlocks_false (x z r : R) (wall : Wall) :
  wallBlocks x z r wall = false <-> ~ inWall x z r wall.
Proof. unfold wallBlocks, inWall. cbv zeta. apply insideRect_false. Qed.

Lemma collidesAt_false_iff
    (collisionZones : list CollisionZone) (walls : list Wall) (x z r : R) :
  collidesAt collisionZones walls x z r = false <->
  hypot x z + r <= 16
  /\ Forall (outsideZone x z r) collisionZones
  /\ Forall (fun wall => ~ inWall x z r wall) walls.
Proof.
  unfold collidesAt, WORLD_RADIUS_M.
  destruct (bool_decide (hypot x z + r > 16)) eqn:Hworld.
  - apply bool_decide_eq_true in Hworld. split; [discriminate | intros [H _]; lra].
  - apply bool_decide_eq_false in Hworld.
    rewrite !firstHit_false.
    split.
    + intros (Hz & Hw & _). split; [lra | split].
      * eapply Forall_impl; [exact Hz |]. intros zone. apply zoneBlocks_false.
      * eapply Forall_impl; [exact Hw |]. intros wall. apply wallBlocks_false.
    + intros (_ & Hz & Hw). split; [| split; [| reflexivity]].
      * eapply Forall_impl; [exact Hz |]. intros zone. apply zoneBlocks_false.
      * eapply Forall_impl; [exact Hw |]. intros wall. apply wallBlocks_false.
Qed.

Lemma collidesAt_true_iff
    (collisionZones : list CollisionZone) (walls : list Wall) (x z r : R) :
  collidesAt collisionZones walls x z r = true <->
  hypot x z + r > 16
  \/ Exists (fun zone => ~ outsideZone x z r zone) collisionZones
  \/ Exists (inWall x z r) walls.
Proof.
  unfold collidesAt, WORLD_RADIUS_M.
  destruct (bool_decide (hypot x z + r > 16)) eqn:Hworld.
  - apply bool_decide_eq_true in Hworld. split; [intros _; left; exact Hworld | reflexivity].
  - apply bool_decide_eq_false in Hworld.
    rewrite !firstHit_true.
    split.
    + intros [Hz | [Hw | Habs]]; [| | discriminate].
      * right; left. eapply Exists_impl; [exact Hz |].
        intros zone Hhit Hout. apply zoneBlocks_false in Hout. congruence.
      * right; right. eapply Exists_impl; [exact Hw |].
        intros wall. apply wallBlocks_true.
    + intros [Habs | [Hz | Hw]]; [contradiction | |].
      * left. eapply Exists_impl; [exact Hz |].
        intros zone Hnot. destruct (zoneBlocks x z r zone) eqn:Hhit; [reflexivity |].
        exfalso. apply Hnot. apply zoneBlocks_false. exact Hhit.
      * right; left. eapply Exists_impl; [exact Hw |].
        intros wall. apply wallBlocks_true.
Qed.

(** C2.  [collidesAt] is a total function to [bool], and it returns [false]
    exactly when the three conditions hold together: the point grown by [r]
    fits in the world disc ([hypot x z + r <= 16]), it lies outside every zone
    grown by [r] (distance to the centre greater than [radius + r]), and it
    lies outside every wall rectangle grown by [r] on all sides.  Hence it
    returns [true] exactly when one of the three is violated. *)
Theorem collidesAt_characterisation
    (collisionZones : list CollisionZone) (walls : list Wall) (x z r : R) :
  (collidesAt collisionZones walls x z r = false <->
     hypot x z + r <= WORLD_RADIUS_M
     /\ Forall (outsideZone x z r) collisionZones
     /\ Forall (fun wall => ~ inWall x z r wall) walls)
  /\ (collidesAt collisionZones walls x z r = true <->
     hypot x z + r > WORLD_RADIUS_M
     \/ Exists (fun zone => ~ outsideZone x z r zone) collisionZones
     \/ Exists (inWall x z r) walls).
Proof.
  unfold WORLD_RADIUS_M. split.
  - apply collidesAt_false_iff.
  - apply collidesAt_true_iff.
Qed.

End CollisionFacts.

(** ** Motion integration *)

Module MotionFacts.
Import NumFacts CollisionFacts.

(** Deciding [collidesAt] at a concrete point of a concrete world. *)
Ltac outside_zone :=
  unfold outsideZone; simpl; apply hypot_gt_iff; lra.
Ltac outside_wall :=
  unfold inWall; simpl; lra.
Ltac in_world :=
  match goal with
  | |- hypot ?x ?z + ?r <= 16 =>
      cut (hypot x z <= 16 - r); [lra | apply hypot_le_iff; lra]
  end.
Ltac all_zones := repeat (constructor; [outside_zone |]); constructor.
Ltac all_walls := repeat (constructor; [outside_wall |]); constructor.
Ltac no_collision :=
  apply collidesAt_false_iff; split; [in_world | split; [all_zones | all_walls]].

Lemma moveListener_cases (collides : R -> R -> R -> bool) (i : Intent) (delta : R)
    (current : ListenerPose) :
  let next := moveListener collides i delta current in
  let dX := desiredX i delta current in
  let dZ := desiredZ i delta current in
  pose_headingDeg next = nextHeading i delta current
  /\ ((collides dX dZ PLAYER_RADIUS_M = false
       /\ pose_x next = dX /\ pose_z next = dZ)
      \/ (collides dX dZ PLAYER_RADIUS_M = true
          /\ collides dX (pose_z current) PLAYER_RADIUS_M = false
          /\ pose_x next = dX /\ pose_z next = pose_z current)
      \/ (collides dX dZ PLAYER_RADIUS_M = true
          /\ collides dX (pose_z current) PLAYER_RADIUS_M = true
          /\ collides (pose_x current) dZ PLAYER_RADIUS_M = false
          /\ pose_x next = pose_x current /\ pose_z next = dZ)
      \/ (collides dX dZ PLAYER_RADIUS_M = true
          /\ collides dX (pose_z current) PLAYER_RADIUS_M = true
          /\ collides (pose_x current) dZ PLAYER_RADIUS_M = true
          /\ pose_x next = pose_x current /\ pose_z next = pose_z current)).
Proof.
  cbv zeta. unfold moveListener.
  destruct (collides (desiredX i delta current) (desiredZ i delta current) PLAYER_RADIUS_M)
    eqn:Hboth.
  - destruct (collides (desiredX i delta current) (pose_z current) PLAYER_RADIUS_M) eqn:HslideX.
    + destruct (collides (pose_x current) (desiredZ i delta current) PLAYER_RADIUS_M)
        eqn:HslideZ; simpl.
      * split; [reflexivity |]. right; right; right. auto.
      * split; [reflexivity |]. right; right; left. auto.
    + simpl. split; [reflexivity |]. right; left. auto.
  - simpl. split; [reflexivity |]. left. auto.
Qed.

Lemma moveListener_safe (collides : R -> R -> R -> bool) (i : Intent) (delta : R)
    (current : ListenerPose) :
  collides (pose_x current) (pose_z current) PLAYER_RADIUS_M = false ->
  let next := moveListener collides i delta current in
  collides (pose_x next) (pose_z next) PLAYER_RADIUS_M = false.
Proof.
  intros Hstart. cbv zeta.
  destruct (moveListener_cases collides i delta current) as [_ Hcases].
  cbv zeta in Hcases.
  destruct Hcases as [(H & -> & ->) | [(_ & H & -> & ->) | [(_ & _ & H & -> & ->) | (_ & _ & _ & -> & ->)]]];
    assumption.
Qed.

Lemma tickListener_cases (s : Sim) (delta : R) :
  tickListener s delta = listener s
  \/ tickListener s delta
     = moveListener (collidesAt (collisionZones s) (walls s)) (readIntent (keyState s)) delta
         (listener s).
Proof.
  unfold tickListener.
  destruct (walkMode s); [| left; reflexivity].
  destruct (isIdle (readIntent (keyState s))); [left | right]; reflexivity.
Qed.

(** C1.  Slide-or-reject.  From a listener position that does not collide,
    the listener updater of the walk-mode tick produces, for every intent and
    every time step, a position that does not collide, and that position is
    the desired one, or the slide keeping Z, or the slide keeping X, or the
    old position; the same holds for the listener after a whole [tick]. *)
Theorem walk_tick_never_collides (s : Sim) (i : Intent) (delta now : R) :
  let collides := collidesAt (collisionZones s) (walls s) in
  let current := listener s in
  let dX := desiredX i delta current in
  let dZ := desiredZ i delta current in
  collides (pose_x current) (pose_z current) PLAYER_RADIUS_M = false ->
  (let next := moveListener collides i delta current in
   collides (pose_x next) (pose_z next) PLAYER_RADIUS_M = false
   /\ ((collides dX dZ PLAYER_RADIUS_M = false /\ pose_x next = dX /\ pose_z next = dZ)
       \/ (collides dX dZ PLAYER_RADIUS_M = true
           /\ collides dX (pose_z current) PLAYER_RADIUS_M = false
           /\ pose_x next = dX /\ pose_z next = pose_z current)
       \/ (collides dX dZ PLAYER_RADIUS_M = true
           /\ collides dX (pose_z current) PLAYER_RADIUS_M = true
           /\ collides (pose_x current) dZ PLAYER_RADIUS_M = false
           /\ pose_x next = pose_x current /\ pose_z next = dZ)
       \/ (collides dX dZ PLAYER_RADIUS_M = true
           /\ collides dX (pose_z current) PLAYER_RADIUS_M = true
           /\ collides (pose_x current) dZ PLAYER_RADIUS_M = true
           /\ pose_x next = pose_x current /\ pose_z next = pose_z current)))
  /\ (let after := listener (tick now s) in
      collides (pose_x after) (pose_z after) PLAYER_RADIUS_M = false).
Proof.
  cbv zeta. intros Hstart. split; [split |].
  - apply moveListener_safe. exact Hstart.
  - apply moveListener_cases.
  - simpl. destruct (tickListener_cases s (tickDelta now (previous s))) as [-> | ->].
    + exact Hstart.
    + apply moveListener_safe. exact Hstart.
Qed.

Lemma walk_tick_never_collides_witness :
  collidesAt (collisionZones scenarioA) (walls scenarioA)
    (pose_x (listener scenarioA)) (pose_z (listener scenarioA)) PLAYER_RADIUS_M = false
  /\ collidesAt (collisionZones scenarioA) (walls scenarioA)
       (pose_x (listener (tick 100 scenarioA))) (pose_z (listener (tick 100 scenarioA)))
       PLAYER_RADIUS_M = false.
Proof.
  assert (Hstart : collidesAt (collisionZones scenarioA) (walls scenarioA)
    (pose_x (listener scenarioA)) (pose_z (listener scenarioA)) PLAYER_RADIUS_M = false).
  { simpl. unfold PLAYER_RADIUS_M. no_collision. }
  split; [exact Hstart |].
  exact (proj2 (walk_tick_never_collides scenarioA forwardOnly 0.04 100 Hstart)).
Defined.

Ltac in_wall_now :=
  apply collidesAt_true_iff; right; right;
  first [ apply Exists_cons_hd; unfold inWall; simpl; lra
        | apply Exists_cons_tl; apply Exists_cons_hd; unfold inWall; simpl; lra ].

Lemma toRadians_0 : toRadians 0 = 0.
Proof. unfold toRadians. lra. Qed.

Lemma forwardOnly_heading (delta : R) : nextHeading forwardOnly delta INITIAL_LISTENER = 0.
Proof.
  unfold nextHeading, forwardOnly, INITIAL_LISTENER. simpl.
  replace (0 + 0 * TURN_SPEED_DEG_PER_SEC * delta) with 0 by ring.
  apply wrapDegrees_0.
Qed.

Lemma forwardOnly_desiredX (delta : R) : desiredX forwardOnly delta INITIAL_LISTENER = 0.
Proof.
  unfold desiredX. rewrite forwardOnly_heading, toRadians_0, sin_0, cos_0.
  unfold forwardOnly, INITIAL_LISTENER. simpl. ring.
Qed.

Lemma forwardOnly_desiredZ (delta : R) :
  desiredZ forwardOnly delta INITIAL_LISTENER = - (MOVE_SPEED_MPS * delta).
Proof.
  unfold desiredZ. rewrite forwardOnly_heading, toRadians_0, sin_0, cos_0.
  unfold forwardOnly, INITIAL_LISTENER. simpl. ring.
Qed.

Lemma forwardOnly_move (collides : R -> R -> R -> bool) (delta : R) :
  collides 0 (- (MOVE_SPEED_MPS * delta)) PLAYER_RADIUS_M = false ->
  moveListener collides forwardOnly delta INITIAL_LISTENER
  = mkListenerPose 0 (- (MOVE_SPEED_MPS * delta)) 0.
Proof.
  intros Hfree. unfold moveListener.
  rewrite forwardOnly_heading, forwardOnly_desiredX, forwardOnly_desiredZ, Hfree.
  reflexivity.
Qed.

Lemma tickDelta_clamped (now previous : R) :
  0.04 <= (now - previous) / 1000 -> tickDelta now previous = 0.04.
Proof. intros H. unfold tickDelta. apply Rmin_right. exact H. Qed.

Lemma tickDelta_short (now previous : R) :
  (now - previous) / 1000 <= 0.04 -> tickDelta now previous = (now - previous) / 1000.
Proof. intros H. unfold tickDelta. apply Rmin_left. exact H. Qed.

Lemma scenarioA_intent : readIntent (keyState scenarioA) = forwardOnly.
Proof. reflexivity. Qed.

Lemma scenarioA_free (z : R) :
  -1 <= z <= 0 -> collidesAt INITIAL_ZONES INITIAL_WALLS 0 z PLAYER_RADIUS_M = false.
Proof.
  intros Hz. unfold INITIAL_ZONES, INITIAL_WALLS, PLAYER_RADIUS_M.
  apply collidesAt_false_iff. split; [| split].
  - cut (hypot 0 z <= 15). { lra. } apply hypot_le_iff; nra.
  - repeat (constructor; [unfold outsideZone; simpl; apply hypot_gt_iff; nra |]). constructor.
  - all_walls.
Qed.

Lemma scenarioA_tick (now : R) :
  0 <= now ->
  listener (tick now scenarioA)
  = mkListenerPose 0 (- (MOVE_SPEED_MPS * Rmin (now / 1000) 0.04)) 0.
Proof.
  intros Hnow.
  change (listener (tick now scenarioA))
    with (tickListener scenarioA (tickDelta now (previous scenarioA))).
  unfold tickListener. change (walkMode scenarioA) with true. cbv iota.
  rewrite scenarioA_intent. change (isIdle forwardOnly) with false. cbv iota.
  change (listener scenarioA) with INITIAL_LISTENER.
  change (collisionZones scenarioA) with INITIAL_ZONES.
  change (walls scenarioA) with INITIAL_WALLS.
  unfold tickDelta. change (previous scenarioA) with 0.
  replace ((now - 0) / 1000) with (now / 1000) by lra.
  apply forwardOnly_move. apply scenarioA_free. unfold MOVE_SPEED_MPS.
  destruct (Rle_dec (now / 1000) 0.04) as [Hle | Hgt].
  - rewrite Rmin_left by exact Hle. lra.
  - rewrite Rmin_right by lra. lra.
Qed.

(** C6, as stated, fails: one tick whose elapsed time is 0.1 s (100 ms on the
    frame clock) leaves the listener at z = -0.11, at distance 0.165 from the
    claimed -0.275. *)
Lemma scenarioA_not_0275 :
  tickDelta 100 (previous scenarioA) = 0.04
  /\ pose_z (listener (tick 100 scenarioA)) = -0.11
  /\ ~ Rabs (pose_z (listener (tick 100 scenarioA)) - (-0.275)) < 0.16.
Proof.
  assert (Hz : pose_z (listener (tick 100 scenarioA)) = -0.11).
  { rewrite scenarioA_tick by lra. simpl. unfold MOVE_SPEED_MPS.
    rewrite Rmin_right by lra. lra. }
  split; [| split].
  - apply tickDelta_clamped. simpl. lra.
  - exact Hz.
  - rewrite Hz. replace (-0.11 - -0.275) with 0.165 by lra.
    rewrite Rabs_right by lra. lra.
Qed.

(** C6, amended.  With the listener at (0, 0), heading 0 and intent
    (forward 1, strafe 0, turn 0), the listener updater moves the listener to
    (0, -2.75 * delta) whenever that position does not collide: forward maps
    to -Z at heading 0.  A tick takes delta = min(elapsed, 0.04), so for an
    elapsed time of 0.1 s in the seed world delta is 0.04 and the listener
    ends at (0, -0.11). *)
Theorem scenarioA_forward_step (collides : R -> R -> R -> bool) (delta : R) :
  collides 0 (- (2.75 * delta)) PLAYER_RADIUS_M = false ->
  moveListener collides forwardOnly delta INITIAL_LISTENER
    = mkListenerPose 0 (- (2.75 * delta)) 0
  /\ tickDelta 100 (previous scenarioA) = 0.04
  /\ listener (tick 100 scenarioA) = mkListenerPose 0 (-0.11) 0.
Proof.
  intros Hfree. split; [| split].
  - apply (forwardOnly_move collides delta). exact Hfree.
  - apply tickDelta_clamped. simpl. lra.
  - rewrite scenarioA_tick by lra. unfold MOVE_SPEED_MPS.
    rewrite Rmin_right by lra. f_equal. lra.
Qed.

Lemma scenarioA_forward_step_witness :
  collidesAt INITIAL_ZONES INITIAL_WALLS 0 (- (2.75 * 0.04)) PLAYER_RADIUS_M = false
  /\ moveListener (collidesAt INITIAL_ZONES INITIAL_WALLS) forwardOnly 0.04 INITIAL_LISTENER
     = mkListenerPose 0 (- (2.75 * 0.04)) 0.
Proof.
  assert (Hfree : collidesAt INITIAL_ZONES INITIAL_WALLS 0 (- (2.75 * 0.04)) PLAYER_RADIUS_M
                  = false).
  { apply scenarioA_free. lra. }
  split; [exact Hfree |].
  exact (proj1 (scenarioA_forward_step (collidesAt INITIAL_ZONES INITIAL_WALLS) 0.04 Hfree)).
Defined.

(** Every velocity update of [moveEmitter] keeps each component up to sign. *)
Lemma moveEmitter_velocity (collides : R -> R -> R -> bool) (delta : R)
    (emitter : SoundEmitter) :
  let moved := moveEmitter collides delta emitter in
  (em_vx moved = em_vx emitter \/ em_vx moved = - em_vx emitter)
  /\ (em_vz moved = em_vz emitter \/ em_vz moved = - em_vz emitter).
Proof.
  cbv zeta. unfold moveEmitter.
  destruct (em_moving emitter); simpl; [| auto].
  destruct (collides _ _ _); simpl; [| auto].
  destruct (collides (em_x emitter + em_vx emitter * delta) (em_z emitter) _);
    destruct (collides (em_x emitter) (em_z emitter + em_vz emitter * delta) _);
    destruct (collides _ _ _); simpl; rewrite ?Ropp_involutive; auto.
Qed.

Lemma hypot_signs (vx vz vx' vz' : R) :
  (vx' = vx \/ vx' = - vx) -> (vz' = vz \/ vz' = - vz) -> hypot vx' vz' = hypot vx vz.
Proof.
  intros [-> | ->] [-> | ->]; rewrite ?hypot_flip_l, ?hypot_flip_r; reflexivity.
Qed.

Lemma moveEmitter_bounce_x (collides : R -> R -> R -> bool) (delta : R)
    (emitter : SoundEmitter) :
  em_moving emitter = true ->
  collides (em_x emitter + em_vx emitter * delta) (em_z emitter + em_vz emitter * delta)
    EMITTER_RADIUS_M = true ->
  collides (em_x emitter + em_vx emitter * delta) (em_z emitter) EMITTER_RADIUS_M = true ->
  collides (em_x emitter) (em_z emitter + em_vz emitter * delta) EMITTER_RADIUS_M = false ->
  moveEmitter collides delta emitter
  = if collides (em_x emitter + - em_vx emitter * delta)
         (em_z emitter + em_vz emitter * delta) EMITTER_RADIUS_M
    then withMotion emitter (em_x emitter + - - em_vx emitter * delta)
           (em_z emitter + - em_vz emitter * delta) (- - em_vx emitter) (- em_vz emitter)
    else withMotion emitter (em_x emitter + - em_vx emitter * delta)
           (em_z emitter + em_vz emitter * delta) (- em_vx emitter) (em_vz emitter).
Proof.
  intros Hmoving Hboth HX HZ. unfold moveEmitter.
  rewrite Hmoving, Hboth, HX, HZ. reflexivity.
Qed.

(** C5, as stated, fails: in a gap between two walls the emitter's combined
    move and its X-only move collide, its Z-only move does not, and after the
    step [vx] is unchanged while [vz] is inverted. *)
Lemma gap_bounce_keeps_vx :
  let collides := collidesAt [] gapWalls in
  em_moving gapEmitter = true
  /\ collides (em_x gapEmitter + em_vx gapEmitter * 0.04)
       (em_z gapEmitter + em_vz gapEmitter * 0.04) EMITTER_RADIUS_M = true
  /\ collides (em_x gapEmitter + em_vx gapEmitter * 0.04) (em_z gapEmitter)
       EMITTER_RADIUS_M = true
  /\ collides (em_x gapEmitter) (em_z gapEmitter + em_vz gapEmitter * 0.04)
       EMITTER_RADIUS_M = false
  /\ em_vx (moveEmitter collides 0.04 gapEmitter) = em_vx gapEmitter
  /\ em_vx (moveEmitter collides 0.04 gapEmitter) <> - em_vx gapEmitter
  /\ em_vz (moveEmitter collides 0.04 gapEmitter) <> em_vz gapEmitter.
Proof.
  cbv zeta.
  assert (Hboth : collidesAt [] gapWalls (em_x gapEmitter + em_vx gapEmitter * 0.04)
       (em_z gapEmitter + em_vz gapEmitter * 0.04) EMITTER_RADIUS_M = true).
  { unfold gapWalls, EMITTER_RADIUS_M. simpl. in_wall_now. }
  assert (HX : collidesAt [] gapWalls (em_x gapEmitter + em_vx gapEmitter * 0.04)
       (em_z gapEmitter) EMITTER_RADIUS_M = true).
  { unfold gapWalls, EMITTER_RADIUS_M. simpl. in_wall_now. }
  assert (HZ : collidesAt [] gapWalls (em_x gapEmitter)
       (em_z gapEmitter + em_vz gapEmitter * 0.04) EMITTER_RADIUS_M = false).
  { unfold gapWalls, EMITTER_RADIUS_M. simpl. no_collision. }
  assert (Hback : collidesAt [] gapWalls (em_x gapEmitter + - em_vx gapEmitter * 0.04)
       (em_z gapEmitter + em_vz gapEmitter * 0.04) EMITTER_RADIUS_M = true).
  { unfold gapWalls, EMITTER_RADIUS_M. simpl. in_wall_now. }
  repeat split; try assumption;
    rewrite (moveEmitter_bounce_x _ 0.04 gapEmitter eq_refl Hboth HX HZ), Hback; simpl; lra.
Qed.

(** C5, amended.  For a moving emitter whose combined move collides and
    whose X-only move collides while its Z-only move does not: when the
    position reached with [vx] inverted does not collide, the step leaves
    [vx] sign-flipped and [vz] unchanged; when that position collides too, the
    full bounce inverts both components once more, leaving [vx] as it was and
    [vz] sign-flipped.  In both cases, and for every emitter and every step,
    each velocity component is only kept or sign-flipped, so |v| is
    unchanged. *)
Theorem emitter_bounce_x_only
    (collisionZones : list CollisionZone) (walls : list Wall) (delta : R)
    (emitter : SoundEmitter) :
  let collides := collidesAt collisionZones walls in
  let moved := moveEmitter collides delta emitter in
  let x := em_x emitter in
  let z := em_z emitter in
  let vx := em_vx emitter in
  let vz := em_vz emitter in
  ((em_vx moved = vx \/ em_vx moved = - vx)
   /\ (em_vz moved = vz \/ em_vz moved = - vz)
   /\ hypot (em_vx moved) (em_vz moved) = hypot vx vz)
  /\ (em_moving emitter = true ->
      collides (x + vx * delta) (z + vz * delta) EMITTER_RADIUS_M = true ->
      collides (x + vx * delta) z EMITTER_RADIUS_M = true ->
      collides x (z + vz * delta) EMITTER_RADIUS_M = false ->
      (collides (x + - vx * delta) (z + vz * delta) EMITTER_RADIUS_M = false ->
         em_vx moved = - vx /\ em_vz moved = vz
         /\ em_x moved = x + - vx * delta /\ em_z moved = z + vz * delta)
      /\ (collides (x + - vx * delta) (z + vz * delta) EMITTER_RADIUS_M = true ->
         em_vx moved = vx /\ em_vz moved = - vz)).
Proof.
  cbv zeta.
  destruct (moveEmitter_velocity (collidesAt collisionZones walls) delta emitter)
    as [Hvx Hvz].
  cbv zeta in Hvx, Hvz.
  split.
  - split; [exact Hvx | split; [exact Hvz |]]. apply hypot_signs; assumption.
  - intros Hmoving Hboth HX HZ.
    rewrite (moveEmitter_bounce_x _ _ _ Hmoving Hboth HX HZ).
    split; intros Hback; rewrite Hback; simpl.
    + auto.
    + split; [apply Ropp_involutive | reflexivity].
Qed.

Lemma emitter_bounce_x_only_witness :
  let collides := collidesAt [] sideWalls in
  (em_moving gapEmitter = true
   /\ collides (em_x gapEmitter + em_vx gapEmitter * 0.04)
        (em_z gapEmitter + em_vz gapEmitter * 0.04) EMITTER_RADIUS_M = true
   /\ collides (em_x gapEmitter + em_vx gapEmitter * 0.04) (em_z gapEmitter)
        EMITTER_RADIUS_M = true
   /\ collides (em_x gapEmitter) (em_z gapEmitter + em_vz gapEmitter * 0.04)
        EMITTER_RADIUS_M = false
   /\ collides (em_x gapEmitter + - em_vx gapEmitter * 0.04)
        (em_z gapEmitter + em_vz gapEmitter * 0.04) EMITTER_RADIUS_M = false)
  /\ em_vx (moveEmitter collides 0.04 gapEmitter) = - em_vx gapEmitter
  /\ em_vz (moveEmitter collides 0.04 gapEmitter) = em_vz gapEmitter.
Proof.
  cbv zeta.
  assert (Hboth : collidesAt [] sideWalls (em_x gapEmitter + em_vx gapEmitter * 0.04)
       (em_z gapEmitter + em_vz gapEmitter * 0.04) EMITTER_RADIUS_M = true).
  { unfold sideWalls, EMITTER_RADIUS_M. simpl. in_wall_now. }
  assert (HX : collidesAt [] sideWalls (em_x gapEmitter + em_vx gapEmitter * 0.04)
       (em_z gapEmitter) EMITTER_RADIUS_M = true).
  { unfold sideWalls, EMITTER_RADIUS_M. simpl. in_wall_now. }
  assert (HZ : collidesAt [] sideWalls (em_x gapEmitter)
       (em_z gapEmitter + em_vz gapEmitter * 0.04) EMITTER_RADIUS_M = false).
  { unfold sideWalls, EMITTER_RADIUS_M. simpl. no_collision. }
  assert (Hback : collidesAt [] sideWalls (em_x gapEmitter + - em_vx gapEmitter * 0.04)
       (em_z gapEmitter + em_vz gapEmitter * 0.04) EMITTER_RADIUS_M = false).
  { unfold sideWalls, EMITTER_RADIUS_M. simpl. no_collision. }
  split; [auto 10 |].
  destruct (proj2 (emitter_bounce_x_only [] sideWalls 0.04 gapEmitter) eq_refl Hboth HX HZ)
    as [Hflip _].
  destruct (Hflip Hback) as (Hvx & Hvz & _). split; assumption.
Defined.

End MotionFacts.

(** ** Acoustic parameters: Doppler and occlusion *)

Module AcousticFacts.
Import NumFacts CollisionFacts.

(** C3.  For an emitter of positive base frequency the observed frequency
    lies in [0.6 f, 1.8 f], whatever the positions and velocities are: it is
    positive and bounded also when the closing speed reaches or exceeds
    [SOUND_SPEED_MPS]. *)
Theorem observedFreq_bounded (listener : ListenerPose) (emitter : SoundEmitter) :
  em_frequency emitter > 0 ->
  0.6 * em_frequency emitter <= observedFreq listener emitter <= 1.8 * em_frequency emitter
  /\ observedFreq listener emitter > 0.
Proof.
  intros Hf. unfold observedFreq.
  pose proof (clamp_between
    (em_frequency emitter * (SOUND_SPEED_MPS / (SOUND_SPEED_MPS - towardListener listener emitter)))
    (em_frequency emitter * 0.6) (em_frequency emitter * 1.8)) as Hclamp.
  assert (Hle : em_frequency emitter * 0.6 <= em_frequency emitter * 1.8) by lra.
  specialize (Hclamp Hle). lra.
Qed.

Lemma sonicEmitter_closing : towardListener INITIAL_LISTENER sonicEmitter = SOUND_SPEED_MPS.
Proof.
  unfold towardListener, sonicEmitter, INITIAL_LISTENER, SOUND_SPEED_MPS. simpl.
  replace (0 - -1) with 1 by lra. replace (0 - 0) with 0 by lra.
  rewrite hypot_axis by lra. rewrite Rmax_right by lra. lra.
Qed.

Lemma observedFreq_bounded_witness :
  em_frequency sonicEmitter > 0
  /\ towardListener INITIAL_LISTENER sonicEmitter = SOUND_SPEED_MPS
  /\ 0.6 * em_frequency sonicEmitter <= observedFreq INITIAL_LISTENER sonicEmitter
       <= 1.8 * em_frequency sonicEmitter.
Proof.
  assert (Hf : em_frequency sonicEmitter > 0) by (simpl; lra).
  split; [exact Hf | split; [exact sonicEmitter_closing |]].
  exact (proj1 (observedFreq_bounded INITIAL_LISTENER sonicEmitter Hf)).
Defined.

(** *** The two segment tests *)

















(** *** The occlusion scan *)








(** *** Scenario C *)









End AcousticFacts.

(** ** Audio-graph reconciliation *)

Module ReconcilerFacts.

Lemma disposeStale_refs (liveIds : gset string) (entries : list (string * EmitterAudioNode))
    (refs : AudioRefs) :
  audioContextRef (disposeStale liveIds entries refs) = audioContextRef refs
  /\ masterGainRef (disposeStale liveIds entries refs) = masterGainRef refs.
Proof.
  revert refs. induction entries as [| [id node] rest IH]; intros refs; simpl; [auto |].
  destruct (bool_decide (id ∈ liveIds)); [apply IH |].
  destruct (IH (withNodes refs (delete id (emitterNodesRef refs)) (OpDispose id))) as [Hc Hm].
  simpl in Hc, Hm. auto.
Qed.

Lemma disposeStale_live (liveIds : gset string) (entries : list (string * EmitterAudioNode))
    (refs : AudioRefs) (k : string) :
  k ∈ liveIds ->
  emitterNodesRef (disposeStale liveIds entries refs) !! k = emitterNodesRef refs !! k.
Proof.
  intros Hk. revert refs. induction entries as [| [id node] rest IH]; intros refs; simpl;
    [reflexivity |].
  destruct (bool_decide (id ∈ liveIds)) eqn:Hid; [apply IH |].
  rewrite IH. simpl. apply bool_decide_eq_false in Hid.
  apply lookup_delete_ne. intros ->. contradiction.
Qed.

Lemma disposeStale_absent (liveIds : gset string) (entries : list (string * EmitterAudioNode))
    (refs : AudioRefs) (k : string) :
  emitterNodesRef refs !! k = None ->
  emitterNodesRef (disposeStale liveIds entries refs) !! k = None.
Proof.
  revert refs. induction entries as [| [id node] rest IH]; intros refs Hnone; simpl;
    [exact Hnone |].
  destruct (bool_decide (id ∈ liveIds)); [apply IH; exact Hnone |].
  apply IH. simpl. rewrite lookup_delete. destruct (decide (id = k)); [reflexivity | exact Hnone].
Qed.

Lemma disposeStale_dead (liveIds : gset string) (entries : list (string * EmitterAudioNode))
    (refs : AudioRefs) (k : string) :
  k ∉ liveIds -> In k (map fst entries) ->
  emitterNodesRef (disposeStale liveIds entries refs) !! k = None.
Proof.
  intros Hk. revert refs. induction entries as [| [id node] rest IH]; intros refs Hin; simpl.
  - destruct Hin.
  - destruct (bool_decide (id ∈ liveIds)) eqn:Hid.
    + apply bool_decide_eq_true in Hid. destruct Hin as [Heq | Hin].
      * simpl in Heq. subst id. contradiction.
      * apply IH. exact Hin.
    + destruct (decide (id = k)) as [-> | Hne].
      * apply disposeStale_absent. simpl. apply lookup_delete_eq.
      * destruct Hin as [Heq | Hin]; [simpl in Heq; contradiction |].
        apply IH. exact Hin.
Qed.

Lemma disposeStale_noop (liveIds : gset string) (entries : list (string * EmitterAudioNode))
    (refs : AudioRefs) :
  (forall id, In id (map fst entries) -> id ∈ liveIds) ->
  disposeStale liveIds entries refs = refs.
Proof.
  revert refs. induction entries as [| [id node] rest IH]; intros refs Hall; simpl;
    [reflexivity |].
  rewrite bool_decide_eq_true_2 by (apply Hall; left; reflexivity).
  apply IH. intros k Hk. apply Hall. right. exact Hk.
Qed.

Lemma entries_keys (nodes : gmap string EmitterAudioNode) (k : string) :
  In k (map fst (map_to_list nodes)) <-> is_Some (nodes !! k).
Proof.
  rewrite in_map_iff. split.
  - intros ([id node] & Heq & Hin). simpl in Heq. subst id.
    apply list_elem_of_In in Hin. apply elem_of_map_to_list in Hin. eauto.
  - intros [node Hnode]. exists (k, node). split; [reflexivity |].
    apply list_elem_of_In. apply elem_of_map_to_list. exact Hnode.
Qed.

Lemma liveIds_spec (emitters : list SoundEmitter) (id : string) :
  id ∈ (list_to_set (map em_id emitters) : gset string) <-> In id (map em_id emitters).
Proof. rewrite elem_of_list_to_set. apply list_elem_of_In. Qed.

Lemma syncEmitters_returns (listener : ListenerPose) (collisionZones : list CollisionZone)
    (walls : list Wall) (emitters : list SoundEmitter) (refs : AudioRefs) (master : GainStage) :
  masterGainRef refs = Some master ->
  exists refs' ops,
    syncEmitters listener collisionZones walls emitters refs = Returned refs'
    /\ audioContextRef refs' = audioContextRef refs
    /\ masterGainRef refs' = Some master
    /\ deviceLog refs' = deviceLog refs ++ ops
    /\ (forall id, is_Some (emitterNodesRef refs' !! id)
                   <-> is_Some (emitterNodesRef refs !! id) \/ In id (map em_id emitters))
    /\ ((forall id, In id (map em_id emitters) -> is_Some (emitterNodesRef refs !! id)) ->
        ops = map (fun emitter => OpRetarget (em_id emitter)) emitters).
Proof.
  revert refs. induction emitters as [| emitter rest IH]; intros refs Hmaster.
  - exists refs, []. simpl. rewrite app_nil_r.
    repeat split; auto. intros [H | []]. exact H.
  - simpl. destruct (emitterNodesRef refs !! em_id emitter) as [existing |] eqn:Hlook.
    + set (refs1 := withNodes refs
             (<[em_id emitter := retarget listener collisionZones walls emitter existing]>
                (emitterNodesRef refs)) (OpRetarget (em_id emitter))).
      destruct (IH refs1 Hmaster) as (refs' & ops & Hrun & Hctx & Hm & Hlog & Hdom & Hops).
      exists refs', (OpRetarget (em_id emitter) :: ops).
      split; [exact Hrun |]. split; [exact Hctx |]. split; [exact Hm |].
      split; [rewrite Hlog; simpl; rewrite <- app_assoc; reflexivity |].
      split.
      * intros id. rewrite Hdom. simpl. rewrite lookup_insert.
        destruct (decide (em_id emitter = id)) as [<- | Hne].
        -- split; [intros _; left; rewrite Hlook; eauto | intros _; left; eauto].
        -- tauto.
      * intros Hall. f_equal. apply Hops. intros id Hin. simpl. rewrite lookup_insert.
        destruct (decide (em_id emitter = id)); [eauto |].
        apply Hall. right. exact Hin.
    + unfold createEmitterNode. rewrite Hmaster.
      set (node := {| oscillator_type := em_waveform emitter;
                      oscillator_frequency := em_frequency emitter;
                      gain_gain := em_gain emitter;
                      filter_frequency := 6200;
                      filter_Q := 0.6;
                      panner_position := (em_x emitter, em_y emitter, em_z emitter) |}).
      set (refs1 := withNodes refs (<[em_id emitter := node]> (emitterNodesRef refs))
                      (OpCreate (em_id emitter))).
      destruct (IH refs1 Hmaster) as (refs' & ops & Hrun & Hctx & Hm & Hlog & Hdom & Hops).
      exists refs', (OpCreate (em_id emitter) :: ops).
      split; [exact Hrun |]. split; [exact Hctx |]. split; [exact Hm |].
      split; [rewrite Hlog; simpl; rewrite <- app_assoc; reflexivity |].
      split.
      * intros id. rewrite Hdom. simpl. rewrite lookup_insert.
        destruct (decide (em_id emitter = id)) as [<- | Hne].
        -- split; [intros _; right; left; reflexivity | intros _; left; eauto].
        -- split; [intros [H | H]; auto | intros [H | [H | H]]; auto; contradiction].
      * intros Hall. exfalso.
        destruct (Hall (em_id emitter)) as [node' Hnode']; [left; reflexivity | congruence].
Qed.

Lemma reconnect_returns (listener : ListenerPose) (emitters : list SoundEmitter)
    (collisionZones : list CollisionZone) (walls : list Wall) (refs : AudioRefs)
    (context : AudioContext) (master : GainStage) :
  audioContextRef refs = Some context ->
  masterGainRef refs = Some master ->
  exists refs',
    reconnectAudioEmitters true listener emitters collisionZones walls refs = Returned refs'
    /\ audioContextRef refs' = Some context
    /\ masterGainRef refs' = Some master
    /\ (forall id, is_Some (emitterNodesRef refs' !! id) <-> In id (map em_id emitters)).
Proof.
  intros Hctx Hmaster. unfold reconnectAudioEmitters. rewrite Hctx. simpl.
  set (liveIds := list_to_set (map em_id emitters) : gset string).
  set (refs0 := disposeStale liveIds (map_to_list (emitterNodesRef refs)) refs).
  destruct (disposeStale_refs liveIds (map_to_list (emitterNodesRef refs)) refs) as [Hc0 Hm0].
  fold refs0 in Hc0, Hm0.
  destruct (syncEmitters_returns listener collisionZones walls emitters refs0 master)
    as (refs' & ops & Hrun & Hc & Hm & _ & Hdom & _).
  { rewrite Hm0. exact Hmaster. }
  exists refs'. split; [exact Hrun |]. split; [congruence |]. split; [exact Hm |].
  intros id. rewrite Hdom. split; [| auto].
  intros [Hsome | Hin]; [| exact Hin].
  destruct (decide (id ∈ liveIds)) as [Hlive | Hdead].
  - apply liveIds_spec. exact Hlive.
  - exfalso. unfold refs0 in Hsome.
    destruct (emitterNodesRef refs !! id) as [node |] eqn:Hold.
    + rewrite disposeStale_dead in Hsome; [destruct Hsome; discriminate | exact Hdead |].
      apply entries_keys. eauto.
    + rewrite disposeStale_absent in Hsome by exact Hold. destruct Hsome; discriminate.
Qed.

Lemma reconnect_settled (listener : ListenerPose) (emitters : list SoundEmitter)
    (collisionZones : list CollisionZone) (walls : list Wall) (refs : AudioRefs)
    (context : AudioContext) (master : GainStage) :
  audioContextRef refs = Some context ->
  masterGainRef refs = Some master ->
  (forall id, is_Some (emitterNodesRef refs !! id) <-> In id (map em_id emitters)) ->
  exists refs',
    reconnectAudioEmitters true listener emitters collisionZones walls refs = Returned refs'
    /\ deviceLog refs' = deviceLog refs ++ map (fun emitter => OpRetarget (em_id emitter)) emitters
    /\ (forall id, is_Some (emitterNodesRef refs' !! id) <-> is_Some (emitterNodesRef refs !! id)).
Proof.
  intros Hctx Hmaster Hunits. unfold reconnectAudioEmitters. rewrite Hctx. simpl.
  rewrite disposeStale_noop.
  2:{ intros id Hin. apply liveIds_spec. apply Hunits. apply entries_keys. exact Hin. }
  destruct (syncEmitters_returns listener collisionZones walls emitters refs master Hmaster)
    as (refs' & ops & Hrun & _ & _ & Hlog & Hdom & Hops).
  exists refs'. split; [exact Hrun |]. split.
  - rewrite Hlog. f_equal. apply Hops. intros id Hin. apply Hunits. exact Hin.
  - intros id. rewrite Hdom. split; [| auto].
    intros [H | H]; [exact H | apply Hunits; exact H].
Qed.

(** C9.  When the audio subsystem is started (context and master gain stage
    present, audio running), one run of the reconciliation returns with a
    unit map that holds a unit for exactly the live emitter ids (a map holds
    at most one unit per id).  A second run with the same live ids (in
    particular with an unchanged emitter list and unchanged targets) issues no
    create and no dispose operation: it only retargets, once per listed
    emitter, and leaves the set of units as it is. *)
Theorem reconcile_then_stable (listener listener' : ListenerPose)
    (emitters emitters' : list SoundEmitter)
    (collisionZones collisionZones' : list CollisionZone) (walls walls' : list Wall)
    (refs : AudioRefs) (context : AudioContext) (master : GainStage) :
  audioContextRef refs = Some context ->
  masterGainRef refs = Some master ->
  (forall id, In id (map em_id emitters') <-> In id (map em_id emitters)) ->
  exists refs1 refs2,
    reconnectAudioEmitters true listener emitters collisionZones walls refs = Returned refs1
    /\ (forall id, is_Some (emitterNodesRef refs1 !! id) <-> In id (map em_id emitters))
    /\ reconnectAudioEmitters true listener' emitters' collisionZones' walls' refs1
       = Returned refs2
    /\ deviceLog refs2
       = deviceLog refs1 ++ map (fun emitter => OpRetarget (em_id emitter)) emitters'
    /\ (forall id, is_Some (emitterNodesRef refs2 !! id) <-> In id (map em_id emitters)).
Proof.
  intros Hctx Hmaster Hsame.
  destruct (reconnect_returns listener emitters collisionZones walls refs context master
              Hctx Hmaster) as (refs1 & Hrun1 & Hctx1 & Hmaster1 & Hunits1).
  destruct (reconnect_settled listener' emitters' collisionZones' walls' refs1 context master
              Hctx1 Hmaster1) as (refs2 & Hrun2 & Hlog2 & Hunits2).
  { intros id. rewrite Hunits1, Hsame. reflexivity. }
  exists refs1, refs2.
  split; [exact Hrun1 |]. split; [exact Hunits1 |]. split; [exact Hrun2 |].
  split; [exact Hlog2 |].
  intros id. rewrite Hunits2. apply Hunits1.
Qed.

Lemma reconcile_then_stable_witness :
  audioContextRef startedRefs = Some Context
  /\ masterGainRef startedRefs = Some (mkGainStage 0.82)
  /\ exists refs1 refs2,
       reconnectAudioEmitters true INITIAL_LISTENER INITIAL_EMITTERS INITIAL_ZONES INITIAL_WALLS
         startedRefs = Returned refs1
       /\ reconnectAudioEmitters true INITIAL_LISTENER INITIAL_EMITTERS INITIAL_ZONES
            INITIAL_WALLS refs1 = Returned refs2
       /\ deviceLog refs2
          = deviceLog refs1 ++ [OpRetarget "emitter-1"; OpRetarget "emitter-2"; OpRetarget "emitter-3"].
Proof.
  split; [reflexivity | split; [reflexivity |]].
  destruct (reconcile_then_stable INITIAL_LISTENER INITIAL_LISTENER
              INITIAL_EMITTERS INITIAL_EMITTERS INITIAL_ZONES INITIAL_ZONES
              INITIAL_WALLS INITIAL_WALLS startedRefs Context (mkGainStage 0.82)
              eq_refl eq_refl (fun id => iff_refl _))
    as (refs1 & refs2 & Hrun1 & _ & Hrun2 & Hlog & _).
  exists refs1, refs2. split; [exact Hrun1 | split; [exact Hrun2 | exact Hlog]].
Defined.

End ReconcilerFacts.

(** ** Entity commands *)

Module CommandFacts.
Import NumFacts CollisionFacts.

Lemma canvasToPoint_clamped (x y canvasSize : R) :
  within POSITION_RANGE (fst (canvasToPoint x y canvasSize))
  /\ within POSITION_RANGE (snd (canvasToPoint x y canvasSize)).
Proof.
  unfold within, POSITION_RANGE, canvasToPoint, WORLD_RADIUS_M. simpl.
  split; apply clamp_between; lra.
Qed.

Lemma canvasToPoint_pointToCanvas (wx wz : R) :
  canvasToPoint (fst (pointToCanvas wx wz CANVAS_SIZE)) (snd (pointToCanvas wx wz CANVAS_SIZE))
    CANVAS_SIZE
  = (clamp wx (- WORLD_RADIUS_M) WORLD_RADIUS_M, clamp wz (- WORLD_RADIUS_M) WORLD_RADIUS_M).
Proof.
  unfold canvasToPoint, pointToCanvas, CANVAS_SIZE, WORLD_RADIUS_M. simpl.
  f_equal; f_equal; field; lra.
Qed.

Lemma clamp_sqr_cases (w : R) :
  let c := clamp w (- WORLD_RADIUS_M) WORLD_RADIUS_M in
  c * c = w * w \/ c * c = 256.
Proof.
  cbv zeta. unfold WORLD_RADIUS_M.
  destruct (Rle_dec w (-16)) as [Hlo | Hlo].
  - right. rewrite clamp_below by lra. lra.
  - destruct (Rle_dec 16 w) as [Hhi | Hhi].
    + right. rewrite clamp_above by lra. lra.
    + left. rewrite clamp_id by lra. reflexivity.
Qed.

(** A request at distance 16.5 m from the origin still collides with the
    world boundary after the per-axis clamp. *)
Lemma clamped_request_collides (collisionZones : list CollisionZone) (walls : list Wall)
    (wx wz : R) :
  hypot wx wz = 16.5 ->
  collidesAt collisionZones walls (clamp wx (- WORLD_RADIUS_M) WORLD_RADIUS_M)
    (clamp wz (- WORLD_RADIUS_M) WORLD_RADIUS_M) EMITTER_RADIUS_M = true.
Proof.
  intros Hfar. apply collidesAt_true_iff. left. unfold EMITTER_RADIUS_M.
  pose proof (hypot_sqr wx wz) as Hsq. rewrite Hfar in Hsq.
  pose proof (clamp_sqr_cases wx) as Hx. pose proof (clamp_sqr_cases wz) as Hz.
  cbv zeta in Hx, Hz.
  set (cx := clamp wx (- WORLD_RADIUS_M) WORLD_RADIUS_M) in *.
  set (cz := clamp wz (- WORLD_RADIUS_M) WORLD_RADIUS_M) in *.
  assert (Hbig : 256 <= cx * cx + cz * cz).
  { pose proof (Rle_0_sqr cx) as Hcx. pose proof (Rle_0_sqr cz) as Hcz.
    pose proof (Rle_0_sqr wx) as Hwx. pose proof (Rle_0_sqr wz) as Hwz.
    unfold Rsqr in *. destruct Hx as [Hx | Hx]; destruct Hz as [Hz | Hz]; lra. }
  destruct (Rle_dec (hypot cx cz) 15.65) as [Hle | Hgt]; [| lra].
  apply hypot_le_iff in Hle; lra.
Qed.

Lemma addEmitter_appends (rnd : nat -> R) (counter : nat) (x z : R)
    (prev : list SoundEmitter) :
  exists emitter,
    addEmitter rnd counter x z prev = (prev ++ [emitter], S counter)
    /\ em_x emitter = x /\ em_z emitter = z.
Proof. unfold addEmitter. eexists. split; [reflexivity |]. split; reflexivity. Qed.

Lemma onCanvasDoubleClick_cases (rnd : nat -> R) (localX localY : R) (s : Scene) :
  let point := canvasToPoint localX localY CANVAS_SIZE in
  let s' := onCanvasDoubleClick rnd localX localY s in
  (collidesAt (sc_zones s) (sc_walls s) (fst point) (snd point) EMITTER_RADIUS_M = true
   /\ s' = s)
  \/ (collidesAt (sc_zones s) (sc_walls s) (fst point) (snd point) EMITTER_RADIUS_M = false
      /\ exists emitter,
           sc_emitters s' = sc_emitters s ++ [emitter]
           /\ em_x emitter = fst point /\ em_z emitter = snd point).
Proof.
  cbv zeta. unfold onCanvasDoubleClick.
  destruct (collidesAt (sc_zones s) (sc_walls s)
              (fst (canvasToPoint localX localY CANVAS_SIZE))
              (snd (canvasToPoint localX localY CANVAS_SIZE)) EMITTER_RADIUS_M) eqn:Hhit; simpl.
  - left. split; reflexivity.
  - right. split; [reflexivity |].
    eexists. split; [reflexivity |]. split; reflexivity.
Qed.

(** C7.  The add-emitter operation can place an emitter out of bounds.  The
    "Add Emitter" button, pressed in the seed world while the listener stands
    at the free position (15.5, 0) and the two offset draws are 0.75 and 0.5,
    requests the position (16.5, 0); [addEmitter] stores it as it is, at
    distance 16.5 from the origin, outside the world radius of 16.  The
    double-click path guards the same call with [collidesAt]: a double-click
    at the canvas point of (16.5, 0) stores no emitter. *)
Lemma add_button_out_of_bounds :
  collidesAt INITIAL_ZONES INITIAL_WALLS 15.5 0 PLAYER_RADIUS_M = false
  /\ (exists emitter,
        In emitter (sc_emitters (onAddEmitterClick buttonDraws (listenerAt 15.5 0) seedScene))
        /\ em_x emitter = 16.5 /\ em_z emitter = 0
        /\ hypot (em_x emitter) (em_z emitter) > WORLD_RADIUS_M)
  /\ sc_emitters (onCanvasDoubleClick halfDraws (fst (pointToCanvas 16.5 0 CANVAS_SIZE))
                    (snd (pointToCanvas 16.5 0 CANVAS_SIZE)) seedScene)
     = sc_emitters seedScene.
Proof.
  split; [| split].
  - unfold INITIAL_ZONES, INITIAL_WALLS, PLAYER_RADIUS_M.
    apply collidesAt_false_iff. split; [| split].
    + rewrite hypot_axis by lra. lra.
    + repeat (constructor; [unfold outsideZone; simpl;
                            apply hypot_gt_iff; lra |]). constructor.
    + repeat (constructor; [unfold inWall; simpl; lra |]). constructor.
  - unfold onAddEmitterClick.
    destruct (addEmitter_appends (fun k => buttonDraws (2 + k)) (sc_emitterCounter seedScene)
                (pose_x (listenerAt 15.5 0) + randomBetween (buttonDraws 0%nat) (-2) 2)
                (pose_z (listenerAt 15.5 0) + randomBetween (buttonDraws 1%nat) (-2) 2)
                (sc_emitters seedScene)) as (emitter & -> & Hx & Hz).
    exists emitter. cbn [sc_emitters].
    assert (Hx' : em_x emitter = 16.5).
    { rewrite Hx. unfold randomBetween, buttonDraws. simpl. lra. }
    assert (Hz' : em_z emitter = 0).
    { rewrite Hz. unfold randomBetween, buttonDraws. simpl. lra. }
    split; [apply in_or_app; right; left; reflexivity |].
    split; [exact Hx' | split; [exact Hz' |]].
    rewrite Hx', Hz', hypot_axis by lra. unfold WORLD_RADIUS_M. lra.
  - unfold onCanvasDoubleClick. rewrite canvasToPoint_pointToCanvas. simpl fst. simpl snd.
    rewrite clamped_request_collides; [reflexivity |]. apply hypot_axis. lra.
Qed.

(** X27.  An emitter added by a double-click on the canvas is never out of
    bounds: the requested point is clamped per axis to [-16, 16], and
    an emitter is appended, at that point, only when
    [collidesAt(point, EMITTER_RADIUS_M)] is false, so that
    hypot(x, z) + 0.35 <= 16; otherwise nothing changes.  In particular a
    double-click at distance 16.5 m from the origin adds no emitter: the
    request is rejected, not moved inside the boundary. *)
Theorem doubleClick_in_bounds (rnd : nat -> R) (localX localY : R) (s : Scene) :
  let point := canvasToPoint localX localY CANVAS_SIZE in
  let s' := onCanvasDoubleClick rnd localX localY s in
  (within POSITION_RANGE (fst point) /\ within POSITION_RANGE (snd point))
  /\ ((collidesAt (sc_zones s) (sc_walls s) (fst point) (snd point) EMITTER_RADIUS_M = true
       /\ s' = s)
      \/ (collidesAt (sc_zones s) (sc_walls s) (fst point) (snd point) EMITTER_RADIUS_M = false
          /\ exists emitter,
               sc_emitters s' = sc_emitters s ++ [emitter]
               /\ em_x emitter = fst point /\ em_z emitter = snd point
               /\ hypot (em_x emitter) (em_z emitter) + EMITTER_RADIUS_M <= WORLD_RADIUS_M))
  /\ (forall wx wz, hypot wx wz = 16.5 ->
        localX = fst (pointToCanvas wx wz CANVAS_SIZE) ->
        localY = snd (pointToCanvas wx wz CANVAS_SIZE) ->
        s' = s).
Proof.
  cbv zeta. split; [apply canvasToPoint_clamped |]. split.
  - destruct (onCanvasDoubleClick_cases rnd localX localY s)
      as [[Hhit Hsame] | [Hfree (emitter & Hadd & Hx & Hz)]]; cbv zeta in *.
    + left. split; assumption.
    + right. split; [exact Hfree |]. exists emitter.
      split; [exact Hadd | split; [exact Hx | split; [exact Hz |]]].
      rewrite Hx, Hz. apply collidesAt_false_iff in Hfree.
      unfold WORLD_RADIUS_M. exact (proj1 Hfree).
  - intros wx wz Hfar -> ->. unfold onCanvasDoubleClick.
    rewrite canvasToPoint_pointToCanvas. simpl fst. simpl snd.
    rewrite clamped_request_collides by exact Hfar. reflexivity.
Qed.

Lemma doubleClick_in_bounds_witness :
  hypot 16.5 0 = 16.5
  /\ onCanvasDoubleClick halfDraws (fst (pointToCanvas 16.5 0 CANVAS_SIZE))
       (snd (pointToCanvas 16.5 0 CANVAS_SIZE)) seedScene = seedScene.
Proof.
  assert (Hfar : hypot 16.5 0 = 16.5) by (apply hypot_axis; lra).
  split; [exact Hfar |].
  destruct (doubleClick_in_bounds halfDraws (fst (pointToCanvas 16.5 0 CANVAS_SIZE))
              (snd (pointToCanvas 16.5 0 CANVAS_SIZE)) seedScene) as (_ & _ & Hreject).
  exact (Hreject 16.5 0 Hfar eq_refl eq_refl).
Defined.

(** *** Patches *)

Lemma updateZone_nth (id : string) (patch : ZonePatch) (prev : list CollisionZone) (n : nat) :
  nth_error (updateZone id patch prev) n
  = option_map (fun zone => if bool_decide (zone_id zone = id) then spreadZone zone patch
                            else zone) (nth_error prev n).
Proof. unfold updateZone. apply nth_error_map. Qed.

Lemma updateWall_nth (id : string) (patch : WallPatch) (prev : list Wall) (n : nat) :
  nth_error (updateWall id patch prev) n
  = option_map (fun wall => if bool_decide (wall_id wall = id) then spreadWall wall patch
                            else wall) (nth_error prev n).
Proof. unfold updateWall. apply nth_error_map. Qed.

Lemma updateEmitter_nth (id : string) (patch : EmitterPatch) (prev : list SoundEmitter)
    (n : nat) :
  nth_error (updateEmitter id patch prev) n
  = option_map (fun emitter => if bool_decide (em_id emitter = id)
                               then spreadEmitter emitter patch else emitter)
      (nth_error prev n).
Proof. unfold updateEmitter. apply nth_error_map. Qed.

Lemma updateZone_hit (id : string) (patch : ZonePatch) (prev : list CollisionZone) (n : nat)
    (zone : CollisionZone) :
  nth_error prev n = Some zone -> zone_id zone = id ->
  nth_error (updateZone id patch prev) n = Some (spreadZone zone patch).
Proof.
  intros Hn Hid. rewrite updateZone_nth, Hn. simpl.
  rewrite bool_decide_eq_true_2 by exact Hid. reflexivity.
Qed.

Lemma updateWall_hit (id : string) (patch : WallPatch) (prev : list Wall) (n : nat)
    (wall : Wall) :
  nth_error prev n = Some wall -> wall_id wall = id ->
  nth_error (updateWall id patch prev) n = Some (spreadWall wall patch).
Proof.
  intros Hn Hid. rewrite updateWall_nth, Hn. simpl.
  rewrite bool_decide_eq_true_2 by exact Hid. reflexivity.
Qed.

Lemma updateEmitter_hit (id : string) (patch : EmitterPatch) (prev : list SoundEmitter)
    (n : nat) (emitter : SoundEmitter) :
  nth_error prev n = Some emitter -> em_id emitter = id ->
  nth_error (updateEmitter id patch prev) n = Some (spreadEmitter emitter patch).
Proof.
  intros Hn Hid. rewrite updateEmitter_nth, Hn. simpl.
  rewrite bool_decide_eq_true_2 by exact Hid. reflexivity.
Qed.

Lemma clamp_in_position_range (v : R) :
  within POSITION_RANGE (clamp v (- WORLD_RADIUS_M) WORLD_RADIUS_M).
Proof.
  unfold within, POSITION_RANGE. simpl. apply clamp_between. unfold WORLD_RADIUS_M. lra.
Qed.

(** C8, as stated, fails: patching the radius of the first seed zone with 100
    stores 100, outside the declared range [0.5, 3.5]. *)
Lemma radius_patch_not_clamped :
  exists zone,
    nth_error (updateZone "zone-1" (mkZonePatch None None None None (Some 100)) INITIAL_ZONES)
      0 = Some zone
    /\ zone_radius zone = 100
    /\ ~ within ZONE_RADIUS_RANGE (zone_radius zone).
Proof.
  eexists. split; [| split].
  - apply (updateZone_hit "zone-1" _ INITIAL_ZONES 0%nat); reflexivity.
  - reflexivity.
  - unfold within, ZONE_RADIUS_RANGE. simpl. lra.
Qed.

(** C8, amended.  A patch operation on an emitter, zone or wall never fails
    and keeps the number of entities; an entity whose id differs from the
    patched id is unchanged, and on an entity with the patched id every
    patched field (radius, width, height, frequency, gain, elevation,
    position) is stored exactly as given, without clamping, on emitters,
    zones and walls alike, and every field the patch does not mention keeps
    its value: the stored value lies in the field's declared range when the
    patch value does.  Range limiting is left to the callers: the drag
    handlers pass the position clamped per axis to [-16, 16], and that
    clamped value is what is stored. *)
Theorem patch_stored_as_given (id : string) (n : nat) :
  (forall patch prev zone v,
     nth_error prev n = Some zone -> zone_id zone = id -> pz_radius patch = Some v ->
     exists zone', nth_error (updateZone id patch prev) n = Some zone'
       /\ zone_radius zone' = v
       /\ (within ZONE_RADIUS_RANGE v -> within ZONE_RADIUS_RANGE (zone_radius zone')))
  /\ (forall patch prev wall v,
     nth_error prev n = Some wall -> wall_id wall = id -> pw_width patch = Some v ->
     exists wall', nth_error (updateWall id patch prev) n = Some wall'
       /\ wall_width wall' = v
       /\ (within WALL_WIDTH_RANGE v -> within WALL_WIDTH_RANGE (wall_width wall')))
  /\ (forall patch prev wall v,
     nth_error prev n = Some wall -> wall_id wall = id -> pw_height patch = Some v ->
     exists wall', nth_error (updateWall id patch prev) n = Some wall'
       /\ wall_height wall' = v
       /\ (within WALL_HEIGHT_RANGE v -> within WALL_HEIGHT_RANGE (wall_height wall')))
  /\ (forall patch prev emitter v,
     nth_error prev n = Some emitter -> em_id emitter = id -> pe_frequency patch = Some v ->
     exists emitter', nth_error (updateEmitter id patch prev) n = Some emitter'
       /\ em_frequency emitter' = v
       /\ (within FREQUENCY_RANGE v -> within FREQUENCY_RANGE (em_frequency emitter')))
  /\ (forall patch prev emitter v,
     nth_error prev n = Some emitter -> em_id emitter = id -> pe_gain patch = Some v ->
     exists emitter', nth_error (updateEmitter id patch prev) n = Some emitter'
       /\ em_gain emitter' = v
       /\ (within GAIN_RANGE v -> within GAIN_RANGE (em_gain emitter')))
  /\ (forall patch prev emitter v,
     nth_error prev n = Some emitter -> em_id emitter = id -> pe_y patch = Some v ->
     exists emitter', nth_error (updateEmitter id patch prev) n = Some emitter'
       /\ em_y emitter' = v
       /\ (within ELEVATION_RANGE v -> within ELEVATION_RANGE (em_y emitter')))
  /\ (forall patch prev emitter vx vz,
     nth_error prev n = Some emitter -> em_id emitter = id ->
     pe_x patch = Some vx -> pe_z patch = Some vz ->
     exists emitter', nth_error (updateEmitter id patch prev) n = Some emitter'
       /\ em_x emitter' = vx /\ em_z emitter' = vz)
  /\ (forall patch prev zone vx vz,
     nth_error prev n = Some zone -> zone_id zone = id ->
     pz_x patch = Some vx -> pz_z patch = Some vz ->
     exists zone', nth_error (updateZone id patch prev) n = Some zone'
       /\ zone_x zone' = vx /\ zone_z zone' = vz
       /\ (within POSITION_RANGE vx -> within POSITION_RANGE (zone_x zone'))
       /\ (within POSITION_RANGE vz -> within POSITION_RANGE (zone_z zone')))
  /\ (forall patch prev wall vx vz,
     nth_error prev n = Some wall -> wall_id wall = id ->
     pw_x patch = Some vx -> pw_z patch = Some vz ->
     exists wall', nth_error (updateWall id patch prev) n = Some wall'
       /\ wall_x wall' = vx /\ wall_z wall' = vz
       /\ (within POSITION_RANGE vx -> within POSITION_RANGE (wall_x wall'))
       /\ (within POSITION_RANGE vz -> within POSITION_RANGE (wall_z wall')))
  /\ (forall patch prev zone,
     nth_error prev n = Some zone -> zone_id zone = id ->
     exists zone', nth_error (updateZone id patch prev) n = Some zone'
       /\ zone_id zone' = default (zone_id zone) (pz_id patch)
       /\ zone_label zone' = default (zone_label zone) (pz_label patch)
       /\ zone_x zone' = default (zone_x zone) (pz_x patch)
       /\ zone_z zone' = default (zone_z zone) (pz_z patch)
       /\ zone_radius zone' = default (zone_radius zone) (pz_radius patch))
  /\ (forall patch prev wall,
     nth_error prev n = Some wall -> wall_id wall = id ->
     exists wall', nth_error (updateWall id patch prev) n = Some wall'
       /\ wall_id wall' = default (wall_id wall) (pw_id patch)
       /\ wall_x wall' = default (wall_x wall) (pw_x patch)
       /\ wall_z wall' = default (wall_z wall) (pw_z patch)
       /\ wall_width wall' = default (wall_width wall) (pw_width patch)
       /\ wall_height wall' = default (wall_height wall) (pw_height patch))
  /\ (forall patch prev emitter,
     nth_error prev n = Some emitter -> em_id emitter = id ->
     exists emitter', nth_error (updateEmitter id patch prev) n = Some emitter'
       /\ em_id emitter' = default (em_id emitter) (pe_id patch)
       /\ em_name emitter' = default (em_name emitter) (pe_name patch)
       /\ em_x emitter' = default (em_x emitter) (pe_x patch)
       /\ em_z emitter' = default (em_z emitter) (pe_z patch)
       /\ em_y emitter' = default (em_y emitter) (pe_y patch)
       /\ em_frequency emitter' = default (em_frequency emitter) (pe_frequency patch)
       /\ em_gain emitter' = default (em_gain emitter) (pe_gain patch)
       /\ em_waveform emitter' = default (em_waveform emitter) (pe_waveform patch)
       /\ em_color emitter' = default (em_color emitter) (pe_color patch)
       /\ em_moving emitter' = default (em_moving emitter) (pe_moving patch)
       /\ em_vx emitter' = default (em_vx emitter) (pe_vx patch)
       /\ em_vz emitter' = default (em_vz emitter) (pe_vz patch))
  /\ (forall pz pw pe zones walls emitters,
     length (updateZone id pz zones) = length zones
     /\ length (updateWall id pw walls) = length walls
     /\ length (updateEmitter id pe emitters) = length emitters)
  /\ (forall pz pw pe zones walls emitters zone wall emitter,
     (nth_error zones n = Some zone -> zone_id zone <> id ->
      nth_error (updateZone id pz zones) n = Some zone)
     /\ (nth_error walls n = Some wall -> wall_id wall <> id ->
         nth_error (updateWall id pw walls) n = Some wall)
     /\ (nth_error emitters n = Some emitter -> em_id emitter <> id ->
         nth_error (updateEmitter id pe emitters) n = Some emitter))
  /\ (forall localX localY offsetX offsetZ s zone wall emitter,
     let point := canvasToPoint localX localY CANVAS_SIZE in
     (nth_error (sc_zones s) n = Some zone -> zone_id zone = id ->
      exists zone',
        nth_error (sc_zones (onCanvasPointerMove (Some (DragZone id offsetX offsetZ))
                               localX localY s)) n = Some zone'
        /\ zone_x zone' = clamp (fst point - offsetX) (- WORLD_RADIUS_M) WORLD_RADIUS_M
        /\ zone_z zone' = clamp (snd point - offsetZ) (- WORLD_RADIUS_M) WORLD_RADIUS_M
        /\ zone_radius zone' = zone_radius zone
        /\ within POSITION_RANGE (zone_x zone') /\ within POSITION_RANGE (zone_z zone'))
     /\ (nth_error (sc_walls s) n = Some wall -> wall_id wall = id ->
      exists wall',
        nth_error (sc_walls (onCanvasPointerMove (Some (DragWall id offsetX offsetZ))
                               localX localY s)) n = Some wall'
        /\ wall_x wall' = clamp (fst point - offsetX) (- WORLD_RADIUS_M) WORLD_RADIUS_M
        /\ wall_z wall' = clamp (snd point - offsetZ) (- WORLD_RADIUS_M) WORLD_RADIUS_M
        /\ wall_width wall' = wall_width wall /\ wall_height wall' = wall_height wall
        /\ within POSITION_RANGE (wall_x wall') /\ within POSITION_RANGE (wall_z wall'))
     /\ (nth_error (sc_emitters s) n = Some emitter -> em_id emitter = id ->
      exists emitter',
        nth_error (sc_emitters (onCanvasPointerMove (Some (DragEmitter id)) localX localY s)) n
          = Some emitter'
        /\ em_x emitter' = fst point /\ em_z emitter' = snd point
        /\ within POSITION_RANGE (em_x emitter') /\ within POSITION_RANGE (em_z emitter'))).
Proof.
  repeat match goal with |- _ /\ _ => split end.
  - intros patch prev zone v Hn Hid Hv. eexists.
    split; [apply updateZone_hit; eassumption |]. simpl. rewrite Hv. simpl. auto.
  - intros patch prev wall v Hn Hid Hv. eexists.
    split; [apply updateWall_hit; eassumption |]. simpl. rewrite Hv. simpl. auto.
  - intros patch prev wall v Hn Hid Hv. eexists.
    split; [apply updateWall_hit; eassumption |]. simpl. rewrite Hv. simpl. auto.
  - intros patch prev emitter v Hn Hid Hv. eexists.
    split; [apply updateEmitter_hit; eassumption |]. simpl. rewrite Hv. simpl. auto.
  - intros patch prev emitter v Hn Hid Hv. eexists.
    split; [apply updateEmitter_hit; eassumption |]. simpl. rewrite Hv. simpl. auto.
  - intros patch prev emitter v Hn Hid Hv. eexists.
    split; [apply updateEmitter_hit; eassumption |]. simpl. rewrite Hv. simpl. auto.
  - intros patch prev emitter vx vz Hn Hid Hvx Hvz. eexists.
    split; [apply updateEmitter_hit; eassumption |]. simpl. rewrite Hvx, Hvz. simpl. auto.
  - intros patch prev zone vx vz Hn Hid Hvx Hvz. eexists.
    split; [apply updateZone_hit; eassumption |]. simpl. rewrite Hvx, Hvz. simpl. auto.
  - intros patch prev wall vx vz Hn Hid Hvx Hvz. eexists.
    split; [apply updateWall_hit; eassumption |]. simpl. rewrite Hvx, Hvz. simpl. auto.
  - intros patch prev zone Hn Hid. eexists.
    split; [apply updateZone_hit; eassumption |]. simpl. auto.
  - intros patch prev wall Hn Hid. eexists.
    split; [apply updateWall_hit; eassumption |]. simpl. auto.
  - intros patch prev emitter Hn Hid. eexists.
    split; [apply updateEmitter_hit; eassumption |]. simpl. auto 20.
  - intros. unfold updateZone, updateWall, updateEmitter. rewrite !length_map. auto.
  - intros pz pw pe zones walls emitters zone wall emitter. split; [| split]; intros Hn Hid.
    + rewrite updateZone_nth, Hn. simpl. rewrite bool_decide_eq_false_2 by exact Hid.
      reflexivity.
    + rewrite updateWall_nth, Hn. simpl. rewrite bool_decide_eq_false_2 by exact Hid.
      reflexivity.
    + rewrite updateEmitter_nth, Hn. simpl. rewrite bool_decide_eq_false_2 by exact Hid.
      reflexivity.
  - intros localX localY offsetX offsetZ s zone wall emitter. cbv zeta.
    split; [| split]; intros Hn Hid; eexists.
    + split; [simpl; apply updateZone_hit; eassumption |]. simpl.
      repeat split; try reflexivity; apply clamp_in_position_range.
    + split; [simpl; apply updateWall_hit; eassumption |]. simpl.
      repeat split; try reflexivity; apply clamp_in_position_range.
    + split; [simpl; apply updateEmitter_hit; eassumption |]. simpl.
      split; [reflexivity |]. split; [reflexivity |]. apply canvasToPoint_clamped.
Qed.

Lemma patch_stored_as_given_witness :
  (nth_error INITIAL_ZONES 0 = Some (mkCollisionZone "zone-1" "Concrete Pillar" (-4.8) (-1.5) 1.6)
   /\ within ZONE_RADIUS_RANGE 2)
  /\ exists zone',
       nth_error (onZoneRadiusChange "zone-1" 2 INITIAL_ZONES) 0 = Some zone'
       /\ zone_radius zone' = 2
       /\ within ZONE_RADIUS_RANGE (zone_radius zone').
Proof.
  assert (Hrange : within ZONE_RADIUS_RANGE 2).
  { unfold within, ZONE_RADIUS_RANGE. simpl. lra. }
  split; [split; [reflexivity | exact Hrange] |].
  destruct (patch_stored_as_given "zone-1" 0) as (Hradius & _).
  destruct (Hradius (mkZonePatch None None None None (Some 2)) INITIAL_ZONES
              (mkCollisionZone "zone-1" "Concrete Pillar" (-4.8) (-1.5) 1.6) 2
              eq_refl eq_refl eq_refl) as (zone' & Hn & Hr & Hin).
  exists zone'. split; [exact Hn | split; [exact Hr | exact (Hin Hrange)]].
Defined.

End CommandFacts.

(** ** Further properties of the motion integrator *)

Module MotionLaws.
Import NumFacts CollisionFacts MotionFacts.

Lemma rem_360 (v : R) :
  (0 <= v -> 0 <= rem v 360 < 360)
  /\ (v < 0 -> -360 < rem v 360 <= 0)
  /\ exists k : Z, rem v 360 = v + 360 * IZR k.
Proof.
  unfold rem, trunc.
  destruct (bool_decide (0 <= v / 360)) eqn:Hq.
  - apply bool_decide_eq_true in Hq.
    destruct (base_Int_part (v / 360)) as [Hlo Hhi].
    split; [| split].
    + intros _. lra.
    + intros Hneg. lra.
    + exists (- Int_part (v / 360))%Z. rewrite opp_IZR. ring.
  - apply bool_decide_eq_false in Hq.
    destruct (base_Int_part (- (v / 360))) as [Hlo Hhi].
    rewrite opp_IZR.
    split; [| split].
    + intros Hpos. lra.
    + intros _. lra.
    + exists (Int_part (- (v / 360))). ring.
Qed.

Lemma wrapDegrees_bounds (v : R) : 0 <= wrapDegrees v < 360.
Proof.
  destruct (rem_360 v) as (Hpos & Hneg & _).
  unfold wrapDegrees. cbv zeta.
  destruct (bool_decide (rem v 360 < 0)) eqn:Hsign.
  - apply bool_decide_eq_true in Hsign.
    destruct (Rlt_dec v 0) as [Hv | Hv]; [specialize (Hneg Hv); lra |].
    assert (0 <= v) by lra. specialize (Hpos H). lra.
  - apply bool_decide_eq_false in Hsign.
    destruct (Rlt_dec v 0) as [Hv | Hv]; [specialize (Hneg Hv); lra |].
    apply Hpos. lra.
Qed.

(** X1.  [wrapDegrees] maps every angle into [0, 360], leaves an angle that
    is already in [0, 360) as it is, and adds 360, once, to an angle in
    (-360, 0).  The upper bound is stated closed: the sum [normalized + 360]
    is rounded in floating point and reaches 360 for a remainder just below
    zero. *)
Theorem wrapDegrees_range (v : R) :
  0 <= wrapDegrees v <= 360
  /\ (0 <= v < 360 -> wrapDegrees v = v)
  /\ (-360 < v < 0 -> wrapDegrees v = v + 360).
Proof.
  pose proof (wrapDegrees_bounds v) as Hb.
  split; [lra |]. split.
  - intros Hin. unfold wrapDegrees, rem, trunc. cbv zeta.
    rewrite (bool_decide_eq_true_2 (0 <= v / 360)) by lra.
    replace (Int_part (v / 360)) with 0%Z by (apply Int_part_spec; simpl; lra).
    rewrite bool_decide_eq_false_2 by lra. lra.
  - intros Hin. unfold wrapDegrees, rem, trunc. cbv zeta.
    rewrite (bool_decide_eq_false_2 (0 <= v / 360)) by lra.
    replace (Int_part (- (v / 360))) with 0%Z by (apply Int_part_spec; simpl; lra).
    change (- 0)%Z with 0%Z.
    replace (v - 360 * 0) with v by lra.
    rewrite bool_decide_eq_true_2 by lra. reflexivity.
Qed.

Lemma wrapDegrees_range_witness :
  (0 <= 90 < 360 /\ -360 < -90 < 0) /\ wrapDegrees 90 = 90 /\ wrapDegrees (-90) = -90 + 360.
Proof.
  assert (Hin : 0 <= 90 < 360) by lra.
  assert (Hneg : -360 < -90 < 0) by lra.
  split; [split; [exact Hin | exact Hneg] |]. split.
  - exact (proj1 (proj2 (wrapDegrees_range 90)) Hin).
  - exact (proj2 (proj2 (wrapDegrees_range (-90))) Hneg).
Defined.

(** X2.  Turning is never blocked: whichever branch of the collision policy
    is taken, the listener updater stores the heading
    [wrapDegrees (old + turn * 95 * delta)], which lies in [0, 360]; and a
    whole tick keeps a heading that is in [0, 360] in [0, 360].  The upper
    bound is closed for the reason given for [wrapDegrees]. *)
Theorem heading_stays_wrapped (collides : R -> R -> R -> bool) (i : Intent) (delta now : R)
    (s : Sim) :
  (let next := moveListener collides i delta (listener s) in
   pose_headingDeg next
   = wrapDegrees (pose_headingDeg (listener s) + IZR (turn i) * TURN_SPEED_DEG_PER_SEC * delta)
   /\ 0 <= pose_headingDeg next <= 360)
  /\ (0 <= pose_headingDeg (listener s) <= 360 ->
      0 <= pose_headingDeg (listener (tick now s)) <= 360).
Proof.
  assert (Hmove : forall c j d,
    pose_headingDeg (moveListener c j d (listener s)) = nextHeading j d (listener s)).
  { intros c j d. destruct (moveListener_cases c j d (listener s)) as [H _]. exact H. }
  assert (Hwrap : forall v, 0 <= wrapDegrees v <= 360).
  { intros v. pose proof (wrapDegrees_bounds v). lra. }
  split.
  - cbv zeta. rewrite Hmove. unfold nextHeading. split; [reflexivity | apply Hwrap].
  - intros Hin. simpl.
    destruct (tickListener_cases s (tickDelta now (previous s))) as [-> | ->];
      [exact Hin |].
    rewrite Hmove. unfold nextHeading. apply Hwrap.
Qed.

Lemma heading_stays_wrapped_witness :
  0 <= pose_headingDeg (listener scenarioA) <= 360
  /\ 0 <= pose_headingDeg (listener (tick 100 scenarioA)) <= 360.
Proof.
  assert (Hin : 0 <= pose_headingDeg (listener scenarioA) <= 360) by (simpl; lra).
  split; [exact Hin |].
  exact (proj2 (heading_stays_wrapped (fun _ _ _ => false) forwardOnly 0.04 100 scenarioA) Hin).
Defined.

Lemma hypot_eq (x z r : R) : 0 <= r -> x * x + z * z = r * r -> hypot x z = r.
Proof.
  intros Hr Hsq. apply Rle_antisym.
  - apply hypot_le_iff; lra.
  - destruct (Rle_dec r (hypot x z)) as [H | H]; [exact H |].
    assert (Hlt : hypot x z < r) by lra.
    apply hypot_lt_iff in Hlt; lra.
Qed.

Lemma hypot_scale (a b k : R) : 0 <= k -> hypot (a * k) (b * k) = k * hypot a b.
Proof.
  intros Hk. apply hypot_eq.
  - apply Rmult_le_pos; [exact Hk | apply hypot_nonneg].
  - pose proof (hypot_sqr a b) as Hs.
    replace (k * hypot a b * (k * hypot a b)) with (k * k * (hypot a b * hypot a b)) by ring.
    rewrite Hs. ring.
Qed.

Lemma unit_frame (rad f s : R) :
  (f * sin rad + s * cos rad) * (f * sin rad + s * cos rad)
  + (f * - cos rad + s * sin rad) * (f * - cos rad + s * sin rad)
  = f * f + s * s.
Proof.
  pose proof (sin2_cos2 rad) as H. unfold Rsqr in H.
  replace ((f * sin rad + s * cos rad) * (f * sin rad + s * cos rad)
           + (f * - cos rad + s * sin rad) * (f * - cos rad + s * sin rad))
    with ((f * f + s * s) * (sin rad * sin rad + cos rad * cos rad)) by ring.
  rewrite H. ring.
Qed.

Lemma desired_distance (i : Intent) (delta : R) (current : ListenerPose) :
  0 <= delta ->
  hypot (desiredX i delta current - pose_x current) (desiredZ i delta current - pose_z current)
  = MOVE_SPEED_MPS * delta * hypot (IZR (forward i)) (IZR (strafe i)).
Proof.
  intros Hdelta. unfold desiredX, desiredZ. cbv zeta.
  set (rad := toRadians (nextHeading i delta current)).
  set (f := IZR (forward i)). set (s := IZR (strafe i)).
  set (k := MOVE_SPEED_MPS * delta).
  assert (Hk : 0 <= k) by (unfold k, MOVE_SPEED_MPS; lra).
  replace (pose_x current + (f * sin rad + s * cos rad) * k - pose_x current)
    with ((f * sin rad + s * cos rad) * k) by ring.
  replace (pose_z current + (f * - cos rad + s * sin rad) * k - pose_z current)
    with ((f * - cos rad + s * sin rad) * k) by ring.
  rewrite hypot_scale by exact Hk. f_equal.
  apply hypot_eq; [apply hypot_nonneg |].
  rewrite unit_frame. symmetry. apply hypot_sqr.
Qed.

Lemma moveListener_distance (collides : R -> R -> R -> bool) (i : Intent) (delta : R)
    (current : ListenerPose) :
  0 <= delta ->
  let next := moveListener collides i delta current in
  hypot (pose_x next - pose_x current) (pose_z next - pose_z current)
  <= MOVE_SPEED_MPS * delta * hypot (IZR (forward i)) (IZR (strafe i)).
Proof.
  intros Hdelta. cbv zeta. rewrite <- (desired_distance i delta current Hdelta).
  destruct (moveListener_cases collides i delta current) as [_ Hcases]. cbv zeta in Hcases.
  destruct Hcases as [(_ & -> & ->) | [(_ & _ & -> & ->) | [(_ & _ & _ & -> & ->)
                     | (_ & _ & _ & -> & ->)]]];
    apply hypot_mono;
    pose proof (Rle_0_sqr (desiredX i delta current - pose_x current)) as Hx;
    pose proof (Rle_0_sqr (desiredZ i delta current - pose_z current)) as Hz;
    unfold Rsqr in Hx, Hz; lra.
Qed.

Lemma axis_values (plus minus : bool) :
  axis plus minus = (-1)%Z \/ axis plus minus = 0%Z \/ axis plus minus = 1%Z.
Proof. destruct plus, minus; simpl; auto. Qed.

Lemma readIntent_reach (keys : gset string) :
  hypot (IZR (forward (readIntent keys))) (IZR (strafe (readIntent keys))) <= 1.4143.
Proof.
  apply hypot_le_iff; [lra |]. unfold readIntent. simpl.
  destruct (axis_values (has keys "w") (has keys "s")) as [-> | [-> | ->]];
    destruct (axis_values (has keys "d") (has keys "a")) as [-> | [-> | ->]]; lra.
Qed.

(** X4.  Bounded step: when the frame clock does not run backwards, one tick
    moves the listener by at most 0.16 m (2.75 m/s for at most 0.04 s, times
    the square root of 2 for a diagonal intent), whatever keys are held and
    however long the frame took. *)
Theorem tick_step_bounded (now : R) (s : Sim) :
  previous s <= now ->
  hypot (pose_x (listener (tick now s)) - pose_x (listener s))
        (pose_z (listener (tick now s)) - pose_z (listener s)) <= 0.16.
Proof.
  intros Hclock. simpl.
  destruct (tickListener_cases s (tickDelta now (previous s))) as [-> | ->].
  - replace (pose_x (listener s) - pose_x (listener s)) with 0 by ring.
    replace (pose_z (listener s) - pose_z (listener s)) with 0 by ring.
    rewrite hypot_axis by lra. lra.
  - assert (Hdelta : 0 <= tickDelta now (previous s) <= 0.04).
    { unfold tickDelta. split; [apply Rmin_glb; lra | apply Rmin_r]. }
    eapply Rle_trans; [apply moveListener_distance; lra |].
    pose proof (readIntent_reach (keyState s)) as Hreach.
    pose proof (hypot_nonneg (IZR (forward (readIntent (keyState s))))
                  (IZR (strafe (readIntent (keyState s))))) as Hpos.
    unfold MOVE_SPEED_MPS. nra.
Qed.

Lemma tick_step_bounded_witness :
  previous scenarioA <= 100
  /\ hypot (pose_x (listener (tick 100 scenarioA)) - pose_x (listener scenarioA))
       (pose_z (listener (tick 100 scenarioA)) - pose_z (listener scenarioA)) <= 0.16.
Proof.
  assert (Hclock : previous scenarioA <= 100) by (simpl; lra).
  split; [exact Hclock | exact (tick_step_bounded 100 scenarioA Hclock)].
Defined.

Lemma moveEmitter_static (collides : R -> R -> R -> bool) (delta : R) (emitter : SoundEmitter) :
  let moved := moveEmitter collides delta emitter in
  em_id moved = em_id emitter /\ em_name moved = em_name emitter
  /\ em_y moved = em_y emitter /\ em_frequency moved = em_frequency emitter
  /\ em_gain moved = em_gain emitter /\ em_waveform moved = em_waveform emitter
  /\ em_color moved = em_color emitter /\ em_moving moved = em_moving emitter.
Proof.
  cbv zeta. unfold moveEmitter.
  destruct (em_moving emitter) eqn:Hm; simpl; [| rewrite Hm; auto 10].
  destruct (collides _ _ _); simpl; [| auto 10].
  destruct (collides _ _ _); simpl; auto 10.
Qed.

Lemma moveEmitter_carried (collides : R -> R -> R -> bool) (delta : R) (emitter : SoundEmitter) :
  em_moving emitter = true ->
  let moved := moveEmitter collides delta emitter in
  em_x moved = em_x emitter + em_vx moved * delta
  /\ em_z moved = em_z emitter + em_vz moved * delta.
Proof.
  intros Hm. cbv zeta. unfold moveEmitter. rewrite Hm. simpl.
  destruct (collides _ _ _); simpl; [| auto].
  destruct (collides (em_x emitter + em_vx emitter * delta) (em_z emitter) _);
    destruct (collides (em_x emitter) (em_z emitter + em_vz emitter * delta) _);
    destruct (collides _ _ _); simpl; auto.
Qed.

(** X5.  One tick keeps the number and order of the emitters and, for each
    of them, its id, name, elevation, frequency, gain, waveform, colour and
    moving flag.  An emitter that is not moving, or any emitter while emitter
    motion is disabled, is left exactly as it was.  A moving emitter ends
    where the velocity it leaves with carries it from its old position in the
    time step, each velocity component being the old one or its opposite. *)
Theorem tick_emitters_frame (now : R) (s : Sim) (n : nat) (emitter : SoundEmitter) :
  nth_error (emitters s) n = Some emitter ->
  let delta := tickDelta now (previous s) in
  length (emitters (tick now s)) = length (emitters s)
  /\ exists moved,
       nth_error (emitters (tick now s)) n = Some moved
       /\ (em_id moved = em_id emitter /\ em_name moved = em_name emitter
           /\ em_y moved = em_y emitter /\ em_frequency moved = em_frequency emitter
           /\ em_gain moved = em_gain emitter /\ em_waveform moved = em_waveform emitter
           /\ em_color moved = em_color emitter /\ em_moving moved = em_moving emitter)
       /\ (movingEnabled s = false \/ em_moving emitter = false -> moved = emitter)
       /\ (movingEnabled s = true -> em_moving emitter = true ->
           em_x moved = em_x emitter + em_vx moved * delta
           /\ em_z moved = em_z emitter + em_vz moved * delta
           /\ (em_vx moved = em_vx emitter \/ em_vx moved = - em_vx emitter)
           /\ (em_vz moved = em_vz emitter \/ em_vz moved = - em_vz emitter)).
Proof.
  intros Hn. cbv zeta. simpl. unfold tickEmitters.
  destruct (movingEnabled s) eqn:Hen.
  - rewrite length_map. split; [reflexivity |].
    rewrite nth_error_map, Hn. simpl. eexists. split; [reflexivity |].
    split; [apply moveEmitter_static |]. split.
    + intros [Hoff | Hstill]; [discriminate |].
      unfold moveEmitter. rewrite Hstill. reflexivity.
    + intros _ Hm.
      destruct (moveEmitter_carried (collidesAt (collisionZones s) (walls s))
                  (tickDelta now (previous s)) emitter Hm) as [Hx Hz].
      destruct (moveEmitter_velocity (collidesAt (collisionZones s) (walls s))
                  (tickDelta now (previous s)) emitter) as [Hvx Hvz].
      auto.
  - split; [reflexivity |]. exists emitter. split; [exact Hn |].
    split; [auto 10 |]. split; [reflexivity | discriminate].
Qed.

Lemma tick_emitters_frame_witness :
  nth_error (emitters scenarioA) 1 = Some (mkSoundEmitter "emitter-2" "Beacon B" 4.8 (-5.2) 0.3
                                             690 0.14 Sine "#df7c20" false 0 0)
  /\ nth_error (emitters (tick 100 scenarioA)) 1
     = Some (mkSoundEmitter "emitter-2" "Beacon B" 4.8 (-5.2) 0.3 690 0.14 Sine "#df7c20"
               false 0 0).
Proof.
  split; [reflexivity |].
  destruct (tick_emitters_frame 100 scenarioA 1 _ eq_refl) as (_ & moved & Hn & _ & Hsame & _).
  rewrite Hn. f_equal. apply Hsame. right. reflexivity.
Defined.

End MotionLaws.

(** ** Further properties of the collision geometry *)

Module GeometryLaws.
Import NumFacts CollisionFacts AcousticFacts CommandFacts.

Lemma collidesAt_radius_mono (collisionZones : list CollisionZone) (walls : list Wall)
    (x z r r' : R) :
  r <= r' ->
  collidesAt collisionZones walls x z r = true ->
  collidesAt collisionZones walls x z r' = true.
Proof.
  intros Hr. rewrite !collidesAt_true_iff.
  intros [Hworld | [Hz | Hw]].
  - left. lra.
  - right; left. eapply Exists_impl; [exact Hz |].
    intros zone. unfold outsideZone. lra.
  - right; right. eapply Exists_impl; [exact Hw |].
    intros wall. unfold inWall. lra.
Qed.

(** X6.  A larger body collides wherever a smaller one does.  The emitter
    radius being smaller than the player radius, every point where the
    listener can stand is free for an emitter, and a double-click on such a
    point always appends an emitter at that point. *)
Theorem walkable_is_placeable (rnd : nat -> R) (localX localY : R) (s : Scene)
    (collisionZones : list CollisionZone) (walls : list Wall) (x z r r' : R) :
  (r <= r' -> collidesAt collisionZones walls x z r = true ->
   collidesAt collisionZones walls x z r' = true)
  /\ (collidesAt collisionZones walls x z PLAYER_RADIUS_M = false ->
      collidesAt collisionZones walls x z EMITTER_RADIUS_M = false)
  /\ (let point := canvasToPoint localX localY CANVAS_SIZE in
      collidesAt (sc_zones s) (sc_walls s) (fst point) (snd point) PLAYER_RADIUS_M = false ->
      exists emitter,
        sc_emitters (onCanvasDoubleClick rnd localX localY s) = sc_emitters s ++ [emitter]
        /\ em_x emitter = fst point /\ em_z emitter = snd point).
Proof.
  assert (Hsmall : forall zs ws px pz,
    collidesAt zs ws px pz PLAYER_RADIUS_M = false ->
    collidesAt zs ws px pz EMITTER_RADIUS_M = false).
  { intros zs ws px pz Hfree. apply not_true_is_false. intros Hhit.
    apply (collidesAt_radius_mono zs ws px pz EMITTER_RADIUS_M PLAYER_RADIUS_M) in Hhit.
    - congruence.
    - unfold EMITTER_RADIUS_M, PLAYER_RADIUS_M. lra. }
  split; [apply collidesAt_radius_mono |]. split; [apply Hsmall |].
  cbv zeta. intros Hfree. apply Hsmall in Hfree.
  destruct (onCanvasDoubleClick_cases rnd localX localY s) as [[Hhit _] | [_ Hadd]];
    cbv zeta in *; [congruence | exact Hadd].
Qed.

Lemma walkable_is_placeable_witness :
  (collidesAt INITIAL_ZONES INITIAL_WALLS 0 0 PLAYER_RADIUS_M = false)
  /\ collidesAt INITIAL_ZONES INITIAL_WALLS 0 0 EMITTER_RADIUS_M = false.
Proof.
  assert (Hfree : collidesAt INITIAL_ZONES INITIAL_WALLS 0 0 PLAYER_RADIUS_M = false).
  { apply MotionFacts.scenarioA_free. lra. }
  split; [exact Hfree |].
  destruct (walkable_is_placeable halfDraws 0 0 seedScene INITIAL_ZONES INITIAL_WALLS
              0 0 0 0) as (_ & Hsmall & _).
  exact (Hsmall Hfree).
Defined.

Lemma collidesAt_obstacles_mono (zones zones' : list CollisionZone) (walls walls' : list Wall)
    (x z r : R) :
  (forall zone, In zone zones' -> In zone zones) ->
  (forall wall, In wall walls' -> In wall walls) ->
  collidesAt zones' walls' x z r = true -> collidesAt zones walls x z r = true.
Proof.
  intros Hzs Hws. rewrite !collidesAt_true_iff.
  intros [Hworld | [Hz | Hw]].
  - left. exact Hworld.
  - right; left. apply Exists_exists in Hz. destruct Hz as (zone & Hin & Hnot).
    apply Exists_exists. exists zone. split; [| exact Hnot].
    apply list_elem_of_In. apply Hzs. apply list_elem_of_In. exact Hin.
  - right; right. apply Exists_exists in Hw. destruct Hw as (wall & Hin & Hwall).
    apply Exists_exists. exists wall. split; [| exact Hwall].
    apply list_elem_of_In. apply Hws. apply list_elem_of_In. exact Hin.
Qed.

(** X7.  Obstacles only block: a point that collides in a world collides in
    every world that has at least the same zones and walls.  Hence deleting
    the selected obstacle never makes a free point collide, it removes every
    zone (or wall) with the selected id and no other, and it clears the
    selection; with no selection it changes nothing. *)
Theorem removing_obstacles_frees (selected : option SelectedObstacle)
    (collisionZones : list CollisionZone) (walls : list Wall) (x z r : R) :
  let '(zones', walls', selected') := removeSelectedObstacle selected collisionZones walls in
  selected' = None
  /\ (collidesAt collisionZones walls x z r = false -> collidesAt zones' walls' x z r = false)
  /\ (forall zone, In zone zones' <->
        In zone collisionZones /\ selected <> Some (SelectedZone (zone_id zone)))
  /\ (forall wall, In wall walls' <->
        In wall walls /\ selected <> Some (SelectedWall (wall_id wall)))
  /\ (selected = None -> zones' = collisionZones /\ walls' = walls).
Proof.
  destruct selected as [[id | id] |]; simpl.
  - split; [reflexivity |].
    assert (Hin : forall zone, In zone (filter (fun zone => zone_id zone ≠ id) collisionZones)
                    <-> In zone collisionZones /\ Some (SelectedZone id)
                                                  <> Some (SelectedZone (zone_id zone))).
    { intros zone. rewrite <- !list_elem_of_In, list_elem_of_filter. split.
      - intros [Hne Hin]. split; [exact Hin | congruence].
      - intros [Hin Hne]. split; [congruence | exact Hin]. }
    split; [| split; [exact Hin | split; [| discriminate]]].
    + intros Hfree. apply not_true_is_false. intros Hhit.
      apply (collidesAt_obstacles_mono collisionZones _ walls walls) in Hhit;
        [congruence | | auto].
      intros zone Hz. apply Hin in Hz. tauto.
    + intros wall. split; [intros H; split; [exact H | discriminate] | tauto].
  - split; [reflexivity |].
    assert (Hin : forall wall, In wall (filter (fun wall => wall_id wall ≠ id) walls)
                    <-> In wall walls /\ Some (SelectedWall id)
                                         <> Some (SelectedWall (wall_id wall))).
    { intros wall. rewrite <- !list_elem_of_In, list_elem_of_filter. split.
      - intros [Hne Hin]. split; [exact Hin | congruence].
      - intros [Hin Hne]. split; [congruence | exact Hin]. }
    split; [| split; [| split; [exact Hin | discriminate]]].
    + intros Hfree. apply not_true_is_false. intros Hhit.
      apply (collidesAt_obstacles_mono collisionZones collisionZones walls _) in Hhit;
        [congruence | auto |].
      intros wall Hw. apply Hin in Hw. tauto.
    + intros zone. split; [intros H; split; [exact H | discriminate] | tauto].
  - split; [reflexivity |]. split; [auto |].
    split; [intros zone; split; [intros H; split; [exact H | discriminate] | tauto] |].
    split; [intros wall; split; [intros H; split; [exact H | discriminate] | tauto] |].
    auto.
Qed.

Lemma removing_obstacles_frees_witness :
  collidesAt INITIAL_ZONES INITIAL_WALLS 0 0 PLAYER_RADIUS_M = false
  /\ collidesAt (filter (fun zone => zone_id zone ≠ "zone-1") INITIAL_ZONES) INITIAL_WALLS
       0 0 PLAYER_RADIUS_M = false.
Proof.
  assert (Hfree : collidesAt INITIAL_ZONES INITIAL_WALLS 0 0 PLAYER_RADIUS_M = false).
  { apply MotionFacts.scenarioA_free. lra. }
  split; [exact Hfree |].
  pose proof (removing_obstacles_frees (Some (SelectedZone "zone-1")) INITIAL_ZONES
                INITIAL_WALLS 0 0 PLAYER_RADIUS_M) as H.
  simpl in H. destruct H as (_ & Hkeep & _). exact (Hkeep Hfree).
Defined.




Lemma canvas_back (x : R) :
  ((CANVAS_SIZE / 2 + (x / WORLD_RADIUS_M) * (CANVAS_SIZE * 0.43) - CANVAS_SIZE / 2)
   / (CANVAS_SIZE * 0.43)) * WORLD_RADIUS_M = x.
Proof. unfold CANVAS_SIZE, WORLD_RADIUS_M. field. lra. Qed.

(** X11.  Canvas and world coordinates agree.  A world point of the square
    [-16, 16] x [-16, 16] is drawn inside the canvas, and the canvas point at
    which it is drawn maps back to it within a nanometre (exactly, but for
    floating-point rounding).  The world origin and the canvas centre
    correspond exactly, every canvas point maps into the square, and both
    maps preserve the order of coordinates along each axis. *)
Theorem canvas_round_trip (x z x' z' px py px' py' : R) :
  let drawn := pointToCanvas x z CANVAS_SIZE in
  let back := canvasToPoint (fst drawn) (snd drawn) CANVAS_SIZE in
  (within POSITION_RANGE x -> within POSITION_RANGE z ->
   (0 <= fst drawn <= CANVAS_SIZE /\ 0 <= snd drawn <= CANVAS_SIZE)
   /\ Rabs (fst back - x) <= 1e-9 /\ Rabs (snd back - z) <= 1e-9)
  /\ pointToCanvas 0 0 CANVAS_SIZE = (CANVAS_SIZE / 2, CANVAS_SIZE / 2)
  /\ canvasToPoint (CANVAS_SIZE / 2) (CANVAS_SIZE / 2) CANVAS_SIZE = (0, 0)
  /\ (within POSITION_RANGE (fst (canvasToPoint px py CANVAS_SIZE))
      /\ within POSITION_RANGE (snd (canvasToPoint px py CANVAS_SIZE)))
  /\ (x <= x' -> fst (pointToCanvas x z CANVAS_SIZE) <= fst (pointToCanvas x' z' CANVAS_SIZE))
  /\ (z <= z' -> snd (pointToCanvas x z CANVAS_SIZE) <= snd (pointToCanvas x' z' CANVAS_SIZE))
  /\ (px <= px' ->
      fst (canvasToPoint px py CANVAS_SIZE) <= fst (canvasToPoint px' py' CANVAS_SIZE))
  /\ (py <= py' ->
      snd (canvasToPoint px py CANVAS_SIZE) <= snd (canvasToPoint px' py' CANVAS_SIZE)).
Proof.
  cbv zeta.
  assert (Hclamp_mono : forall a b, a <= b ->
    clamp a (- WORLD_RADIUS_M) WORLD_RADIUS_M <= clamp b (- WORLD_RADIUS_M) WORLD_RADIUS_M).
  { intros a b Hab. unfold clamp. apply Rle_min_compat_l. apply Rle_max_compat_l. exact Hab. }
  split; [| split; [| split; [| split; [| split; [| split; [| split]]]]]].
  - intros Hx Hz. unfold within, POSITION_RANGE, WORLD_RADIUS_M in Hx, Hz.
    simpl in Hx, Hz. split; [| split].
    + unfold pointToCanvas, CANVAS_SIZE, WORLD_RADIUS_M. simpl. lra.
    + unfold canvasToPoint, pointToCanvas. cbn [fst snd]. rewrite canvas_back.
      rewrite clamp_id by (unfold WORLD_RADIUS_M; lra).
      replace (x - x) with 0 by ring. rewrite Rabs_R0. lra.
    + unfold canvasToPoint, pointToCanvas. cbn [fst snd]. rewrite canvas_back.
      rewrite clamp_id by (unfold WORLD_RADIUS_M; lra).
      replace (z - z) with 0 by ring. rewrite Rabs_R0. lra.
  - unfold pointToCanvas, CANVAS_SIZE, WORLD_RADIUS_M. f_equal; lra.
  - unfold canvasToPoint, CANVAS_SIZE.
    replace ((840 / 2 - 840 / 2) / (840 * 0.43) * WORLD_RADIUS_M) with 0
      by (unfold WORLD_RADIUS_M; field; lra).
    rewrite clamp_id by (unfold WORLD_RADIUS_M; lra). reflexivity.
  - apply canvasToPoint_clamped.
  - intros Hle. unfold pointToCanvas, CANVAS_SIZE, WORLD_RADIUS_M. simpl. lra.
  - intros Hle. unfold pointToCanvas, CANVAS_SIZE, WORLD_RADIUS_M. simpl. lra.
  - intros Hle. unfold canvasToPoint. cbn [fst]. apply Hclamp_mono.
    unfold CANVAS_SIZE, WORLD_RADIUS_M. lra.
  - intros Hle. unfold canvasToPoint. cbn [snd]. apply Hclamp_mono.
    unfold CANVAS_SIZE, WORLD_RADIUS_M. lra.
Qed.

Lemma canvas_round_trip_witness :
  (within POSITION_RANGE 3 /\ within POSITION_RANGE (-4))
  /\ Rabs (fst (canvasToPoint (fst (pointToCanvas 3 (-4) CANVAS_SIZE))
                  (snd (pointToCanvas 3 (-4) CANVAS_SIZE)) CANVAS_SIZE) - 3) <= 1e-9
  /\ Rabs (snd (canvasToPoint (fst (pointToCanvas 3 (-4) CANVAS_SIZE))
                  (snd (pointToCanvas 3 (-4) CANVAS_SIZE)) CANVAS_SIZE) - -4) <= 1e-9.
Proof.
  assert (Hx : within POSITION_RANGE 3)
    by (unfold within, POSITION_RANGE, WORLD_RADIUS_M; simpl; lra).
  assert (Hz : within POSITION_RANGE (-4))
    by (unfold within, POSITION_RANGE, WORLD_RADIUS_M; simpl; lra).
  split; [split; [exact Hx | exact Hz] |].
  destruct (canvas_round_trip 3 (-4) 3 (-4) 0 0 0 0) as (Hin & _).
  exact (proj2 (Hin Hx Hz)).
Defined.

End GeometryLaws.

(** ** Further properties of the Doppler step *)

Module DopplerLaws.
Import NumFacts.

Lemma le_of_squares (a b : R) : 0 <= b -> a * a <= b * b -> a <= b.
Proof. intros Hb Hsq. destruct (Rle_dec a b) as [H | H]; [exact H | nra]. Qed.

Lemma dot_le_norms (vx vz dx dz : R) : vx * dx + vz * dz <= hypot vx vz * hypot dx dz.
Proof.
  apply le_of_squares.
  - apply Rmult_le_pos; apply hypot_nonneg.
  - pose proof (hypot_sqr vx vz) as Hv. pose proof (hypot_sqr dx dz) as Hd.
    replace (hypot vx vz * hypot dx dz * (hypot vx vz * hypot dx dz))
      with ((hypot vx vz * hypot vx vz) * (hypot dx dz * hypot dx dz)) by ring.
    rewrite Hv, Hd.
    pose proof (Rle_0_sqr (vx * dz - vz * dx)) as Hcross. unfold Rsqr in Hcross. lra.
Qed.

Lemma towardListener_bound (listener : ListenerPose) (emitter : SoundEmitter) :
  - hypot (em_vx emitter) (em_vz emitter) <= towardListener listener emitter
    <= hypot (em_vx emitter) (em_vz emitter).
Proof.
  unfold towardListener. cbv zeta.
  set (dx := pose_x listener - em_x emitter). set (dz := pose_z listener - em_z emitter).
  set (vx := em_vx emitter). set (vz := em_vz emitter).
  set (distance := Rmax 0.001 (hypot dx dz)).
  assert (Hdist : 0 < distance) by (unfold distance; pose proof (Rmax_l 0.001 (hypot dx dz)); lra).
  assert (Hhd : hypot dx dz <= distance) by (unfold distance; apply Rmax_r).
  pose proof (hypot_nonneg vx vz) as Hv. pose proof (hypot_nonneg dx dz) as Hd.
  pose proof (dot_le_norms vx vz dx dz) as Hup.
  pose proof (dot_le_norms (- vx) vz dx (- dz)) as Hlow.
  rewrite hypot_flip_l, hypot_flip_r in Hlow.
  assert (Hprod : hypot vx vz * hypot dx dz <= hypot vx vz * distance)
    by (apply Rmult_le_compat_l; assumption).
  split.
  - apply (Rmult_le_reg_r distance); [exact Hdist |].
    replace ((vx * dx + vz * dz) / distance * distance) with (vx * dx + vz * dz)
      by (field; lra).
    lra.
  - apply (Rmult_le_reg_r distance); [exact Hdist |].
    replace ((vx * dx + vz * dz) / distance * distance) with (vx * dx + vz * dz)
      by (field; lra).
    lra.
Qed.

Lemma ratio_ge_1 (t : R) : 0 <= t < 343 -> 1 <= 343 / (343 - t).
Proof.
  intros Ht. apply (Rmult_le_reg_r (343 - t)); [lra |].
  replace (343 / (343 - t) * (343 - t)) with 343 by (field; lra). lra.
Qed.

Lemma ratio_le_1 (t : R) : t <= 0 -> 0 < 343 / (343 - t) <= 1.
Proof.
  intros Ht. split.
  - apply Rdiv_lt_0_compat; lra.
  - apply (Rmult_le_reg_r (343 - t)); [lra |].
    replace (343 / (343 - t) * (343 - t)) with 343 by (field; lra). lra.
Qed.

Lemma ratio_negative (t : R) : 343 < t -> 343 / (343 - t) < 0.
Proof.
  intros Ht. unfold Rdiv.
  assert (/ (343 - t) < 0) by (apply Rinv_lt_0_compat; lra).
  nra.
Qed.

(** X12.  Ordinary emitters are never clamped.  For an emitter of
    non-negative base frequency whose speed is at most 150 m/s, wherever it
    and the listener are, the Doppler quotient lies within 0.6 and 1.8 and the
    clamp does not engage: the observed frequency is the code's own
    [frequency * (343 / (343 - closing speed))]. *)
Theorem slow_emitter_never_clamped (listener : ListenerPose) (emitter : SoundEmitter) :
  0 <= em_frequency emitter ->
  hypot (em_vx emitter) (em_vz emitter) <= 150 ->
  observedFreq listener emitter
  = em_frequency emitter
    * (SOUND_SPEED_MPS / (SOUND_SPEED_MPS - towardListener listener emitter))
  /\ 0.6 <= SOUND_SPEED_MPS / (SOUND_SPEED_MPS - towardListener listener emitter) <= 1.8.
Proof.
  pose proof (towardListener_bound listener emitter) as Hb.
  intros Hf Hslow. unfold observedFreq, SOUND_SPEED_MPS.
  set (t := towardListener listener emitter) in *.
  assert (Hq : 0.6 <= 343 / (343 - t) <= 1.8).
  { split.
    - apply (Rmult_le_reg_r (343 - t)); [lra |].
      replace (343 / (343 - t) * (343 - t)) with 343 by (field; lra). lra.
    - apply (Rmult_le_reg_r (343 - t)); [lra |].
      replace (343 / (343 - t) * (343 - t)) with 343 by (field; lra). lra. }
  split; [| exact Hq].
  apply clamp_id.
  split.
  - apply Rmult_le_compat_l; [exact Hf | apply Hq].
  - apply Rmult_le_compat_l; [exact Hf | apply Hq].
Qed.

Lemma slow_emitter_never_clamped_witness :
  (0 <= em_frequency gapEmitter /\ hypot (em_vx gapEmitter) (em_vz gapEmitter) <= 150)
  /\ observedFreq INITIAL_LISTENER gapEmitter
     = em_frequency gapEmitter
       * (SOUND_SPEED_MPS / (SOUND_SPEED_MPS - towardListener INITIAL_LISTENER gapEmitter)).
Proof.
  assert (Hf : 0 <= em_frequency gapEmitter) by (simpl; lra).
  assert (Hslow : hypot (em_vx gapEmitter) (em_vz gapEmitter) <= 150).
  { simpl. apply hypot_le_iff; lra. }
  split; [auto |].
  exact (proj1 (slow_emitter_never_clamped INITIAL_LISTENER gapEmitter Hf Hslow)).
Defined.

(** X13.  Direction of the Doppler shift, for an emitter of non-negative
    base frequency: with no closing speed (in particular for an emitter at
    rest) the observed frequency is the base frequency exactly; an emitter
    approaching below the propagation speed is never heard lower than its
    base frequency, a receding one never higher; and an emitter closing
    faster than the propagation speed is heard at the lower bound, 0.6 times
    the base frequency. *)
Theorem doppler_direction (listener : ListenerPose) (emitter : SoundEmitter) :
  0 <= em_frequency emitter ->
  let t := towardListener listener emitter in
  let f := em_frequency emitter in
  (em_vx emitter = 0 -> em_vz emitter = 0 -> observedFreq listener emitter = f)
  /\ (t = 0 -> observedFreq listener emitter = f)
  /\ (0 <= t < SOUND_SPEED_MPS -> f <= observedFreq listener emitter)
  /\ (t <= 0 -> observedFreq listener emitter <= f)
  /\ (SOUND_SPEED_MPS < t -> observedFreq listener emitter = 0.6 * f).
Proof.
  intros Hf. cbv zeta.
  assert (Hzero : towardListener listener emitter = 0 ->
                  observedFreq listener emitter = em_frequency emitter).
  { intros Ht. unfold observedFreq, SOUND_SPEED_MPS. rewrite Ht.
    replace (em_frequency emitter * (343 / (343 - 0))) with (em_frequency emitter)
      by (field; lra).
    apply clamp_id. lra. }
  split; [| split; [exact Hzero | split; [| split]]].
  - intros Hvx Hvz. apply Hzero.
    pose proof (towardListener_bound listener emitter) as Hb.
    rewrite Hvx, Hvz in Hb. rewrite hypot_axis in Hb by lra. lra.
  - unfold SOUND_SPEED_MPS. intros Ht. unfold observedFreq, SOUND_SPEED_MPS, clamp.
    pose proof (ratio_ge_1 _ Ht) as Hq.
    apply Rmin_glb; [lra |].
    eapply Rle_trans; [| apply Rmax_r].
    assert (em_frequency emitter * 1
            <= em_frequency emitter * (343 / (343 - towardListener listener emitter)))
      by (apply Rmult_le_compat_l; assumption).
    lra.
  - intros Ht. unfold observedFreq, SOUND_SPEED_MPS, clamp.
    pose proof (ratio_le_1 _ Ht) as Hq.
    eapply Rle_trans; [apply Rmin_r |].
    assert (em_frequency emitter * (343 / (343 - towardListener listener emitter))
            <= em_frequency emitter * 1)
      by (apply Rmult_le_compat_l; [assumption | apply Hq]).
    apply Rmax_lub; lra.
  - unfold SOUND_SPEED_MPS. intros Ht. unfold observedFreq, SOUND_SPEED_MPS.
    pose proof (ratio_negative _ Ht) as Hq.
    rewrite clamp_below; [lra | lra |].
    assert (em_frequency emitter * (343 / (343 - towardListener listener emitter)) <= 0)
      by nra.
    lra.
Qed.

Lemma doppler_direction_witness :
  0 <= em_frequency (emitterAt 3 4)
  /\ observedFreq INITIAL_LISTENER (emitterAt 3 4) = em_frequency (emitterAt 3 4).
Proof.
  assert (Hf : 0 <= em_frequency (emitterAt 3 4)) by (simpl; lra).
  split; [exact Hf |].
  destruct (doppler_direction INITIAL_LISTENER (emitterAt 3 4) Hf) as (Hrest & _).
  apply Hrest; reflexivity.
Defined.

End DopplerLaws.

(** ** Further properties of the audio-graph reconciliation *)

Module ReconcilerLaws.
Import ReconcilerFacts.

Lemma disposeStale_log (liveIds : gset string) (entries : list (string * EmitterAudioNode))
    (refs : AudioRefs) :
  exists ops,
    deviceLog (disposeStale liveIds entries refs) = deviceLog refs ++ ops
    /\ (forall op, In op ops <->
          exists k, op = OpDispose k /\ (k ∉ liveIds) /\ In k (map fst entries)).
Proof.
  revert refs. induction entries as [| [id node] rest IH]; intros refs; simpl.
  - exists []. rewrite app_nil_r. split; [reflexivity |].
    intros op. split; [intros [] | intros (k & _ & _ & [])].
  - destruct (bool_decide (id ∈ liveIds)) eqn:Hid.
    + apply bool_decide_eq_true in Hid.
      destruct (IH refs) as (ops & Hlog & Hops). exists ops. split; [exact Hlog |].
      intros op. rewrite Hops. split.
      * intros (k & -> & Hk & Hin). exists k. auto.
      * intros (k & -> & Hk & [<- | Hin]); [contradiction |]. exists k. auto.
    + apply bool_decide_eq_false in Hid.
      destruct (IH (withNodes refs (delete id (emitterNodesRef refs)) (OpDispose id)))
        as (ops & Hlog & Hops).
      exists (OpDispose id :: ops). split.
      * rewrite Hlog. simpl. rewrite <- app_assoc. reflexivity.
      * intros op. simpl. rewrite Hops. split.
        -- intros [<- | (k & -> & Hk & Hin)]; [exists id; auto | exists k; auto].
        -- intros (k & -> & Hk & [<- | Hin]); [left; reflexivity | right; exists k; auto].
Qed.

Lemma syncEmitters_ops (listener : ListenerPose) (collisionZones : list CollisionZone)
    (walls : list Wall) (emitters : list SoundEmitter) (refs : AudioRefs) (master : GainStage) :
  masterGainRef refs = Some master ->
  exists refs' ops,
    syncEmitters listener collisionZones walls emitters refs = Returned refs'
    /\ deviceLog refs' = deviceLog refs ++ ops
    /\ (forall k, ~ In (OpDispose k) ops)
    /\ (forall k, In (OpCreate k) ops <->
          In k (map em_id emitters) /\ emitterNodesRef refs !! k = None)
    /\ (forall k, is_Some (emitterNodesRef refs' !! k)
                  <-> is_Some (emitterNodesRef refs !! k) \/ In k (map em_id emitters)).
Proof.
  revert refs. induction emitters as [| emitter rest IH]; intros refs Hmaster.
  - exists refs, []. simpl. rewrite app_nil_r.
    split; [reflexivity |]. split; [reflexivity |]. split; [auto |].
    split; [intros k; split; [intros [] | intros [[] _]] |].
    intros k. split; [auto | intros [H | []]; exact H].
  - simpl. destruct (emitterNodesRef refs !! em_id emitter) as [existing |] eqn:Hlook.
    + set (refs1 := withNodes refs
             (<[em_id emitter := retarget listener collisionZones walls emitter existing]>
                (emitterNodesRef refs)) (OpRetarget (em_id emitter))).
      destruct (IH refs1 Hmaster) as (refs' & ops & Hrun & Hlog & Hnod & Hcre & Hdom).
      exists refs', (OpRetarget (em_id emitter) :: ops).
      split; [exact Hrun |].
      split; [rewrite Hlog; simpl; rewrite <- app_assoc; reflexivity |].
      split; [intros k [Habs | Hin]; [discriminate | exact (Hnod k Hin)] |].
      split.
      * intros k. simpl. rewrite Hcre. simpl. rewrite lookup_insert.
        destruct (decide (em_id emitter = k)) as [<- | Hne].
        -- split; [intros [Habs | [_ Habs]]; discriminate | intros [_ Habs]; congruence].
        -- split; [intros [Habs | [Hin Hnone]]; [discriminate | auto] |].
           intros [[Heq | Hin] Hnone]; [contradiction | auto].
      * intros k. rewrite Hdom. simpl. rewrite lookup_insert.
        destruct (decide (em_id emitter = k)) as [<- | Hne].
        -- split; [intros _; left; rewrite Hlook; eauto | intros _; left; eauto].
        -- tauto.
    + unfold createEmitterNode. rewrite Hmaster.
      set (node := {| oscillator_type := em_waveform emitter;
                      oscillator_frequency := em_frequency emitter;
                      gain_gain := em_gain emitter;
                      filter_frequency := 6200;
                      filter_Q := 0.6;
                      panner_position := (em_x emitter, em_y emitter, em_z emitter) |}).
      set (refs1 := withNodes refs (<[em_id emitter := node]> (emitterNodesRef refs))
                      (OpCreate (em_id emitter))).
      destruct (IH refs1 Hmaster) as (refs' & ops & Hrun & Hlog & Hnod & Hcre & Hdom).
      exists refs', (OpCreate (em_id emitter) :: ops).
      split; [exact Hrun |].
      split; [rewrite Hlog; simpl; rewrite <- app_assoc; reflexivity |].
      split; [intros k [Habs | Hin]; [discriminate | exact (Hnod k Hin)] |].
      split.
      * intros k. simpl. rewrite Hcre. simpl. rewrite lookup_insert.
        destruct (decide (em_id emitter = k)) as [<- | Hne].
        -- split; [intros _; auto | intros _; left; reflexivity].
        -- split; [intros [Habs | [Hin Hnone]]; [congruence | auto] |].
           intros [[Heq | Hin] Hnone]; [contradiction | auto].
      * intros k. rewrite Hdom. simpl. rewrite lookup_insert.
        destruct (decide (em_id emitter = k)) as [<- | Hne].
        -- split; [intros _; right; left; reflexivity | intros _; left; eauto].
        -- split; [intros [H | H]; auto | intros [H | [H | H]]; auto; contradiction].
Qed.

Lemma reconnect_ops (listener : ListenerPose) (emitters : list SoundEmitter)
    (collisionZones : list CollisionZone) (walls : list Wall) (refs : AudioRefs)
    (context : AudioContext) (master : GainStage) :
  audioContextRef refs = Some context ->
  masterGainRef refs = Some master ->
  exists refs' ops,
    reconnectAudioEmitters true listener emitters collisionZones walls refs = Returned refs'
    /\ deviceLog refs' = deviceLog refs ++ ops
    /\ (forall k, In (OpDispose k) ops <->
          is_Some (emitterNodesRef refs !! k) /\ ~ In k (map em_id emitters))
    /\ (forall k, In (OpCreate k) ops <->
          In k (map em_id emitters) /\ emitterNodesRef refs !! k = None)
    /\ (forall k, is_Some (emitterNodesRef refs' !! k) <-> In k (map em_id emitters)).
Proof.
  intros Hctx Hmaster.
  destruct (reconnect_returns listener emitters collisionZones walls refs context master
              Hctx Hmaster) as (refs1 & Hrun1 & _ & _ & Hunits).
  unfold reconnectAudioEmitters in *. rewrite Hctx in *. simpl in *.
  set (liveIds := list_to_set (map em_id emitters) : gset string) in *.
  set (refs0 := disposeStale liveIds (map_to_list (emitterNodesRef refs)) refs) in *.
  destruct (disposeStale_log liveIds (map_to_list (emitterNodesRef refs)) refs)
    as (ops0 & Hlog0 & Hops0). fold refs0 in Hlog0.
  destruct (disposeStale_refs liveIds (map_to_list (emitterNodesRef refs)) refs) as [_ Hm0].
  fold refs0 in Hm0.
  destruct (syncEmitters_ops listener collisionZones walls emitters refs0 master)
    as (refs' & ops & Hrun & Hlog & Hnod & Hcre & _).
  { rewrite Hm0. exact Hmaster. }
  assert (refs1 = refs') by congruence. subst refs1.
  exists refs', (ops0 ++ ops).
  split; [exact Hrun |].
  split; [rewrite Hlog, Hlog0, <- app_assoc; reflexivity |].
  split; [| split; [| exact Hunits]].
  - intros k. rewrite in_app_iff. split.
    + intros [Hin | Hin]; [| exfalso; exact (Hnod k Hin)].
      apply Hops0 in Hin. destruct Hin as (k' & Heq & Hdead & Hkey).
      injection Heq as <-. split; [apply entries_keys; exact Hkey |].
      intros Hlive. apply Hdead. apply liveIds_spec. exact Hlive.
    + intros [Hsome Hdead]. left. apply Hops0. exists k.
      split; [reflexivity |]. split; [| apply entries_keys; exact Hsome].
      intros Hlive. apply Hdead. apply liveIds_spec. exact Hlive.
  - intros k. rewrite in_app_iff. split.
    + intros [Hin | Hin].
      * apply Hops0 in Hin. destruct Hin as (k' & Heq & _). discriminate.
      * apply Hcre in Hin. destruct Hin as [Hlive Hnone]. split; [exact Hlive |].
        unfold refs0 in Hnone. rewrite disposeStale_live in Hnone; [exact Hnone |].
        apply liveIds_spec. exact Hlive.
    + intros [Hlive Hnone]. right. apply Hcre. split; [exact Hlive |].
      unfold refs0. rewrite disposeStale_live; [exact Hnone |].
      apply liveIds_spec. exact Hlive.
Qed.

(** X14.  With the audio subsystem started, one reconciliation run disposes
    exactly the units whose id is no longer live, creates a unit exactly for
    the live ids that had none, and ends with units for exactly the live
    ids. *)
Theorem reconcile_disposes_stale_creates_missing (listener : ListenerPose)
    (emitters : list SoundEmitter) (collisionZones : list CollisionZone) (walls : list Wall)
    (refs : AudioRefs) (context : AudioContext) (master : GainStage) :
  audioContextRef refs = Some context ->
  masterGainRef refs = Some master ->
  exists refs' ops,
    reconnectAudioEmitters true listener emitters collisionZones walls refs = Returned refs'
    /\ deviceLog refs' = deviceLog refs ++ ops
    /\ (forall k, In (OpDispose k) ops <->
          is_Some (emitterNodesRef refs !! k) /\ ~ In k (map em_id emitters))
    /\ (forall k, In (OpCreate k) ops <->
          In k (map em_id emitters) /\ emitterNodesRef refs !! k = None)
    /\ (forall k, is_Some (emitterNodesRef refs' !! k) <-> In k (map em_id emitters)).
Proof. apply reconnect_ops. Qed.

Lemma reconcile_disposes_stale_creates_missing_witness :
  audioContextRef startedRefs = Some Context
  /\ masterGainRef startedRefs = Some (mkGainStage 0.82)
  /\ exists refs' ops,
       reconnectAudioEmitters true INITIAL_LISTENER INITIAL_EMITTERS INITIAL_ZONES INITIAL_WALLS
         startedRefs = Returned refs'
       /\ deviceLog refs' = deviceLog startedRefs ++ ops
       /\ (forall k, In (OpCreate k) ops <->
             In k (map em_id INITIAL_EMITTERS) /\ emitterNodesRef startedRefs !! k = None).
Proof.
  split; [reflexivity | split; [reflexivity |]].
  destruct (reconcile_disposes_stale_creates_missing INITIAL_LISTENER INITIAL_EMITTERS
              INITIAL_ZONES INITIAL_WALLS startedRefs Context (mkGainStage 0.82)
              eq_refl eq_refl) as (refs' & ops & Hrun & Hlog & _ & Hcre & _).
  exists refs', ops. auto.
Defined.

Lemma removeEmitter_ids (id k : string) (emitters : list SoundEmitter) :
  In k (map em_id (removeEmitter id emitters)) <-> In k (map em_id emitters) /\ k <> id.
Proof.
  unfold removeEmitter. rewrite !in_map_iff. split.
  - intros (e & <- & Hin). apply list_elem_of_In, list_elem_of_filter in Hin.
    destruct Hin as [Hne Hin]. split; [| exact Hne].
    exists e. split; [reflexivity | apply list_elem_of_In; exact Hin].
  - intros [(e & <- & Hin) Hne]. exists e. split; [reflexivity |].
    apply list_elem_of_In, list_elem_of_filter. split; [exact Hne |].
    apply list_elem_of_In. exact Hin.
Qed.

(** X15.  Removing an emitter releases its unit: if a unit exists for the
    removed id, the next reconciliation over the remaining emitters disposes
    it, and afterwards the units are exactly those of the emitters whose id
    is not the removed one. *)
Theorem removed_emitter_is_disposed (id : string) (listener : ListenerPose)
    (emitters : list SoundEmitter) (collisionZones : list CollisionZone) (walls : list Wall)
    (refs : AudioRefs) (context : AudioContext) (master : GainStage) :
  audioContextRef refs = Some context ->
  masterGainRef refs = Some master ->
  is_Some (emitterNodesRef refs !! id) ->
  exists refs' ops,
    reconnectAudioEmitters true listener (removeEmitter id emitters) collisionZones walls refs
      = Returned refs'
    /\ deviceLog refs' = deviceLog refs ++ ops
    /\ In (OpDispose id) ops
    /\ emitterNodesRef refs' !! id = None
    /\ (forall k, is_Some (emitterNodesRef refs' !! k)
                  <-> In k (map em_id emitters) /\ k <> id).
Proof.
  intros Hctx Hmaster Hunit.
  destruct (reconnect_ops listener (removeEmitter id emitters) collisionZones walls refs
              context master Hctx Hmaster) as (refs' & ops & Hrun & Hlog & Hdis & _ & Hunits).
  exists refs', ops. split; [exact Hrun |]. split; [exact Hlog |].
  assert (Hgone : ~ In id (map em_id (removeEmitter id emitters))).
  { rewrite removeEmitter_ids. tauto. }
  split; [apply Hdis; auto |]. split.
  - destruct (emitterNodesRef refs' !! id) eqn:E; [| reflexivity].
    exfalso. apply Hgone. apply Hunits. eauto.
  - intros k. rewrite Hunits. apply removeEmitter_ids.
Qed.

Lemma removed_emitter_is_disposed_witness :
  is_Some (emitterNodesRef oneUnitRefs !! "emitter-1")
  /\ exists refs' ops,
       reconnectAudioEmitters true INITIAL_LISTENER (removeEmitter "emitter-1" INITIAL_EMITTERS)
         INITIAL_ZONES INITIAL_WALLS oneUnitRefs = Returned refs'
       /\ deviceLog refs' = deviceLog oneUnitRefs ++ ops
       /\ In (OpDispose "emitter-1") ops
       /\ emitterNodesRef refs' !! "emitter-1" = None.
Proof.
  assert (Hunit : is_Some (emitterNodesRef oneUnitRefs !! "emitter-1")).
  { simpl. rewrite lookup_singleton_eq. eauto. }
  split; [exact Hunit |].
  destruct (removed_emitter_is_disposed "emitter-1" INITIAL_LISTENER INITIAL_EMITTERS
              INITIAL_ZONES INITIAL_WALLS oneUnitRefs Context (mkGainStage 0.82)
              eq_refl eq_refl Hunit) as (refs' & ops & Hrun & Hlog & Hdis & Hgone & _).
  exists refs', ops. auto.
Defined.

Lemma syncEmitters_unwired (listener : ListenerPose) (collisionZones : list CollisionZone)
    (walls : list Wall) (emitters : list SoundEmitter) (refs : AudioRefs) :
  masterGainRef refs = None ->
  (exists refs',
     syncEmitters listener collisionZones walls emitters refs
     = Thrown "Audio routing is not initialized." refs'
     /\ exists emitter, In emitter emitters /\ emitterNodesRef refs !! em_id emitter = None)
  \/ (exists refs',
        syncEmitters listener collisionZones walls emitters refs = Returned refs'
        /\ forall emitter, In emitter emitters -> is_Some (emitterNodesRef refs !! em_id emitter)).
Proof.
  revert refs. induction emitters as [| emitter rest IH]; intros refs Hmaster; simpl.
  - right. exists refs. split; [reflexivity | intros e []].
  - destruct (emitterNodesRef refs !! em_id emitter) as [existing |] eqn:Hlook.
    + set (refs1 := withNodes refs
             (<[em_id emitter := retarget listener collisionZones walls emitter existing]>
                (emitterNodesRef refs)) (OpRetarget (em_id emitter))).
      assert (Hsame : forall k, emitterNodesRef refs1 !! k = None
                                <-> emitterNodesRef refs !! k = None).
      { intros k. simpl. rewrite lookup_insert.
        destruct (decide (em_id emitter = k)) as [<- | Hne]; [| reflexivity].
        rewrite Hlook. split; discriminate. }
      destruct (IH refs1 Hmaster) as [(refs' & Hrun & e & Hin & Hnone)
                                     | (refs' & Hrun & Hall)].
      * left. exists refs'. split; [exact Hrun |]. exists e.
        split; [right; exact Hin | apply Hsame; exact Hnone].
      * right. exists refs'. split; [exact Hrun |].
        intros e [<- | Hin]; [rewrite Hlook; eauto |].
        specialize (Hall e Hin).
        destruct (emitterNodesRef refs !! em_id e) eqn:E; [eauto |].
        apply Hsame in E. rewrite E in Hall. destruct Hall; discriminate.
    + unfold createEmitterNode. rewrite Hmaster. left. exists refs.
      split; [reflexivity |]. exists emitter. split; [left; reflexivity | exact Hlook].
Qed.

(** X16.  The only failure of a reconciliation run is "Audio routing is not
    initialized.": with a context and audio running, the run throws exactly
    when the master gain stage is missing and some live emitter has no unit
    yet; otherwise it returns.  After a [getAudioContext()] that returns, on
    refs whose master is present whenever their context is, the master is
    present, so no run throws. *)
Theorem reconcile_throws_only_unwired (running : bool) (listener : ListenerPose)
    (emitters : list SoundEmitter) (collisionZones : list CollisionZone) (walls : list Wall)
    (refs : AudioRefs) :
  let run := reconnectAudioEmitters running listener emitters collisionZones walls in
  (forall message refs', run refs = Thrown message refs' ->
     message = "Audio routing is not initialized.")
  /\ ((exists message refs', run refs = Thrown message refs')
      <-> is_Some (audioContextRef refs) /\ running = true /\ masterGainRef refs = None
          /\ exists emitter, In emitter emitters
                             /\ emitterNodesRef refs !! em_id emitter = None)
  /\ ((audioContextRef refs = None \/ is_Some (masterGainRef refs)) ->
      exists refs', run (getAudioContext refs) = Returned refs').
Proof.
  cbv zeta.
  assert (Hlive : forall e, In e emitters ->
    emitterNodesRef (disposeStale (list_to_set (map em_id emitters))
                       (map_to_list (emitterNodesRef refs)) refs) !! em_id e
    = emitterNodesRef refs !! em_id e).
  { intros e Hin. apply disposeStale_live. apply liveIds_spec. apply in_map. exact Hin. }
  assert (Hwired : forall r m, masterGainRef r = Some m ->
    exists r', reconnectAudioEmitters running listener emitters collisionZones walls r
               = Returned r').
  { intros r m Hm. unfold reconnectAudioEmitters.
    destruct (audioContextRef r); [| eauto]. destruct running; simpl; [| eauto].
    destruct (syncEmitters_returns listener collisionZones walls emitters
                (disposeStale (list_to_set (map em_id emitters))
                   (map_to_list (emitterNodesRef r)) r) m) as (r' & _ & Hrun & _).
    - rewrite (proj2 (disposeStale_refs _ _ r)). exact Hm.
    - eauto. }
  assert (Hcases : forall message refs',
    reconnectAudioEmitters running listener emitters collisionZones walls refs
    = Thrown message refs' ->
    message = "Audio routing is not initialized."
    /\ is_Some (audioContextRef refs) /\ running = true /\ masterGainRef refs = None
    /\ exists emitter, In emitter emitters /\ emitterNodesRef refs !! em_id emitter = None).
  { intros message refs' Hrun.
    destruct (masterGainRef refs) as [m |] eqn:Hm.
    { destruct (Hwired refs m Hm) as (r' & Hret). congruence. }
    unfold reconnectAudioEmitters in Hrun.
    destruct (audioContextRef refs) as [c |]; [| discriminate].
    destruct running; simpl in Hrun; [| discriminate].
    destruct (syncEmitters_unwired listener collisionZones walls emitters
                (disposeStale (list_to_set (map em_id emitters))
                   (map_to_list (emitterNodesRef refs)) refs))
      as [(r' & Hthrow & e & Hin & Hnone) | (r' & Hret & _)].
    - rewrite (proj2 (disposeStale_refs _ _ refs)). exact Hm.
    - rewrite Hthrow in Hrun. injection Hrun as <- <-.
      split; [reflexivity |]. split; [eauto |]. split; [reflexivity |].
      split; [reflexivity |]. exists e. split; [exact Hin |].
      rewrite <- Hlive by exact Hin. exact Hnone.
    - congruence. }
  split; [intros message refs' Hrun; apply (Hcases message refs' Hrun) |]. split.
  - split.
    + intros (message & refs' & Hrun). apply (Hcases message refs' Hrun).
    + intros ([c Hc] & -> & Hm & e & Hin & Hnone).
      unfold reconnectAudioEmitters. rewrite Hc. simpl.
      destruct (syncEmitters_unwired listener collisionZones walls emitters
                  (disposeStale (list_to_set (map em_id emitters))
                     (map_to_list (emitterNodesRef refs)) refs))
        as [(r' & Hthrow & _) | (r' & _ & Hall)].
      * rewrite (proj2 (disposeStale_refs _ _ refs)). exact Hm.
      * eauto.
      * specialize (Hall e Hin). rewrite Hlive in Hall by exact Hin.
        rewrite Hnone in Hall. destruct Hall; discriminate.
  - intros Hinv. unfold getAudioContext.
    destruct (audioContextRef refs) as [c |] eqn:Hc.
    + destruct Hinv as [Habs | [m Hm]]; [discriminate |]. apply (Hwired refs m Hm).
    + eapply Hwired. reflexivity.
Qed.

Lemma reconcile_throws_only_unwired_witness :
  (audioContextRef idleRefs = None \/ is_Some (masterGainRef idleRefs))
  /\ (exists refs',
        reconnectAudioEmitters true INITIAL_LISTENER INITIAL_EMITTERS INITIAL_ZONES
          INITIAL_WALLS (getAudioContext idleRefs) = Returned refs')
  /\ exists message refs',
       reconnectAudioEmitters true INITIAL_LISTENER INITIAL_EMITTERS INITIAL_ZONES
         INITIAL_WALLS unwiredRefs = Thrown message refs'.
Proof.
  assert (Hinv : audioContextRef idleRefs = None \/ is_Some (masterGainRef idleRefs))
    by (left; reflexivity).
  split; [exact Hinv |]. split.
  - destruct (reconcile_throws_only_unwired true INITIAL_LISTENER INITIAL_EMITTERS
                INITIAL_ZONES INITIAL_WALLS idleRefs) as (_ & _ & Hok).
    exact (Hok Hinv).
  - destruct (reconcile_throws_only_unwired true INITIAL_LISTENER INITIAL_EMITTERS
                INITIAL_ZONES INITIAL_WALLS unwiredRefs) as (_ & Hiff & _).
    apply Hiff. split; [simpl; eauto |]. split; [reflexivity |]. split; [reflexivity |].
    exists (mkSoundEmitter "emitter-1" "Drone A" (-6) 5 0 470 0.16 Triangle "#0f8c7c" true
              0.9 (-0.55)).
    split; [left; reflexivity | reflexivity].
Defined.

(** X17.  Starting and pausing.  [startAudio] never lets an error escape:
    when the audio constructor is missing or the resume is rejected, the
    running flag and the listener node keep their values and the status
    shows the message: "Web Audio API is unavailable in this browser." for a
    missing constructor, the error's own message for a resume rejected with
    an [Error], "Unable to start audio." for any other rejection.  When it
    succeeds, the status is "Audio active. Use earbuds and keep volume
    low."; from refs whose master is present whenever their context is, the
    audio is then running and the following reconciliation returns with
    units for exactly the live emitter ids.  After [stopAudio] the audio is
    not running, the status is "Audio paused." when a context exists and
    unchanged otherwise, and the reconciliation effect leaves the refs
    untouched. *)
Theorem start_reconcile_stop (audioCtor : bool) (resume : Resume) (listener : ListenerPose)
    (emitters : list SoundEmitter) (collisionZones : list CollisionZone) (walls : list Wall)
    (c : AudioControl) :
  let started := startAudio audioCtor resume listener c in
  (audioContextRef (ac_refs c) = None -> audioCtor = false ->
   started = {| ac_refs := ac_refs c; ac_audioRunning := ac_audioRunning c;
                ac_status := "Web Audio API is unavailable in this browser.";
                ac_listenerNode := ac_listenerNode c |})
  /\ (resume <> Resumed -> ac_audioRunning started = ac_audioRunning c
                           /\ ac_listenerNode started = ac_listenerNode c)
  /\ (resume = RejectedOther -> (audioCtor = true \/ is_Some (audioContextRef (ac_refs c))) ->
      ac_status started = "Unable to start audio.")
  /\ (forall message, resume = RejectedWith message ->
      (audioCtor = true \/ is_Some (audioContextRef (ac_refs c))) ->
      ac_status started = message)
  /\ (resume = Resumed -> (audioCtor = true \/ is_Some (audioContextRef (ac_refs c))) ->
      ac_status started = "Audio active. Use earbuds and keep volume low.")
  /\ (audioContextRef (ac_refs c) = None -> audioCtor = false ->
      ac_status started = "Web Audio API is unavailable in this browser.")
  /\ ((audioContextRef (ac_refs c) = None \/ is_Some (masterGainRef (ac_refs c))) ->
      (audioCtor = true \/ is_Some (audioContextRef (ac_refs c))) ->
      resume = Resumed ->
      ac_audioRunning started = true
      /\ ac_listenerNode started = setListenerAudioPose (ac_listenerNode c) listener
      /\ exists refs',
           reconcileEffect listener emitters collisionZones walls started = Returned refs'
           /\ (forall id, is_Some (emitterNodesRef refs' !! id) <-> In id (map em_id emitters)))
  /\ (ac_audioRunning (stopAudio c) = false
      /\ ac_refs (stopAudio c) = ac_refs c
      /\ ac_listenerNode (stopAudio c) = ac_listenerNode c
      /\ (is_Some (audioContextRef (ac_refs c)) -> ac_status (stopAudio c) = "Audio paused.")
      /\ (audioContextRef (ac_refs c) = None -> ac_status (stopAudio c) = ac_status c)
      /\ reconcileEffect listener emitters collisionZones walls (stopAudio c)
         = Returned (ac_refs c)).
Proof.
  cbv zeta. split; [| split; [| split; [| split; [| split; [| split; [| split]]]]]].
  - intros Hctx ->. unfold startAudio, getAudioContextIn. rewrite Hctx. reflexivity.
  - intros Hres. unfold startAudio.
    destruct (getAudioContextIn audioCtor (ac_refs c)); [auto |].
    destruct resume; [contradiction | auto | auto].
  - intros -> Havail. unfold startAudio, getAudioContextIn.
    destruct (audioContextRef (ac_refs c)) as [ctx |]; [reflexivity |].
    destruct Havail as [-> | [ctx Habs]]; [reflexivity | discriminate].
  - intros message -> Havail. unfold startAudio, getAudioContextIn.
    destruct (audioContextRef (ac_refs c)) as [ctx |]; [reflexivity |].
    destruct Havail as [-> | [ctx Habs]]; [reflexivity | discriminate].
  - intros -> Havail. unfold startAudio, getAudioContextIn.
    destruct (audioContextRef (ac_refs c)) as [ctx |]; [reflexivity |].
    destruct Havail as [-> | [ctx Habs]]; [reflexivity | discriminate].
  - intros Hctx ->. unfold startAudio, getAudioContextIn. rewrite Hctx. reflexivity.
  - intros Hinv Havail ->. unfold startAudio, getAudioContextIn.
    assert (Hready : forall refs ctx m,
      audioContextRef refs = Some ctx -> masterGainRef refs = Some m ->
      exists refs',
        reconcileEffect listener emitters collisionZones walls
          {| ac_refs := refs; ac_audioRunning := true;
             ac_status := "Audio active. Use earbuds and keep volume low.";
             ac_listenerNode := setListenerAudioPose (ac_listenerNode c) listener |}
        = Returned refs'
        /\ (forall id, is_Some (emitterNodesRef refs' !! id) <-> In id (map em_id emitters))).
    { intros refs ctx m Hc Hm. unfold reconcileEffect. simpl.
      destruct (reconnect_returns listener emitters collisionZones walls refs ctx m Hc Hm)
        as (refs' & Hrun & _ & _ & Hunits).
      exists refs'. split; assumption. }
    destruct (audioContextRef (ac_refs c)) as [ctx |] eqn:Hc.
    + destruct Hinv as [Habs | [m Hm]]; [discriminate |].
      split; [reflexivity |]. split; [reflexivity |]. apply (Hready _ ctx m Hc Hm).
    + destruct Havail as [-> | [ctx Habs]]; [| discriminate].
      split; [reflexivity |]. split; [reflexivity |].
      apply (Hready _ Context (mkGainStage 0.82)); unfold getAudioContext; rewrite Hc;
        reflexivity.
  - unfold stopAudio, reconcileEffect.
    destruct (audioContextRef (ac_refs c)) as [ctx |]; simpl.
    + repeat split; try reflexivity. intros Habs. discriminate.
    + repeat split; try reflexivity. intros [ctx Habs]. discriminate.
Qed.

Lemma start_reconcile_stop_witness :
  (audioContextRef (ac_refs idleControl) = None \/ is_Some (masterGainRef (ac_refs idleControl)))
  /\ ac_audioRunning (startAudio true Resumed INITIAL_LISTENER idleControl) = true
  /\ ac_status (startAudio false Resumed INITIAL_LISTENER idleControl)
     = "Web Audio API is unavailable in this browser."
  /\ ac_status (startAudio true RejectedOther INITIAL_LISTENER idleControl)
     = "Unable to start audio."
  /\ ac_audioRunning (startAudio true (RejectedWith "blocked") INITIAL_LISTENER idleControl)
     = false
  /\ ac_status (startAudio true (RejectedWith "blocked") INITIAL_LISTENER idleControl)
     = "blocked".
Proof.
  assert (Hinv : audioContextRef (ac_refs idleControl) = None
                 \/ is_Some (masterGainRef (ac_refs idleControl))) by (left; reflexivity).
  split; [exact Hinv |]. split; [| split; [| split; [| split]]].
  - destruct (start_reconcile_stop true Resumed INITIAL_LISTENER INITIAL_EMITTERS INITIAL_ZONES
                INITIAL_WALLS idleControl) as (_ & _ & _ & _ & _ & _ & Hok & _).
    exact (proj1 (Hok Hinv (or_introl eq_refl) eq_refl)).
  - destruct (start_reconcile_stop false Resumed INITIAL_LISTENER INITIAL_EMITTERS INITIAL_ZONES
                INITIAL_WALLS idleControl) as (Hmissing & _).
    rewrite (Hmissing eq_refl eq_refl). reflexivity.
  - destruct (start_reconcile_stop true RejectedOther INITIAL_LISTENER INITIAL_EMITTERS
                INITIAL_ZONES INITIAL_WALLS idleControl) as (_ & _ & Hother & _).
    exact (Hother eq_refl (or_introl eq_refl)).
  - destruct (start_reconcile_stop true (RejectedWith "blocked") INITIAL_LISTENER
                INITIAL_EMITTERS INITIAL_ZONES INITIAL_WALLS idleControl) as (_ & Hrej & _).
    assert (Hne : RejectedWith "blocked" <> Resumed) by discriminate.
    exact (proj1 (Hrej Hne)).
  - destruct (start_reconcile_stop true (RejectedWith "blocked") INITIAL_LISTENER
                INITIAL_EMITTERS INITIAL_ZONES INITIAL_WALLS idleControl)
      as (_ & _ & _ & Hmsg & _).
    exact (Hmsg "blocked" eq_refl (or_introl eq_refl)).
Defined.

Lemma syncEmitters_untouched (listener : ListenerPose) (collisionZones : list CollisionZone)
    (walls : list Wall) (emitters : list SoundEmitter) (refs refs' : AudioRefs) (k : string) :
  syncEmitters listener collisionZones walls emitters refs = Returned refs' ->
  ~ In k (map em_id emitters) ->
  emitterNodesRef refs' !! k = emitterNodesRef refs !! k.
Proof.
  revert refs. induction emitters as [| emitter rest IH]; intros refs Hrun Hk; simpl in *.
  - injection Hrun as <-. reflexivity.
  - destruct (emitterNodesRef refs !! em_id emitter) as [existing |].
    + rewrite (IH _ Hrun) by tauto. simpl. apply lookup_insert_ne. tauto.
    + destruct (createEmitterNode (masterGainRef refs) emitter); [| discriminate].
      rewrite (IH _ Hrun) by tauto. simpl. apply lookup_insert_ne. tauto.
Qed.

Lemma syncEmitters_unit (listener : ListenerPose) (collisionZones : list CollisionZone)
    (walls : list Wall) (emitters : list SoundEmitter) (refs refs' : AudioRefs)
    (emitter : SoundEmitter) :
  syncEmitters listener collisionZones walls emitters refs = Returned refs' ->
  List.NoDup (map em_id emitters) ->
  In emitter emitters ->
  emitterNodesRef refs' !! em_id emitter
  = match emitterNodesRef refs !! em_id emitter with
    | Some existing => Some (retarget listener collisionZones walls emitter existing)
    | None => createEmitterNode (masterGainRef refs) emitter
    end.
Proof.
  revert refs. induction emitters as [| e rest IH]; intros refs Hrun Hnd Hin; simpl in *.
  - destruct Hin.
  - inversion Hnd as [| ? ? Hfresh Hnd']; subst.
    destruct Hin as [-> | Hin].
    + destruct (emitterNodesRef refs !! em_id emitter) as [existing |].
      * rewrite (syncEmitters_untouched _ _ _ _ _ _ _ Hrun Hfresh). simpl.
        apply lookup_insert_eq.
      * destruct (createEmitterNode (masterGainRef refs) emitter) as [node |] eqn:Hnode;
          [| discriminate].
        rewrite (syncEmitters_untouched _ _ _ _ _ _ _ Hrun Hfresh). simpl.
        apply lookup_insert_eq.
    + assert (Hne : em_id e <> em_id emitter).
      { intros Heq. apply Hfresh. rewrite Heq. apply in_map. exact Hin. }
      destruct (emitterNodesRef refs !! em_id e) as [existing |].
      * rewrite (IH _ Hrun Hnd' Hin). simpl. rewrite lookup_insert_ne by exact Hne.
        reflexivity.
      * destruct (createEmitterNode (masterGainRef refs) e) as [node |]; [| discriminate].
        rewrite (IH _ Hrun Hnd' Hin). simpl. rewrite lookup_insert_ne by exact Hne.
        reflexivity.
Qed.

(** X18.  What a run writes to a unit, when the emitter ids are distinct.
    A unit created in the run starts at the emitter's base parameters: base
    frequency, base gain, cutoff 6200, Q 0.6, the emitter's position; it
    receives no Doppler or occlusion target in that run.  A unit that existed
    is retargeted: the observed frequency, the gain (times 0.72 when
    occluded), the cutoff 1500 when occluded and 7600 otherwise, the
    emitter's waveform and position, Q left as it was. *)
Theorem reconcile_unit_parameters (listener : ListenerPose) (emitters : list SoundEmitter)
    (collisionZones : list CollisionZone) (walls : list Wall) (refs : AudioRefs)
    (context : AudioContext) (master : GainStage) (emitter : SoundEmitter) :
  audioContextRef refs = Some context ->
  masterGainRef refs = Some master ->
  List.NoDup (map em_id emitters) ->
  In emitter emitters ->
  exists refs',
    reconnectAudioEmitters true listener emitters collisionZones walls refs = Returned refs'
    /\ emitterNodesRef refs' !! em_id emitter
       = match emitterNodesRef refs !! em_id emitter with
         | None =>
             Some (mkEmitterAudioNode (em_waveform emitter) (em_frequency emitter)
                     (em_gain emitter) 6200 0.6 (em_x emitter, em_y emitter, em_z emitter))
         | Some existing =>
             let occluded := occlusion listener emitter collisionZones walls in
             Some (mkEmitterAudioNode (em_waveform emitter) (observedFreq listener emitter)
                     (if occluded then em_gain emitter * 0.72 else em_gain emitter)
                     (if occluded then 1500 else 7600) (filter_Q existing)
                     (em_x emitter, em_y emitter, em_z emitter))
         end.
Proof.
  intros Hctx Hmaster Hnd Hin.
  destruct (reconnect_returns listener emitters collisionZones walls refs context master
              Hctx Hmaster) as (refs' & Hrun & _).
  exists refs'. split; [exact Hrun |].
  unfold reconnectAudioEmitters in Hrun. rewrite Hctx in Hrun. simpl in Hrun.
  rewrite (syncEmitters_unit _ _ _ _ _ _ _ Hrun Hnd Hin).
  rewrite (proj2 (disposeStale_refs _ _ refs)), Hmaster.
  rewrite disposeStale_live by (apply liveIds_spec; apply in_map; exact Hin).
  destruct (emitterNodesRef refs !! em_id emitter); reflexivity.
Qed.

Lemma reconcile_unit_parameters_witness :
  List.NoDup (map em_id INITIAL_EMITTERS)
  /\ exists refs',
       reconnectAudioEmitters true INITIAL_LISTENER INITIAL_EMITTERS INITIAL_ZONES INITIAL_WALLS
         startedRefs = Returned refs'
       /\ emitterNodesRef refs' !! "emitter-2"
          = Some (mkEmitterAudioNode Sine 690 0.14 6200 0.6 (4.8, 0.3, -5.2)).
Proof.
  assert (Hnd : List.NoDup (map em_id INITIAL_EMITTERS)).
  { simpl. repeat constructor; simpl; intuition discriminate. }
  split; [exact Hnd |].
  destruct (reconcile_unit_parameters INITIAL_LISTENER INITIAL_EMITTERS INITIAL_ZONES
              INITIAL_WALLS startedRefs Context (mkGainStage 0.82)
              (mkSoundEmitter "emitter-2" "Beacon B" 4.8 (-5.2) 0.3 690 0.14 Sine "#df7c20"
                 false 0 0) eq_refl eq_refl Hnd) as (refs' & Hrun & Hunit).
  { right; left; reflexivity. }
  exists refs'. split; [exact Hrun | exact Hunit].
Defined.

Lemma dispose_ops_NoDup (ids : list string) :
  List.NoDup ids -> List.NoDup (map OpDispose ids).
Proof.
  induction 1 as [| id ids Hfresh Hnd IH]; simpl; constructor; [| exact IH].
  intros Hin. apply in_map_iff in Hin. destruct Hin as (k & Heq & Hk).
  injection Heq as ->. contradiction.
Qed.

(** X19.  Unmounting disposes every unit exactly once and empties the unit
    map; [close()] is requested exactly when a context exists.  The context
    ref is not cleared, so a second unmount disposes nothing but requests
    [close()] again. *)
Theorem unmount_disposes_every_unit (refs : AudioRefs) :
  let first := unmount refs in
  let second := unmount (fst first) in
  emitterNodesRef (fst first) = ∅
  /\ (exists ops,
        deviceLog (fst first) = deviceLog refs ++ ops
        /\ List.NoDup ops
        /\ forall op, In op ops
                      <-> exists k, op = OpDispose k /\ is_Some (emitterNodesRef refs !! k))
  /\ (snd first = true <-> is_Some (audioContextRef refs))
  /\ deviceLog (fst second) = deviceLog (fst first)
  /\ snd second = snd first.
Proof.
  cbv zeta. unfold unmount. simpl.
  split; [reflexivity |]. split; [| split; [| split]].
  - exists (map (fun entry => OpDispose (fst entry)) (map_to_list (emitterNodesRef refs))).
    split; [reflexivity |]. split.
    + rewrite <- (map_map fst OpDispose). apply dispose_ops_NoDup.
      apply NoDup_ListNoDup. apply (NoDup_fst_map_to_list (emitterNodesRef refs)).
    + intros op. rewrite in_map_iff. split.
      * intros ([k node] & <- & Hin). exists k. split; [reflexivity |].
        apply entries_keys. apply in_map_iff. exists (k, node). auto.
      * intros (k & -> & Hsome). apply entries_keys in Hsome.
        apply in_map_iff in Hsome. destruct Hsome as (entry & <- & Hin).
        exists entry. auto.
  - apply bool_decide_eq_true.
  - rewrite map_to_list_empty. simpl. rewrite app_nil_r. reflexivity.
  - reflexivity.
Qed.

End ReconcilerLaws.

(** ** Further properties of the entity commands *)

Module CommandLaws.
Import NumFacts CollisionFacts CommandFacts.

Lemma append_prefix_inj (prefix a b : string) : prefix +:+ a = prefix +:+ b -> a = b.
Proof.
  induction prefix as [| c prefix IH]; simpl; intros H; [exact H |].
  injection H as H. apply IH. exact H.
Qed.

Lemma numbered_fresh (prefix : string) (counter : nat) (ids : list string) :
  numbered prefix counter ids -> ~ In (prefix +:+ pretty counter) ids.
Proof.
  intros Hnum Hin. destruct (Hnum _ Hin) as (k & Hk & Heq).
  apply append_prefix_inj in Heq. apply (inj pretty) in Heq. lia.
Qed.

Lemma numbered_snoc (prefix : string) (counter : nat) (ids : list string) :
  numbered prefix counter ids -> List.NoDup ids ->
  numbered prefix (S counter) (ids ++ [prefix +:+ pretty counter])
  /\ List.NoDup (ids ++ [prefix +:+ pretty counter]).
Proof.
  intros Hnum Hnd. split.
  - intros id Hin. apply in_app_iff in Hin. destruct Hin as [Hin | [<- | []]].
    + destruct (Hnum id Hin) as (k & Hk & Heq). exists k. split; [lia | exact Heq].
    + exists counter. split; [lia | reflexivity].
  - apply NoDup_ListNoDup. apply NoDup_app. split; [apply NoDup_ListNoDup; exact Hnd |].
    split; [| apply NoDup_singleton].
    intros id Hin Hnew. apply list_elem_of_In in Hin.
    apply list_elem_of_In in Hnew. destruct Hnew as [<- | []].
    exact (numbered_fresh prefix counter ids Hnum Hin).
Qed.

Lemma NoDup_filter_ids {A : Type} (f : A -> string) (id : string) (l : list A) :
  List.NoDup (map f l) -> List.NoDup (map f (filter (fun a => f a ≠ id) l)).
Proof.
  induction l as [| a l IH]; simpl; intros Hnd; [constructor |].
  inversion Hnd as [| ? ? Hfresh Hnd']; subst.
  rewrite filter_cons. destruct (decide (f a ≠ id)); [| apply IH; exact Hnd'].
  simpl. constructor; [| apply IH; exact Hnd'].
  intros Hin. apply Hfresh. apply in_map_iff in Hin. destruct Hin as (b & Heq & Hb).
  apply in_map_iff. exists b. split; [exact Heq |].
  apply list_elem_of_In. apply list_elem_of_In in Hb. apply list_elem_of_filter in Hb. tauto.
Qed.

(** X20.  Fresh ids.  While the ids of a collection are its prefix followed
    by numbers below the counter, and are distinct, an add operation appends
    one entity whose id is the prefix followed by the counter, increments the
    counter, and keeps both properties; removing an emitter keeps them too.
    So no two entities of a collection ever share an id. *)
Theorem ids_stay_distinct (rnd : nat -> R) (counter : nat) (x z : R) (id : string)
    (emitters : list SoundEmitter) (zones : list CollisionZone) (walls : list Wall) :
  (numbered "emitter-" counter (map em_id emitters) -> List.NoDup (map em_id emitters) ->
   let '(emitters', counter') := addEmitter rnd counter x z emitters in
   counter' = S counter
   /\ map em_id emitters' = map em_id emitters ++ ["emitter-" +:+ pretty counter]
   /\ numbered "emitter-" counter' (map em_id emitters')
   /\ List.NoDup (map em_id emitters')
   /\ numbered "emitter-" counter (map em_id (removeEmitter id emitters))
   /\ List.NoDup (map em_id (removeEmitter id emitters)))
  /\ (numbered "zone-" counter (map zone_id zones) -> List.NoDup (map zone_id zones) ->
      let '(zones', counter') := addZone rnd counter zones in
      counter' = S counter
      /\ map zone_id zones' = map zone_id zones ++ ["zone-" +:+ pretty counter]
      /\ numbered "zone-" counter' (map zone_id zones')
      /\ List.NoDup (map zone_id zones'))
  /\ (numbered "wall-" counter (map wall_id walls) -> List.NoDup (map wall_id walls) ->
      let '(walls', counter') := addWall rnd counter walls in
      counter' = S counter
      /\ map wall_id walls' = map wall_id walls ++ ["wall-" +:+ pretty counter]
      /\ numbered "wall-" counter' (map wall_id walls')
      /\ List.NoDup (map wall_id walls')).
Proof.
  split; [| split].
  - intros Hnum Hnd. unfold addEmitter. cbv zeta.
    rewrite map_app. cbn [map em_id].
    destruct (numbered_snoc "emitter-" counter _ Hnum Hnd) as [Hnum' Hnd'].
    split; [reflexivity |]. split; [reflexivity |]. split; [exact Hnum' |].
    split; [exact Hnd' |]. split.
    + intros k Hin. apply Hnum. apply ReconcilerLaws.removeEmitter_ids in Hin. tauto.
    + apply NoDup_filter_ids. exact Hnd.
  - intros Hnum Hnd. unfold addZone. cbv zeta.
    rewrite map_app. cbn [map zone_id].
    destruct (numbered_snoc "zone-" counter _ Hnum Hnd) as [Hnum' Hnd'].
    auto.
  - intros Hnum Hnd. unfold addWall. cbv zeta.
    rewrite map_app. cbn [map wall_id].
    destruct (numbered_snoc "wall-" counter _ Hnum Hnd) as [Hnum' Hnd'].
    auto.
Qed.

Lemma seed_emitters_numbered :
  numbered "emitter-" 4 (map em_id INITIAL_EMITTERS) /\ List.NoDup (map em_id INITIAL_EMITTERS).
Proof.
  split.
  - intros id [<- | [<- | [<- | []]]];
      [exists 1%nat | exists 2%nat | exists 3%nat]; (split; [lia | reflexivity]).
  - simpl. repeat constructor; simpl; intuition discriminate.
Qed.

Lemma ids_stay_distinct_witness :
  (numbered "emitter-" 4 (map em_id INITIAL_EMITTERS)
   /\ List.NoDup (map em_id INITIAL_EMITTERS))
  /\ List.NoDup (map em_id (fst (addEmitter halfDraws 4 1 1 INITIAL_EMITTERS))).
Proof.
  destruct seed_emitters_numbered as [Hnum Hnd].
  split; [auto |].
  pose proof (proj1 (ids_stay_distinct halfDraws 4 1 1 "emitter-9" INITIAL_EMITTERS [] [])
                Hnum Hnd) as H.
  destruct (addEmitter halfDraws 4 1 1 INITIAL_EMITTERS) as [es c]. simpl. tauto.
Defined.

Lemma randomBetween_range (u lo hi : R) :
  0 <= u < 1 -> lo <= hi -> lo <= randomBetween u lo hi <= hi.
Proof. intros Hu Hle. unfold randomBetween. nra. Qed.

Lemma randomBetween_below (u lo hi : R) :
  0 <= u < 1 -> lo < hi -> randomBetween u lo hi < hi.
Proof. intros Hu Hlt. unfold randomBetween. nra. Qed.

Lemma round_between (lo hi : Z) (r : R) :
  IZR lo <= r <= IZR hi -> IZR lo <= IZR (round r) <= IZR hi.
Proof.
  intros Hr. unfold round. destruct (base_Int_part (r + 0.5)) as [Hle Hgt].
  split.
  - apply IZR_le.
    assert (Hlt : IZR (lo - 1) < IZR (Int_part (r + 0.5))) by (rewrite minus_IZR; lra).
    apply lt_IZR in Hlt. lia.
  - apply IZR_le.
    assert (Hlt : IZR (Int_part (r + 0.5)) < IZR (hi + 1)) by (rewrite plus_IZR; lra).
    apply lt_IZR in Hlt. lia.
Qed.

Lemma waveform_index (u : R) :
  0 <= u < 1 ->
  In (default Sine (WAVEFORMS !! Z.to_nat (floor (u * INR (length WAVEFORMS))))) WAVEFORMS
  /\ WAVEFORMS !! Z.to_nat (floor (u * INR (length WAVEFORMS))) <> None.
Proof.
  intros Hu. unfold floor.
  replace (INR (length WAVEFORMS)) with 4 by (simpl; lra).
  destruct (base_Int_part (u * 4)) as [Hle Hgt].
  assert (Hlo : (-1 < Int_part (u * 4))%Z) by (apply lt_IZR; lra).
  assert (Hhi : (Int_part (u * 4) < 4)%Z) by (apply lt_IZR; lra).
  assert (Hcases : Int_part (u * 4) = 0%Z \/ Int_part (u * 4) = 1%Z
                   \/ Int_part (u * 4) = 2%Z \/ Int_part (u * 4) = 3%Z) by lia.
  destruct Hcases as [-> | [-> | [-> | ->]]]; simpl; split; auto; discriminate.
Qed.

(** X21.  For draws of the random source in [0, 1), the emitter appended by
    [addEmitter] is at the requested position and within every range the
    editor declares: elevation in [-0.4, 0.4), an integer frequency in
    [360, 1200], gain in [0.08, 0.22], a waveform among the four listed ones,
    and both velocity components in [-1, 1). *)
Theorem added_emitter_in_ranges (rnd : nat -> R) (counter : nat) (x z : R)
    (prev : list SoundEmitter) :
  unitDraws rnd ->
  exists emitter,
    addEmitter rnd counter x z prev = (prev ++ [emitter], S counter)
    /\ em_x emitter = x /\ em_z emitter = z
    /\ (-0.4 <= em_y emitter < 0.4 /\ within ELEVATION_RANGE (em_y emitter))
    /\ (360 <= em_frequency emitter <= 1200 /\ within FREQUENCY_RANGE (em_frequency emitter)
        /\ exists n : Z, em_frequency emitter = IZR n)
    /\ (0.08 <= em_gain emitter <= 0.22 /\ within GAIN_RANGE (em_gain emitter))
    /\ In (em_waveform emitter) WAVEFORMS
    /\ (-1 <= em_vx emitter < 1) /\ (-1 <= em_vz emitter < 1).
Proof.
  intros Hrnd. unfold addEmitter. cbv zeta. eexists. split; [reflexivity |].
  cbn [em_x em_z em_y em_frequency em_gain em_waveform em_vx em_vz].
  split; [reflexivity |]. split; [reflexivity |].
  pose proof (randomBetween_range (rnd 0%nat) (-0.4) 0.4 (Hrnd 0%nat)) as Hy.
  pose proof (randomBetween_below (rnd 0%nat) (-0.4) 0.4 (Hrnd 0%nat)) as Hy'.
  pose proof (randomBetween_range (rnd 1%nat) 360 1200 (Hrnd 1%nat)) as Hf.
  pose proof (randomBetween_range (rnd 2%nat) 0.08 0.22 (Hrnd 2%nat)) as Hg.
  pose proof (randomBetween_range (rnd 6%nat) (-1) 1 (Hrnd 6%nat)) as Hvx.
  pose proof (randomBetween_below (rnd 6%nat) (-1) 1 (Hrnd 6%nat)) as Hvx'.
  pose proof (randomBetween_range (rnd 7%nat) (-1) 1 (Hrnd 7%nat)) as Hvz.
  pose proof (randomBetween_below (rnd 7%nat) (-1) 1 (Hrnd 7%nat)) as Hvz'.
  assert (Hfreq : 360 <= IZR (round (randomBetween (rnd 1%nat) 360 1200)) <= 1200).
  { apply (round_between 360 1200). lra. }
  assert (Hgain : 8 <= IZR (round (randomBetween (rnd 2%nat) 0.08 0.22 * 100)) <= 22).
  { apply (round_between 8 22). lra. }
  unfold within, ELEVATION_RANGE, FREQUENCY_RANGE, GAIN_RANGE. simpl fst. simpl snd.
  split; [lra |]. split; [split; [lra | split; [lra | eauto]] |].
  split; [lra |]. split; [apply waveform_index; apply Hrnd |].
  split; lra.
Qed.

Lemma added_emitter_in_ranges_witness :
  unitDraws halfDraws
  /\ exists emitter,
       addEmitter halfDraws 4 1 2 INITIAL_EMITTERS = (INITIAL_EMITTERS ++ [emitter], 5%nat)
       /\ In (em_waveform emitter) WAVEFORMS
       /\ 360 <= em_frequency emitter <= 1200.
Proof.
  assert (Hrnd : unitDraws halfDraws) by (intros k; unfold halfDraws; lra).
  split; [exact Hrnd |].
  destruct (added_emitter_in_ranges halfDraws 4 1 2 INITIAL_EMITTERS Hrnd)
    as (emitter & Hadd & _ & _ & _ & (Hf & _) & _ & Hw & _).
  exists emitter. auto.
Defined.

(** X22.  For draws in [0, 1), an obstacle created by [addZone] or [addWall]
    has its size within the range the editor declares and lies entirely
    inside the world disc: the zone's disc, and every point of the wall's
    rectangle, are within 16 m of the origin. *)
Theorem added_obstacle_inside_world (rnd : nat -> R) (counter : nat)
    (zones : list CollisionZone) (walls : list Wall) :
  unitDraws rnd ->
  (exists zone,
     addZone rnd counter zones = (zones ++ [zone], S counter)
     /\ within ZONE_RADIUS_RANGE (zone_radius zone)
     /\ within POSITION_RANGE (zone_x zone) /\ within POSITION_RANGE (zone_z zone)
     /\ hypot (zone_x zone) (zone_z zone) + zone_radius zone <= WORLD_RADIUS_M)
  /\ (exists wall,
        addWall rnd counter walls = (walls ++ [wall], S counter)
        /\ within WALL_WIDTH_RANGE (wall_width wall)
        /\ within WALL_HEIGHT_RANGE (wall_height wall)
        /\ within POSITION_RANGE (wall_x wall) /\ within POSITION_RANGE (wall_z wall)
        /\ forall x z, inWall x z 0 wall -> hypot x z <= WORLD_RADIUS_M).
Proof.
  intros Hrnd.
  pose proof (randomBetween_range (rnd 0%nat) (-8) 8 (Hrnd 0%nat)) as Hx.
  pose proof (randomBetween_range (rnd 1%nat) (-8) 8 (Hrnd 1%nat)) as Hz.
  split.
  - unfold addZone. cbv zeta. eexists. split; [reflexivity |].
    cbn [zone_x zone_z zone_radius].
    pose proof (randomBetween_range (rnd 2%nat) 1 2.2 (Hrnd 2%nat)) as Hr.
    unfold within, ZONE_RADIUS_RANGE, POSITION_RANGE, WORLD_RADIUS_M. simpl fst. simpl snd.
    split; [lra |]. split; [lra |]. split; [lra |].
    set (zx := randomBetween (rnd 0%nat) (-8) 8) in *.
    set (zz := randomBetween (rnd 1%nat) (-8) 8) in *.
    assert (Hh : hypot zx zz <= 11.4) by (apply hypot_le_iff; nra).
    lra.
  - unfold addWall. cbv zeta. eexists. split; [reflexivity |].
    cbn [wall_x wall_z wall_width wall_height].
    pose proof (randomBetween_range (rnd 2%nat) 1.2 4.8 (Hrnd 2%nat)) as Hw.
    pose proof (randomBetween_range (rnd 3%nat) 0.8 3.8 (Hrnd 3%nat)) as Hh.
    unfold within, WALL_WIDTH_RANGE, WALL_HEIGHT_RANGE, POSITION_RANGE, WORLD_RADIUS_M.
    simpl fst. simpl snd.
    split; [lra |]. split; [lra |]. split; [lra |]. split; [lra |].
    intros x z [Hinx Hinz]. cbn [wall_x wall_z wall_width wall_height] in Hinx, Hinz.
    apply hypot_le_iff; [lra |].
    assert (Hxb : -10.4 <= x <= 10.4) by lra.
    assert (Hzb : -9.9 <= z <= 9.9) by lra.
    nra.
Qed.

Lemma added_obstacle_inside_world_witness :
  unitDraws halfDraws
  /\ exists zone,
       addZone halfDraws 4 INITIAL_ZONES = (INITIAL_ZONES ++ [zone], 5%nat)
       /\ hypot (zone_x zone) (zone_z zone) + zone_radius zone <= WORLD_RADIUS_M.
Proof.
  assert (Hrnd : unitDraws halfDraws) by (intros k; unfold halfDraws; lra).
  split; [exact Hrnd |].
  destruct (proj1 (added_obstacle_inside_world halfDraws 4 INITIAL_ZONES INITIAL_WALLS Hrnd))
    as (zone & Hadd & _ & _ & _ & Hin).
  exists zone. auto.
Defined.

End CommandLaws.

(** ** Properties of the pointer handlers, the selection and the listener pose *)

Module PointerLaws.
Import NumFacts CollisionFacts CommandFacts.

Lemma NoDup_map_inj_in {A : Type} (f : A -> string) (l : list A) (a b : A) :
  List.NoDup (map f l) -> In a l -> In b l -> f a = f b -> a = b.
Proof.
  induction l as [| c l IH]; simpl; intros Hnd Ha Hb Heq; [destruct Ha |].
  inversion Hnd as [| ? ? Hfresh Hnd']; subst.
  destruct Ha as [-> | Ha]; destruct Hb as [-> | Hb].
  - reflexivity.
  - exfalso. apply Hfresh. rewrite Heq. apply in_map. exact Hb.
  - exfalso. apply Hfresh. rewrite <- Heq. apply in_map. exact Ha.
  - apply IH; assumption.
Qed.

Lemma map_fixed {A : Type} (f : A -> A) (l : list A) :
  (forall a, In a l -> f a = a) -> map f l = l.
Proof.
  induction l as [| a l IH]; simpl; intros Hfix; [reflexivity |].
  rewrite Hfix by (left; reflexivity). f_equal. apply IH. intros b Hb. apply Hfix. right.
  exact Hb.
Qed.

Lemma grabZone_Some (wx wz : R) (zones : list CollisionZone) (zone : CollisionZone) :
  grabZone wx wz zones = Some zone ->
  In zone zones /\ hypot (wx - zone_x zone) (wz - zone_z zone) <= zone_radius zone.
Proof.
  induction zones as [| z0 rest IH]; simpl; [discriminate |].
  destruct (bool_decide (hypot (wx - zone_x z0) (wz - zone_z z0) <= zone_radius z0)) eqn:Hhit.
  - intros H. injection H as <-. apply bool_decide_eq_true in Hhit. auto.
  - intros H. destruct (IH H). auto.
Qed.

Lemma grabWall_Some (wx wz : R) (walls : list Wall) (wall : Wall) :
  grabWall wx wz walls = Some wall -> In wall walls /\ inWall wx wz 0 wall.
Proof.
  induction walls as [| w0 rest IH]; simpl; [discriminate |].
  destruct (insideRect wx wz _ _ _ _) eqn:Hhit.
  - intros H. injection H as <-. apply insideRect_true in Hhit.
    split; [left; reflexivity |]. unfold inWall. lra.
  - intros H. destruct (IH H). auto.
Qed.

Lemma hold_zone (id : string) (zones : list CollisionZone) (zone : CollisionZone) (wx wz : R) :
  List.NoDup (map zone_id zones) -> In zone zones -> zone_id zone = id ->
  within POSITION_RANGE (zone_x zone) -> within POSITION_RANGE (zone_z zone) ->
  updateZone id
    (mkZonePatch None None
       (Some (clamp (wx - (wx - zone_x zone)) (- WORLD_RADIUS_M) WORLD_RADIUS_M))
       (Some (clamp (wz - (wz - zone_z zone)) (- WORLD_RADIUS_M) WORLD_RADIUS_M)) None) zones
  = zones.
Proof.
  intros Hnd Hin Hid Hx Hz. unfold updateZone. apply map_fixed. intros other Hother.
  destruct (bool_decide (zone_id other = id)) eqn:Hsame; [| reflexivity].
  apply bool_decide_eq_true in Hsame.
  assert (other = zone).
  { apply (NoDup_map_inj_in zone_id zones); [assumption .. | congruence]. }
  subst other.
  replace (wx - (wx - zone_x zone)) with (zone_x zone) by ring.
  replace (wz - (wz - zone_z zone)) with (zone_z zone) by ring.
  unfold within, POSITION_RANGE in Hx, Hz. simpl in Hx, Hz.
  rewrite !clamp_id by assumption. destruct zone. reflexivity.
Qed.

Lemma hold_wall (id : string) (walls : list Wall) (wall : Wall) (wx wz : R) :
  List.NoDup (map wall_id walls) -> In wall walls -> wall_id wall = id ->
  within POSITION_RANGE (wall_x wall) -> within POSITION_RANGE (wall_z wall) ->
  updateWall id
    (mkWallPatch None
       (Some (clamp (wx - (wx - wall_x wall)) (- WORLD_RADIUS_M) WORLD_RADIUS_M))
       (Some (clamp (wz - (wz - wall_z wall)) (- WORLD_RADIUS_M) WORLD_RADIUS_M)) None None)
    walls
  = walls.
Proof.
  intros Hnd Hin Hid Hx Hz. unfold updateWall. apply map_fixed. intros other Hother.
  destruct (bool_decide (wall_id other = id)) eqn:Hsame; [| reflexivity].
  apply bool_decide_eq_true in Hsame.
  assert (other = wall).
  { apply (NoDup_map_inj_in wall_id walls); [assumption .. | congruence]. }
  subst other.
  replace (wx - (wx - wall_x wall)) with (wall_x wall) by ring.
  replace (wz - (wz - wall_z wall)) with (wall_z wall) by ring.
  unfold within, POSITION_RANGE in Hx, Hz. simpl in Hx, Hz.
  rewrite !clamp_id by assumption. destruct wall. reflexivity.
Qed.

Lemma Forall2_diag {A : Type} (P : A -> A -> Prop) (l : list A) :
  (forall a, P a a) -> Forall2 P l l.
Proof. intros HP. induction l as [| a l IH]; constructor; auto. Qed.

Lemma Rabs_same (v : R) : Rabs (v - v) <= 1e-9.
Proof. replace (v - v) with 0 by ring. rewrite Rabs_R0. lra. Qed.

(** X23.  Grabbing an obstacle does not make it jump.  When no emitter is
    grabbed, obstacle ids are distinct and obstacle centres are within
    [-16, 16] per axis, a pointer-down followed by a pointer-move at the same
    canvas position leaves the emitters and the id counter as they were,
    keeps the id, label and size of every obstacle, and leaves every
    obstacle's centre within a nanometre of where it was: the drag offset
    recorded at pointer-down cancels the pointer position (exactly, but for
    floating-point rounding).  After the pointer is released a pointer-move
    changes nothing at all. *)
Theorem grab_then_hold_keeps_scene (pointerX pointerY moveX moveY : R) (s : Scene)
    (p : PointerState) :
  truthy (fst (nearestEmitterLoop pointerX pointerY (sc_emitters s) None None)) = false ->
  dragTargetRef p = None ->
  List.NoDup (map zone_id (sc_zones s)) ->
  List.NoDup (map wall_id (sc_walls s)) ->
  (forall zone, In zone (sc_zones s) ->
     within POSITION_RANGE (zone_x zone) /\ within POSITION_RANGE (zone_z zone)) ->
  (forall wall, In wall (sc_walls s) ->
     within POSITION_RANGE (wall_x wall) /\ within POSITION_RANGE (wall_z wall)) ->
  let grabbed := onCanvasPointerDown pointerX pointerY s p in
  let held := onCanvasPointerMove (dragTargetRef grabbed) pointerX pointerY s in
  sc_emitters held = sc_emitters s
  /\ sc_emitterCounter held = sc_emitterCounter s
  /\ Forall2 (fun zone' zone =>
               zone_id zone' = zone_id zone /\ zone_label zone' = zone_label zone
               /\ zone_radius zone' = zone_radius zone
               /\ Rabs (zone_x zone' - zone_x zone) <= 1e-9
               /\ Rabs (zone_z zone' - zone_z zone) <= 1e-9)
       (sc_zones held) (sc_zones s)
  /\ Forall2 (fun wall' wall =>
               wall_id wall' = wall_id wall
               /\ wall_width wall' = wall_width wall /\ wall_height wall' = wall_height wall
               /\ Rabs (wall_x wall' - wall_x wall) <= 1e-9
               /\ Rabs (wall_z wall' - wall_z wall) <= 1e-9)
       (sc_walls held) (sc_walls s)
  /\ onCanvasPointerMove (dragTargetRef (onCanvasPointerUp grabbed)) moveX moveY s = s.
Proof.
  intros Hnone Hidle Hzn Hwn Hzr Hwr. cbv zeta.
  assert (Hheld : onCanvasPointerMove (dragTargetRef (onCanvasPointerDown pointerX pointerY s p))
                    pointerX pointerY s = s).
  { unfold onCanvasPointerDown. cbv zeta. rewrite Hnone.
    set (wx := fst (canvasToPoint pointerX pointerY CANVAS_SIZE)).
    set (wz := snd (canvasToPoint pointerX pointerY CANVAS_SIZE)).
    destruct (grabZone wx wz (sc_zones s)) as [zone |] eqn:Hz.
    - apply grabZone_Some in Hz. destruct Hz as [Hin _].
      destruct (Hzr zone Hin) as [Hx Hzz].
      cbn [dragTargetRef onCanvasPointerMove]. cbv zeta. fold wx wz.
      rewrite (hold_zone (zone_id zone) (sc_zones s) zone wx wz Hzn Hin eq_refl Hx Hzz).
      destruct s. reflexivity.
    - destruct (grabWall wx wz (sc_walls s)) as [wall |] eqn:Hw.
      + apply grabWall_Some in Hw. destruct Hw as [Hin _].
        destruct (Hwr wall Hin) as [Hx Hzz].
        cbn [dragTargetRef onCanvasPointerMove]. cbv zeta. fold wx wz.
        rewrite (hold_wall (wall_id wall) (sc_walls s) wall wx wz Hwn Hin eq_refl Hx Hzz).
        destruct s. reflexivity.
      + rewrite Hidle. reflexivity. }
  rewrite Hheld.
  split; [reflexivity |]. split; [reflexivity |]. split; [| split].
  - apply Forall2_diag. intros zone. repeat split; apply Rabs_same.
  - apply Forall2_diag. intros wall. repeat split; apply Rabs_same.
  - reflexivity.
Qed.

Lemma grab_then_hold_keeps_scene_witness :
  (truthy (fst (nearestEmitterLoop 532.875 521.5875 (sc_emitters emptyStage) None None)) = false
   /\ dragTargetRef idlePointer = None)
  /\ Forall2 (fun zone' zone =>
               zone_id zone' = zone_id zone /\ zone_label zone' = zone_label zone
               /\ zone_radius zone' = zone_radius zone
               /\ Rabs (zone_x zone' - zone_x zone) <= 1e-9
               /\ Rabs (zone_z zone' - zone_z zone) <= 1e-9)
       (sc_zones (onCanvasPointerMove (dragTargetRef (onCanvasPointerDown 532.875 521.5875
                                                        emptyStage idlePointer))
                    532.875 521.5875 emptyStage))
       (sc_zones emptyStage).
Proof.
  split; [split; reflexivity |].
  apply (grab_then_hold_keeps_scene 532.875 521.5875 0 0 emptyStage idlePointer eq_refl eq_refl).
  - simpl. repeat constructor; simpl; intuition discriminate.
  - simpl. repeat constructor; simpl; intuition discriminate.
  - intros zone [<- | [<- | [<- | []]]];
      unfold within, POSITION_RANGE, WORLD_RADIUS_M; simpl; lra.
  - intros wall [<- | [<- | [<- | []]]];
      unfold within, POSITION_RANGE, WORLD_RADIUS_M; simpl; lra.
Defined.

Lemma nearest_loop_spec (px py : R) (emitters : list SoundEmitter) (id0 : option string)
    (d0 : option R) :
  (forall d, d0 = Some d -> d < 22) ->
  let r := nearestEmitterLoop px py emitters id0 d0 in
  (forall d, d0 = Some d -> exists d', snd r = Some d' /\ d' <= d)
  /\ (forall e, In e emitters -> drawnDistance px py e < 22 ->
        exists d', snd r = Some d' /\ d' <= drawnDistance px py e)
  /\ (forall d', snd r = Some d' ->
        d' < 22
        /\ ((snd r = d0 /\ fst r = id0)
            \/ exists e, In e emitters /\ fst r = Some (em_id e)
                         /\ d' = drawnDistance px py e))
  /\ (snd r = None -> fst r = id0 /\ d0 = None).
Proof.
  revert id0 d0. induction emitters as [| e rest IH]; intros id0 d0 Hd0; cbv zeta.
  - simpl. split; [intros d ->; exists d; split; [reflexivity | lra] |].
    split; [intros e [] |]. split; [| auto].
    intros d' ->. split; [apply Hd0; reflexivity | left; auto].
  - cbn [nearestEmitterLoop]. cbv zeta. fold (drawnDistance px py e).
    destruct (bool_decide (drawnDistance px py e < 22)
              && match d0 with
                 | Some nearest => bool_decide (drawnDistance px py e < nearest)
                 | None => true
                 end) eqn:Hcond.
    + apply andb_true_iff in Hcond. destruct Hcond as [Hnear Hbetter].
      apply bool_decide_eq_true in Hnear.
      destruct (IH (Some (em_id e)) (Some (drawnDistance px py e))) as (H1 & H2 & H3 & H4).
      { intros d Hd. injection Hd as <-. exact Hnear. }
      cbv zeta in H1, H2, H3, H4.
      destruct (H1 _ eq_refl) as (dmin & Hmin & Hle).
      split; [| split; [| split]].
      * intros d ->. apply bool_decide_eq_true in Hbetter.
        exists dmin. split; [exact Hmin | lra].
      * intros e' [<- | Hin] Hclose; [exists dmin; auto | apply H2; assumption].
      * intros d' Hr. destruct (H3 d' Hr) as [Hlt [[Hs Hf] | (e' & Hin & Hf & Hd)]].
        -- split; [exact Hlt |]. right. exists e. split; [left; reflexivity |].
           split; [exact Hf | congruence].
        -- split; [exact Hlt |]. right. exists e'. split; [right; exact Hin | auto].
      * intros Hr. destruct (H4 Hr) as [_ Habs]. discriminate.
    + destruct (IH id0 d0 Hd0) as (H1 & H2 & H3 & H4). cbv zeta in H1, H2, H3, H4.
      split; [exact H1 | split; [| split; [| exact H4]]].
      * intros e' [<- | Hin] Hclose; [| apply H2; assumption].
        apply andb_false_iff in Hcond. destruct Hcond as [Hfar | Hworse].
        -- apply bool_decide_eq_false in Hfar. contradiction.
        -- destruct d0 as [d |]; [| discriminate].
           apply bool_decide_eq_false in Hworse.
           destruct (H1 d eq_refl) as (dmin & Hmin & Hle). exists dmin.
           split; [exact Hmin | lra].
      * intros d' Hr. destruct (H3 d' Hr) as [Hlt [Hsame | (e' & Hin & Hf & Hd)]].
        -- split; [exact Hlt | left; exact Hsame].
        -- split; [exact Hlt |]. right. exists e'. split; [right; exact Hin | auto].
Qed.

(** X24.  Pointer-down prefers emitters.  If some emitter is drawn less than
    22 pixels from the pointer (and emitter ids are not empty), the handler
    grabs and selects an emitter drawn nearest to the pointer, whatever
    obstacles lie under the pointer, and leaves the obstacle selection alone.
    If no emitter is that close, the emitter loop finds none. *)
Theorem pointer_grabs_nearest_emitter (pointerX pointerY : R) (s : Scene) (p : PointerState) :
  let after := onCanvasPointerDown pointerX pointerY s p in
  ((forall e, In e (sc_emitters s) -> ~ drawnDistance pointerX pointerY e < 22) ->
   fst (nearestEmitterLoop pointerX pointerY (sc_emitters s) None None) = None)
  /\ ((exists e, In e (sc_emitters s) /\ drawnDistance pointerX pointerY e < 22) ->
      (forall e, In e (sc_emitters s) -> em_id e <> "") ->
      exists e,
        In e (sc_emitters s)
        /\ drawnDistance pointerX pointerY e < 22
        /\ (forall e', In e' (sc_emitters s) ->
              drawnDistance pointerX pointerY e <= drawnDistance pointerX pointerY e')
        /\ dragTargetRef after = Some (DragEmitter (em_id e))
        /\ selectedEmitterId after = Some (em_id e)
        /\ selectedObstacle after = selectedObstacle p).
Proof.
  cbv zeta.
  destruct (nearest_loop_spec pointerX pointerY (sc_emitters s) None None)
    as (_ & H2 & H3 & H4); [discriminate |]. cbv zeta in H2, H3, H4.
  split.
  - intros Hfar.
    destruct (snd (nearestEmitterLoop pointerX pointerY (sc_emitters s) None None))
      as [d |] eqn:Hr.
    + destruct (H3 d eq_refl) as [Hlt [[Habs _] | (e & Hin & _ & Hd)]]; [discriminate |].
      exfalso. apply (Hfar e Hin). lra.
    + apply H4. reflexivity.
  - intros (e0 & Hin0 & Hclose0) Hids.
    destruct (H2 e0 Hin0 Hclose0) as (d & Hr & _).
    destruct (H3 d Hr) as [Hlt [[Habs _] | (e & Hin & Hf & Hd)]]; [congruence |].
    exists e. split; [exact Hin |]. split; [lra |]. split.
    + intros e' Hin'.
      destruct (Rlt_dec (drawnDistance pointerX pointerY e') 22) as [Hc | Hc]; [| lra].
      destruct (H2 e' Hin' Hc) as (d' & Hr' & Hle). rewrite Hr in Hr'. injection Hr' as <-.
      lra.
    + unfold onCanvasPointerDown. cbv zeta. rewrite Hf.
      assert (Htruthy : truthy (Some (em_id e)) = true).
      { simpl. rewrite bool_decide_eq_false_2 by (apply Hids; exact Hin). reflexivity. }
      rewrite Htruthy. simpl. auto.
Qed.

Lemma pointer_grabs_nearest_emitter_witness :
  ((exists e, In e (sc_emitters seedScene)
              /\ drawnDistance (fst (pointToCanvas 4.8 (-5.2) CANVAS_SIZE))
                   (snd (pointToCanvas 4.8 (-5.2) CANVAS_SIZE)) e < 22)
   /\ forall e, In e (sc_emitters seedScene) -> em_id e <> "")
  /\ exists e,
       In e (sc_emitters seedScene)
       /\ dragTargetRef (onCanvasPointerDown (fst (pointToCanvas 4.8 (-5.2) CANVAS_SIZE))
                           (snd (pointToCanvas 4.8 (-5.2) CANVAS_SIZE)) seedScene idlePointer)
          = Some (DragEmitter (em_id e)).
Proof.
  assert (Hclose : exists e, In e (sc_emitters seedScene)
              /\ drawnDistance (fst (pointToCanvas 4.8 (-5.2) CANVAS_SIZE))
                   (snd (pointToCanvas 4.8 (-5.2) CANVAS_SIZE)) e < 22).
  { exists (mkSoundEmitter "emitter-2" "Beacon B" 4.8 (-5.2) 0.3 690 0.14 Sine "#df7c20"
              false 0 0).
    split; [right; left; reflexivity |]. unfold drawnDistance. cbn [em_x em_z].
    cut (hypot (fst (pointToCanvas 4.8 (-5.2) CANVAS_SIZE)
                - fst (pointToCanvas 4.8 (-5.2) CANVAS_SIZE))
               (snd (pointToCanvas 4.8 (-5.2) CANVAS_SIZE)
                - snd (pointToCanvas 4.8 (-5.2) CANVAS_SIZE)) = 0); [lra |].
    apply MotionLaws.hypot_eq; [lra | ring]. }
  assert (Hids : forall e, In e (sc_emitters seedScene) -> em_id e <> "").
  { intros e [<- | [<- | [<- | []]]]; discriminate. }
  split; [auto |].
  destruct (proj2 (pointer_grabs_nearest_emitter (fst (pointToCanvas 4.8 (-5.2) CANVAS_SIZE))
                     (snd (pointToCanvas 4.8 (-5.2) CANVAS_SIZE)) seedScene idlePointer)
              Hclose Hids) as (e & Hin & _ & _ & Hdrag & _).
  exists e. auto.
Defined.

Lemma someEmitter_In (id : string) (emitters : list SoundEmitter) :
  someEmitter id emitters = true <-> In id (map em_id emitters).
Proof.
  unfold someEmitter. rewrite existsb_exists, in_map_iff. split.
  - intros (e & Hin & Heq). apply bool_decide_eq_true in Heq. eauto.
  - intros (e & Heq & Hin). exists e. split; [exact Hin |].
    apply bool_decide_eq_true. exact Heq.
Qed.

(** X25.  The selection repair always leaves a usable selection: it is empty
    exactly when there is no emitter, and otherwise names a live emitter, so
    that the selected emitter can be found.  A non-empty selected id that is
    live is kept, repairing twice changes nothing more, and after an emitter
    is removed the repaired selection never names an emitter that is gone. *)
Theorem selection_names_live_emitter (emitters : list SoundEmitter) (selected : option string)
    (id : string) :
  let repaired := repairSelection emitters selected in
  (repaired = None <-> emitters = [])
  /\ (forall sel, repaired = Some sel ->
        In sel (map em_id emitters) /\ is_Some (selectedEmitter emitters repaired))
  /\ (truthy selected = true ->
      (forall sel, selected = Some sel -> In sel (map em_id emitters)) ->
      repaired = selected)
  /\ repairSelection emitters repaired = repaired
  /\ (forall sel, repairSelection (removeEmitter id emitters) (deselectRemoved id selected)
                  = Some sel ->
        In sel (map em_id emitters) /\ sel <> id).
Proof.
  cbv zeta.
  assert (Hlive : forall es s0 sel, repairSelection es s0 = Some sel -> In sel (map em_id es)).
  { intros es s0 sel. unfold repairSelection. destruct es as [| first rest]; [discriminate |].
    destruct (negb (truthy s0) || _) eqn:Hcond.
    - intros H. injection H as <-. left. reflexivity.
    - intros ->. apply orb_false_iff in Hcond. destruct Hcond as [_ Hsome].
      apply negb_false_iff in Hsome. apply someEmitter_In. exact Hsome. }
  split; [| split; [| split; [| split]]].
  - unfold repairSelection. destruct emitters as [| first rest]; [tauto |].
    split; [| discriminate].
    destruct (negb (truthy selected) || _) eqn:Hcond; [discriminate |].
    intros ->. apply orb_false_iff in Hcond. destruct Hcond as [Habs _]. discriminate.
  - intros sel Hsel. pose proof (Hlive _ _ _ Hsel) as Hin. split; [exact Hin |].
    rewrite Hsel. unfold selectedEmitter.
    apply in_map_iff in Hin. destruct Hin as (e & Heq & Hin).
    destruct (find (fun emitter => bool_decide (em_id emitter = sel)) emitters) eqn:Hfind;
      [eauto |].
    exfalso. pose proof (find_none _ _ Hfind e Hin) as Hno. simpl in Hno.
    apply bool_decide_eq_false in Hno. contradiction.
  - intros Htruthy Hin. unfold repairSelection.
    destruct emitters as [| first rest].
    + destruct selected as [sel |]; [| discriminate]. destruct (Hin sel eq_refl).
    + destruct selected as [sel |]; [| discriminate].
      rewrite Htruthy, (proj2 (someEmitter_In sel (first :: rest)) (Hin sel eq_refl)).
      reflexivity.
  - destruct (repairSelection emitters selected) as [sel |] eqn:Hrep.
    + pose proof (Hlive _ _ _ Hrep) as Hin. unfold repairSelection in *.
      destruct emitters as [| first rest]; [discriminate |].
      rewrite (proj2 (someEmitter_In sel (first :: rest)) Hin).
      destruct (truthy (Some sel)) eqn:Ht; simpl; [reflexivity |].
      destruct (negb (truthy selected) || _) eqn:Hcond.
      * exact Hrep.
      * subst selected. apply orb_false_iff in Hcond. destruct Hcond as [Hc _].
        rewrite Ht in Hc. discriminate.
    + destruct emitters as [| first rest]; [reflexivity |].
      exfalso. unfold repairSelection in Hrep.
      destruct (negb (truthy selected) || _) eqn:Hcond; [discriminate |].
      subst selected. simpl in Hcond. discriminate.
  - intros sel Hsel. apply Hlive in Hsel.
    apply ReconcilerLaws.removeEmitter_ids in Hsel. exact Hsel.
Qed.

Lemma selection_names_live_emitter_witness :
  (truthy (Some "emitter-2") = true
   /\ forall sel, Some "emitter-2" = Some sel -> In sel (map em_id INITIAL_EMITTERS))
  /\ repairSelection INITIAL_EMITTERS (Some "emitter-2") = Some "emitter-2"
  /\ forall sel,
       repairSelection (removeEmitter "emitter-2" INITIAL_EMITTERS)
         (deselectRemoved "emitter-2" (Some "emitter-2")) = Some sel ->
       sel <> "emitter-2".
Proof.
  assert (Htruthy : truthy (Some "emitter-2") = true) by reflexivity.
  assert (Hin : forall sel, Some "emitter-2" = Some sel -> In sel (map em_id INITIAL_EMITTERS)).
  { intros sel Heq. injection Heq as <-. right; left. reflexivity. }
  split; [auto |].
  destruct (selection_names_live_emitter INITIAL_EMITTERS (Some "emitter-2") "emitter-2")
    as (_ & _ & Hkeep & _ & Hgone).
  split; [exact (Hkeep Htruthy Hin) |].
  intros sel Hsel. exact (proj2 (Hgone sel Hsel)).
Defined.



End PointerLaws.
